(** * Cache simulator and branch predictors: model and verified properties

    A shallow embedding of [src/cache/cache-sim.c], with its three
    simulation engines and its [main]:

    - [sim_set_associative]        direct-mapped and N-way caches,
    - [sim_fully_associative]      one 512-block set with recency counters,
    - [sim_fully_associative_pseudo]  a 512-leaf binary recency tree,

    and of the predictors of [src/branchpredictors/predictors.c].

    C integers are modelled as [Z] with the wrap-around of their width
    written out; C arrays are lists indexed with stdpp's lookup and insert.
    An execution that would index an array out of bounds or divide by zero
    has no defined behaviour in C: the model returns [None] there. *)

From Stdlib Require Import ZArith Lia List Bool Ascii.
From stdpp Require Import base option list numbers.

Local Open Scope Z_scope.

(** * Part I: the program *)

(** ** Machine integers *)

Definition wrap (w x : Z) : Z := x mod 2 ^ w.
Definition wrap16 : Z -> Z := wrap 16.
Definition wrap32 : Z -> Z := wrap 32.
Definition wrap64 : Z -> Z := wrap 64.

Definition UINT32_MAX : Z := 4294967295.

(** ** Shared data (lines 14-34) *)

Inductive option_t : Set :=
  | OPTION_NONE
  | OPTION_WRITE_ON_MISS
  | OPTION_PREFETCH_ALWAYS
  | OPTION_PREFETCH_ON_MISS.

(** [ThreadInfo]: the union member [pseudo_lru] is never read and the
    [thread] handle plays no part in the simulation. *)
Record ThreadInfo : Set := mkThreadInfo {
  hits : Z;
  accesses : Z;
  kb : Z;
  ways : Z;
  options : option_t
}.

Inductive op_t : Set := LOAD | STORE.

Record Trace : Set := mkTrace { op : op_t; addr : Z }.

Definition option_eqb (a b : option_t) : bool :=
  match a, b with
  | OPTION_NONE, OPTION_NONE
  | OPTION_WRITE_ON_MISS, OPTION_WRITE_ON_MISS
  | OPTION_PREFETCH_ALWAYS, OPTION_PREFETCH_ALWAYS
  | OPTION_PREFETCH_ON_MISS, OPTION_PREFETCH_ON_MISS => true
  | _, _ => false
  end.

Definition op_eqb (a b : op_t) : bool :=
  match a, b with
  | LOAD, LOAD | STORE, STORE => true
  | _, _ => false
  end.

(** The trace buffer [g_traces] holds at most this many records. *)
Definition g_traces_capacity : Z := 15000000.

Definition block_id_offset : Z := 5.

Definition set_hits (i : ThreadInfo) (h : Z) : ThreadInfo :=
  mkThreadInfo h (accesses i) (kb i) (ways i) (options i).

Definition set_accesses (i : ThreadInfo) (a : Z) : ThreadInfo :=
  mkThreadInfo (hits i) a (kb i) (ways i) (options i).

(** Replaying the trace: the body runs once per record, in order, and an
    undefined step aborts the run. *)
Fixpoint for_traces {S : Type} (body : S -> Trace -> option S)
    (g_traces : list Trace) (st : S) : option S :=
  match g_traces with
  | [] => Some st
  | t :: rest => st' ← body st t; for_traces body rest st'
  end.

(** ** [mylog2] and [bitmask] (lines 36-51) *)

(** [while (n >>= 1) exp++;] on a 32-bit [n]: at most 32 rounds
    ([mylog2_spec]). *)
Fixpoint mylog2_loop (fuel : nat) (n exp : Z) : Z :=
  match fuel with
  | O => exp
  | S fuel' =>
      let n' := Z.shiftr n 1 in
      if n' =? 0 then exp else mylog2_loop fuel' n' (wrap32 (exp + 1))
  end.

Definition mylog2 (n : Z) : Z := wrap16 (mylog2_loop 32 n 0).

(** [~(UINT32_MAX << mylog2(range))], computed on 32 bits. *)
Definition bitmask (range : Z) : Z :=
  wrap32 (Z.lnot (wrap32 (Z.shiftl UINT32_MAX (mylog2 range)))).

(** ** The set-associative engine (lines 26-30 and 53-149) *)

Module SetAssoc.

Record set : Set := mkSet {
  tags : list Z;
  lru : list Z;
  valid : list bool
}.

Definition set_tags (s : set) (l : list Z) : set := mkSet l (lru s) (valid s).
Definition set_lru (s : set) (l : list Z) : set := mkSet (tags s) l (valid s).

(** [s->tags[w] = tag; s->lru[w] = 0; s->valid[w] = true;] *)
Definition place (s : set) (w : nat) (tag : Z) : set :=
  mkSet (<[w := tag]> (tags s)) (<[w := 0]> (lru s)) (<[w := true]> (valid s)).

(** The loop of [sim_set_associative_insert_tag], entered at way [w] with
    [n] ways left.  [lru_largest] is an [unsigned]: the 64-bit counter is
    truncated when it is stored there. *)
Fixpoint insert_tag_loop (n : nat) (w : nat) (s : set) (tag : Z)
    (lru_way : nat) (lru_largest : Z) : set :=
  match n with
  | O => place s lru_way tag
  | S n' =>
      let '(lru_way, lru_largest) :=
        if lru_largest <? lru s !!! w
        then (w, wrap32 (lru s !!! w))
        else (lru_way, lru_largest) in
      if negb (valid s !!! w)
      then place s w tag
      else insert_tag_loop n' (S w) s tag lru_way lru_largest
  end.

Definition sim_set_associative_insert_tag (s : set) (tag : Z) (ways : nat) : set :=
  insert_tag_loop ways 0 s tag 0%nat 0.

(** One round of the scan of [sim_set_associative_do]. *)
Definition do_round (tag : Z) (st : set * bool) (w : nat) : set * bool :=
  let '(s, hit) := st in
  let s := set_lru s (<[w := wrap64 (lru s !!! w + 1)]> (lru s)) in
  if tags s !!! w =? tag
  then (set_lru s (<[w := 0]> (lru s)), true)
  else (s, hit).

Definition sim_set_associative_do (s : set) (tag : Z) (ways : nat)
    (no_modify : bool) : set * bool :=
  let '(s, hit) := fold_left (do_round tag) (seq 0 ways) (s, false) in
  if negb hit && negb no_modify
  then (sim_set_associative_insert_tag s tag ways, hit)
  else (s, hit).

(** [struct set cache[1024] = {{{0}, {0}, {false}}};] *)
Definition empty_set : set :=
  mkSet (replicate 16 0) (replicate 16 0) (replicate 16 false).

Definition empty_cache : list set := replicate 1024 empty_set.

(** Lines 113-115. *)
Definition sets (i : ThreadInfo) : Z := wrap32 (16 * 1024) / wrap32 (32 * ways i).
Definition log (i : ThreadInfo) : Z := mylog2 (wrap32 (sets i)).
Definition mask (i : ThreadInfo) : Z :=
  if ways i =? 1
  then bitmask (wrap32 (kb i * 1024) / 32)
  else bitmask (wrap32 (sets i)).

(** Lines 121-125: the set index (the local [set]) and the tag that the
    access at [addr] goes to.  The direct-mapped branch replaces the tag by
    [addr >> 10]. *)
Definition decompose (i : ThreadInfo) (addr : Z) : Z * Z :=
  let set_ix := Z.land (Z.shiftr addr block_id_offset) (mask i) in
  let tag := Z.shiftr addr (block_id_offset + log i) in
  if ways i =? 1 then (set_ix, Z.shiftr addr 10) else (set_ix, tag).

(** [sim_set_associative_do(&cache[set], tag, ways, no_modify)]: the set
    is updated in place. *)
Definition do_at (cache : list set) (set_ix tag : Z) (ways : nat)
    (no_modify : bool) : option (list set * bool) :=
  s ← cache !! Z.to_nat set_ix;
  let '(s', hit) := sim_set_associative_do s tag ways no_modify in
  Some (<[Z.to_nat set_ix := s']> cache, hit).

(** The body of the loop over the trace (lines 118-144); the state is the
    cache and [i->hits]. *)
Definition body (i : ThreadInfo) (st : list set * Z) (t : Trace)
    : option (list set * Z) :=
  let '(cache, hits) := st in
  let addr := addr t in
  let '(set_ix, tag) := decompose i addr in
  if ways i =? 1 then
    s ← cache !! Z.to_nat set_ix;
    if tags s !!! 0%nat =? tag
    then Some (cache, wrap32 (hits + 1))
    else Some (<[Z.to_nat set_ix := set_tags s (<[0%nat := tag]> (tags s))]> cache, hits)
  else
    '(cache, hit) ← do_at cache set_ix tag (Z.to_nat (ways i))
                      (option_eqb (options i) OPTION_WRITE_ON_MISS
                       && op_eqb (op t) STORE);
    let hits := wrap32 (hits + Z.b2z hit) in
    if option_eqb (options i) OPTION_PREFETCH_ALWAYS
       || (option_eqb (options i) OPTION_PREFETCH_ON_MISS && negb hit)
    then
      let set_ix := Z.land (Z.shiftr (wrap64 (addr + 32)) block_id_offset) (mask i) in
      let tag := Z.shiftr (wrap64 (addr + 32)) (block_id_offset + mylog2 (wrap32 (sets i))) in
      '(cache, _) ← do_at cache set_ix tag (Z.to_nat (ways i)) false;
      Some (cache, hits)
    else Some (cache, hits).

(** [sim_set_associative]: [ways = 0] divides by zero and [ways > 16]
    overruns the arrays of [struct set]. *)
Definition sim_set_associative (i : ThreadInfo) (g_traces : list Trace)
    : option ThreadInfo :=
  if bool_decide (1 <= ways i <= 16) then
    let i := set_accesses i (Z.of_nat (length g_traces)) in
    '(_, h) ← for_traces (body i) g_traces (empty_cache, hits i);
    Some (set_hits i h)
  else None.

End SetAssoc.

(** ** The exact-LRU fully-associative engine (lines 151-223) *)

(** A [for (b = 0; b < bound; b += 8)] loop whose body is the same macro
    expanded at [b + 0], ..., [b + 7]. *)
Definition unrolled8 {S : Type} (stmt : S -> nat -> S) (bound : nat) (st : S) : S :=
  fold_left
    (fun st k =>
       let b := (8 * k)%nat in
       fold_left stmt
         [b + 0; b + 1; b + 2; b + 3; b + 4; b + 5; b + 6; b + 7]%nat st)
    (seq 0 (bound / 8)) st.

Module FullyAssoc.

Record block : Set := mkBlock { tag : Z; lru : Z }.

#[global] Instance block_inhabited : Inhabited block := populate (mkBlock 0 0).

(** [cache[512] = {{0}, {0}}] *)
Definition empty_cache : list block := replicate 512 (mkBlock 0 0).

Definition set_tag (b : block) (v : Z) : block := mkBlock v (lru b).
Definition set_lru (b : block) (v : Z) : block := mkBlock (tag b) v.

(** The search macro at slot [n]; the state is the cache and [hit]. *)
Definition SIMFA_UNROLL1 (tg : Z) (st : list block * bool) (n : nat)
    : list block * bool :=
  let '(cache, hit) := st in
  let cache := <[n := set_lru (cache !!! n) (wrap64 (lru (cache !!! n) + 1))]> cache in
  if negb hit && (tag (cache !!! n) =? tg)
  then (<[n := set_lru (cache !!! n) 0]> cache, true)
  else (cache, hit).

(** The state of the allocation loop: the cache, [lru_block],
    [lru_largest] (both [unsigned]) and [hasempty]. *)
Definition alloc_state : Set := (list block * nat * Z * bool)%type.

(** The allocation macro at slot [n].  Its [break] leaves the loop as soon
    as [hasempty] is set, so nothing runs once the flag is up. *)
Definition SIMFA_UNROLL2 (tg : Z) (st : alloc_state) (n : nat) : alloc_state :=
  let '(cache, lru_block, lru_largest, hasempty) := st in
  if hasempty then st
  else
    let '(lru_block, lru_largest) :=
      if lru_largest <? lru (cache !!! n)
      then (n, wrap32 (lru (cache !!! n)))
      else (lru_block, lru_largest) in
    if tag (cache !!! n) =? 0
    then (<[n := mkBlock tg 0]> cache, lru_block, lru_largest, true)
    else (cache, lru_block, lru_largest, false).

(** Lines 191-217: the miss branch. *)
Definition allocate (cache : list block) (tg : Z) : list block :=
  let '(cache, lru_block, _, hasempty) :=
    unrolled8 (SIMFA_UNROLL2 tg) 512 (cache, 0%nat, 0, false) in
  if negb hasempty then <[lru_block := mkBlock tg 0]> cache else cache.

(** The body of the loop over the trace (lines 166-218). *)
Definition body (st : list block * Z) (t : Trace) : list block * Z :=
  let '(cache, hits) := st in
  let tg := Z.shiftr (addr t) block_id_offset in
  let '(cache, hit) := unrolled8 (SIMFA_UNROLL1 tg) 512 (cache, false) in
  if hit then (cache, wrap32 (hits + 1))
  else (allocate cache tg, hits).

Definition sim_fully_associative (i : ThreadInfo) (g_traces : list Trace)
    : ThreadInfo :=
  let i := set_accesses i (Z.of_nat (length g_traces)) in
  let '(_, h) := fold_left body g_traces (empty_cache, hits i) in
  set_hits i h.

End FullyAssoc.

(** ** The pseudo-LRU fully-associative engine (lines 225-272) *)

Module PseudoLRU.

(** [uint64_t lru_cache[1024] = {0};] entries 0..510 are the bits of the
    inner nodes, entries 511..1022 the tags of the leaves. *)
Definition empty_cache : list Z := replicate 1024 0.

(** The scan [for (block = 511; block < 1023; block++)] stops at the first
    leaf that holds the tag. *)
Definition find_block (lru_cache : list Z) (tg : Z) : option nat :=
  List.find (fun block => lru_cache !!! block =? tg) (seq 511 512).

(** [do lru_cache[(block - 1) / 2] = (block % 2) ? 0 : 1;
     while ((block = (block - 1) / 2));]
    Each round at least halves [block], so [block] rounds are enough for
    a [block] that is not 0 ([walk_up_fuel]). *)
Fixpoint walk_up (fuel : nat) (block : nat) (lru_cache : list Z) : list Z :=
  match fuel with
  | O => lru_cache
  | S fuel' =>
      let lru_cache :=
        <[((block - 1) / 2)%nat := if (block mod 2 =? 0)%nat then 1 else 0]> lru_cache in
      let block := ((block - 1) / 2)%nat in
      if (block =? 0)%nat then lru_cache else walk_up fuel' block lru_cache
  end.

(** [for (tmp; tmp < 511;
          tmp = 2 * tmp + (!(lru_cache[tmp] = !lru_cache[tmp]) ? 1 : 2));]
    Each round moves [tmp] to a child, so 511 rounds are enough
    ([descend_fuel]). *)
Fixpoint descend (fuel : nat) (tmp : nat) (lru_cache : list Z) : list Z * nat :=
  match fuel with
  | O => (lru_cache, tmp)
  | S fuel' =>
      if (tmp <? 511)%nat then
        let v := if lru_cache !!! tmp =? 0 then 1 else 0 in
        let lru_cache := <[tmp := v]> lru_cache in
        descend fuel' (2 * tmp + (if Z.eqb v 0 then 1 else 2))%nat lru_cache
      else (lru_cache, tmp)
  end.

(** The body of the loop over the trace (lines 245-269).  In
    [hit = (i->hits++ - i->hits)] the counter is incremented once.  C
    leaves the order of the two reads open; the difference is taken here
    with the operands read from left to right, old value minus new value,
    which is never zero. *)
Definition body (st : list Z * Z) (t : Trace) : list Z * Z :=
  let '(lru_cache, hits) := st in
  let tg := Z.shiftr (addr t) block_id_offset in
  let '(lru_cache, hits, hit) :=
    match find_block lru_cache tg with
    | Some block =>
        let hit := negb (wrap32 (hits - wrap32 (hits + 1)) =? 0) in
        (walk_up block block lru_cache, wrap32 (hits + 1), hit)
    | None => (lru_cache, hits, false)
    end in
  if negb hit then
    let '(lru_cache, tmp) := descend 511 0 lru_cache in
    (<[tmp := tg]> lru_cache, hits)
  else (lru_cache, hits).

Definition sim_fully_associative_pseudo (i : ThreadInfo) (g_traces : list Trace)
    : ThreadInfo :=
  let i := set_accesses i (Z.of_nat (length g_traces)) in
  let '(_, h) := fold_left body g_traces (empty_cache, hits i) in
  set_hits i h.

End PseudoLRU.

(** ** [main] (lines 274-370) *)

(** The loop [while (fscanf(input, ...) != EOF)] over the records of the
    input file, each given as the character and the number it holds: the
    character L makes a load, every other character a store, and the
    number is kept on 32 bits.  [g_traces] has room for 15000000 records
    and the loop does not check it. *)
Definition read_traces (input : list (ascii * Z)) : option (list Trace) :=
  if bool_decide (Z.of_nat (length input) <= g_traces_capacity)
  then Some (map (fun '(behavior, a) =>
                    mkTrace (if Ascii.eqb behavior "L" then LOAD else STORE)
                            (wrap32 a))
                 input)
  else None.

(** [for (k = from; k <= upto; k *= 2)]: the values of [k] the body is
    run for. *)
Fixpoint doubling (fuel : nat) (k upto : Z) : list Z :=
  match fuel with
  | O => []
  | S fuel' => if k <=? upto then k :: doubling fuel' (k * 2) upto else []
  end.

(** [for (int kb = 1; kb <= 32; kb *= 2) { if (kb == 2 || kb == 8) continue; ... }] *)
Definition direct_mapped_sizes : list Z :=
  filter (fun kb => negb ((kb =? 2) || (kb =? 8))) (doubling 32 1 32).

(** [for (int asc = 2; asc <= 16; asc *= 2)] *)
Definition associativities : list Z := doubling 32 2 16.

(** What [fprintf] writes for one run: [hits] and [accesses]. *)
Definition entry (r : ThreadInfo) : Z * Z := (hits r, accesses r).

Definition run_each (g_traces : list Trace) (infos : list ThreadInfo)
    : option (list (Z * Z)) :=
  mapM (fun info => entry <$> SetAssoc.sim_set_associative info g_traces) infos.

(** The lines of the output file, in the order they are written.  The
    runs that [main] starts as threads work on a [ThreadInfo] of their own
    and only read [g_traces], so each is the run of its engine.  The
    checks of [argc] and of [fopen] are left out. *)
Definition main (input : list (ascii * Z)) : option (list (list (Z * Z))) :=
  g_traces ← read_traces input;
  direct ← run_each g_traces
    (map (fun kb => mkThreadInfo 0 0 kb 1 OPTION_NONE) direct_mapped_sizes);
  assoc ← run_each g_traces
    (map (fun asc => mkThreadInfo 0 0 0 asc OPTION_NONE) associativities);
  let full :=
    entry (FullyAssoc.sim_fully_associative
             (mkThreadInfo 0 0 0 0 OPTION_NONE) g_traces) in
  let pseudo :=
    entry (PseudoLRU.sim_fully_associative_pseudo
             (mkThreadInfo 0 0 0 0 OPTION_NONE) g_traces) in
  write_on_miss ← run_each g_traces
    (map (fun asc => mkThreadInfo 0 0 16 asc OPTION_WRITE_ON_MISS) associativities);
  prefetch_always ← run_each g_traces
    (map (fun asc => mkThreadInfo 0 0 0 asc OPTION_PREFETCH_ALWAYS) associativities);
  prefetch_on_miss ← run_each g_traces
    (map (fun asc => mkThreadInfo 0 0 0 asc OPTION_PREFETCH_ON_MISS) associativities);
  Some [direct; assoc; [full]; [pseudo];
        write_on_miss; prefetch_always; prefetch_on_miss].


(** ** The branch predictors ([src/branchpredictors/predictors.c]) *)

Module Predictors.

(** [struct pair] (lines 63-66); [addr] and [target] are [uint64_t]. *)
Record Pair : Set := mkPair { addr : Z; target : Z; actual : bool }.

Definition STRONG_NO : Z := 0.
Definition WEAK_NO : Z := 1.
Definition WEAK_YES : Z := 2.
Definition STRONG_YES : Z := 3.
Definition PREFER_GSHARE : Z := 0.
Definition WEAK_PREFER_GSHARE : Z := 1.
Definition WEAK_PREFER_BIMODAL : Z := 2.
Definition PREFER_BIMODAL : Z := 3.

(** [for (int i = 0; i < g_traces_count; i++)]: the body runs once per
    branch, in order, and an undefined step aborts the run. *)
Fixpoint for_branches {S : Type} (body : S -> Pair -> option S)
    (g_traces : list Pair) (st : S) : option S :=
  match g_traces with
  | [] => Some st
  | branch :: rest => st' ← body st branch; for_branches body rest st'
  end.

(** [sim_always] (lines 71-86); the state is [correct]. *)
Definition always_body (always_val : bool) (correct : Z) (branch : Pair) : Z :=
  if Bool.eqb (actual branch) always_val then wrap32 (correct + 1) else correct.

Definition sim_always (always_val : bool) (g_traces : list Pair) : Z :=
  fold_left (always_body always_val) g_traces 0.

(** [sim_bimodal_one] (lines 88-109); the state is [hist] and [correct].
    A [table_size] that is not positive gives the array [hist] no valid
    size. *)
Definition bimodal_one_body (table_size : Z) (st : list bool * Z) (branch : Pair)
    : option (list bool * Z) :=
  let '(hist, correct) := st in
  let index := wrap32 (addr branch mod table_size) in
  h ← hist !! Z.to_nat index;
  let correct :=
    if Bool.eqb h (actual branch) then wrap32 (correct + 1) else correct in
  Some (<[Z.to_nat index := actual branch]> hist, correct).

Definition sim_bimodal_one (table_size : Z) (g_traces : list Pair) : option Z :=
  if bool_decide (0 < table_size < 2 ^ 31) then
    snd <$> for_branches (bimodal_one_body table_size) g_traces
              (replicate (Z.to_nat table_size) true, 0)
  else None.

(** The update of a two-bit counter, an [unsigned char], written out at
    lines 127-128, 151-152, 184-187 and 192-195:
    [if (actual && c <= WEAK_YES) c++;
     else if (!actual && c >= WEAK_NO) c--;] *)
Definition train (c : Z) (actual : bool) : Z :=
  if actual && (c <=? WEAK_YES) then wrap 8 (c + 1)
  else if negb actual && (WEAK_NO <=? c) then wrap 8 (c - 1)
  else c.

(** [(c >= WEAK_YES) == branch.actual] *)
Definition predicted (c : Z) (actual : bool) : bool :=
  Bool.eqb (WEAK_YES <=? c) actual.

(** [sim_bimodal_two] (lines 111-133). *)
Definition bimodal_two_body (table_size : Z) (st : list Z * Z) (branch : Pair)
    : option (list Z * Z) :=
  let '(hist, correct) := st in
  let index := wrap32 (addr branch mod table_size) in
  c ← hist !! Z.to_nat index;
  let correct :=
    if predicted c (actual branch) then wrap32 (correct + 1) else correct in
  Some (<[Z.to_nat index := train c (actual branch)]> hist, correct).

Definition sim_bimodal_two (table_size : Z) (g_traces : list Pair) : option Z :=
  if bool_decide (0 < table_size < 2 ^ 31) then
    snd <$> for_branches (bimodal_two_body table_size) g_traces
              (replicate (Z.to_nat table_size) STRONG_YES, 0)
  else None.

(** [ghr = ((ghr << 1) + branch.actual) & ~(0xFFFF << history_size);]
    The constant is an [int], shifted and complemented as an [int] and
    then converted to [unsigned] for the conjunction. *)
Definition next_ghr (history_size : Z) (ghr : Z) (actual : bool) : Z :=
  Z.land (wrap32 (Z.shiftl ghr 1 + Z.b2z actual))
         (wrap32 (Z.lnot (Z.shiftl 65535 history_size))).

(** [sim_gshare] (lines 135-159); the state is [hist], [correct] and
    [ghr].  The shift of the [int] constant is defined for a
    [history_size] from 0 to 15. *)
Definition gshare_body (history_size : Z) (st : list Z * Z * Z) (branch : Pair)
    : option (list Z * Z * Z) :=
  let '(hist, correct, ghr) := st in
  let index := wrap32 (Z.lxor (addr branch mod 2048) ghr) in
  c ← hist !! Z.to_nat index;
  let correct :=
    if predicted c (actual branch) then wrap32 (correct + 1) else correct in
  let hist := <[Z.to_nat index := train c (actual branch)]> hist in
  Some (hist, correct, next_ghr history_size ghr (actual branch)).

Definition sim_gshare (history_size : Z) (g_traces : list Pair) : option Z :=
  if bool_decide (0 <= history_size <= 15) then
    (fun st => st.1.2) <$>
      for_branches (gshare_body history_size) g_traces
        (replicate 2048 STRONG_YES, 0, 0)
  else None.

(** [sim_tournament] (lines 161-213); the state is the three tables,
    [correct] and [ghr]. *)
Definition tournament_state : Type := (list Z * list Z * list Z * Z * Z)%type.

Definition tournament_body (st : tournament_state) (branch : Pair)
    : option tournament_state :=
  let '(gshare, bimodal, selector, correct, ghr) := st in
  let g := wrap32 (Z.lxor (addr branch mod 2048) ghr) in
  let b := wrap32 (addr branch mod 2048) in
  cg ← gshare !! Z.to_nat g;
  cb ← bimodal !! Z.to_nat b;
  let gshare_correct := predicted cg (actual branch) in
  let bimodal_correct := predicted cb (actual branch) in
  let gshare := <[Z.to_nat g := train cg (actual branch)]> gshare in
  let ghr := next_ghr 11 ghr (actual branch) in
  let bimodal := <[Z.to_nat b := train cb (actual branch)]> bimodal in
  sel ← selector !! Z.to_nat b;
  let correct :=
    if (sel <=? WEAK_PREFER_GSHARE) && gshare_correct then wrap32 (correct + 1)
    else if (WEAK_PREFER_BIMODAL <=? sel) && bimodal_correct
         then wrap32 (correct + 1)
         else correct in
  let selector :=
    if negb (Bool.eqb bimodal_correct gshare_correct) then
      if bimodal_correct && (sel <=? WEAK_PREFER_BIMODAL)
      then <[Z.to_nat b := wrap 8 (sel + 1)]> selector
      else if gshare_correct && (WEAK_PREFER_GSHARE <=? sel)
           then <[Z.to_nat b := wrap 8 (sel - 1)]> selector
           else selector
    else selector in
  Some (gshare, bimodal, selector, correct, ghr).

Definition sim_tournament (g_traces : list Pair) : option Z :=
  (fun st => st.1.2) <$>
    for_branches tournament_body g_traces
      (replicate 2048 STRONG_YES, replicate 2048 STRONG_YES,
       replicate 2048 PREFER_GSHARE, 0, 0).

(** [sim_btb] (lines 215-246); the state is [hist], [btb], [correct] and
    [attempted], and the result is [correct] and [attempted]. *)
Definition btb_state : Type := (list bool * list Z * Z * Z)%type.

Definition btb_body (st : btb_state) (branch : Pair) : option btb_state :=
  let '(hist, btb, correct, attempted) := st in
  let index := wrap32 (addr branch mod 512) in
  h ← hist !! Z.to_nat index;
  t ← btb !! Z.to_nat index;
  let '(correct, attempted) :=
    if (h : bool)
    then (if target branch =? t then wrap32 (correct + 1) else correct,
          wrap32 (attempted + 1))
    else (correct, attempted) in
  let hist := <[Z.to_nat index := actual branch]> hist in
  let btb := if actual branch then <[Z.to_nat index := target branch]> btb else btb in
  Some (hist, btb, correct, attempted).

Definition sim_btb (g_traces : list Pair) : option (Z * Z) :=
  (fun st => (st.1.2, st.2)) <$>
    for_branches btb_body g_traces
      (replicate 512 true, replicate 512 0, 0, 0).

End Predictors.


(** * Part II: vocabulary of the statements *)

Definition tr (o : op_t) (a : Z) : Trace := mkTrace o a.

(** *** Recency counters *)

(** [v] has the largest counter among the first [n] slots, and is the
    lowest position that does; [f w] is the counter of slot [w]. *)
Definition is_first_max (f : nat -> Z) (n v : nat) : Prop :=
  (v < n)%nat /\
  (forall w, (w < n)%nat -> f w <= f v) /\
  (forall w, (w < v)%nat -> f w < f v).

(** What an allocation loop knows when it reaches slot [w]: [lru_largest]
    is the largest counter seen so far and [lru_way] the first slot that
    has it. *)
Definition seen (f : nat -> Z) (w lru_way : nat) (lru_largest : Z) : Prop :=
  (forall k, (k < w)%nat -> f k <= lru_largest) /\
  (forall k, (k < lru_way)%nat -> f k < lru_largest) /\
  ((w = 0%nat /\ lru_way = 0%nat /\ lru_largest = 0) \/
   ((lru_way < w)%nat /\ f lru_way = lru_largest)).

(** *** The set-associative engine *)

Module SetAssocSpec.
Import SetAssoc.

(** A set as the engine keeps it: three arrays of 16 entries. *)
Definition wf_set (s : set) : Prop :=
  length (tags s) = 16%nat /\ length (lru s) = 16%nat /\ length (valid s) = 16%nat.

Definition wf_cache (cache : list set) : Prop :=
  length cache = 1024%nat /\ Forall wf_set cache.

(** Every recency counter of the cache lies in [0, B]. *)
Definition lru_bounded (B : Z) (s : set) : Prop :=
  Forall (fun l => 0 <= l <= B) (lru s).

(** The tag is held by one of the first [ways] slots. *)
Definition holds (tag : Z) (ways : nat) (s : set) : bool :=
  existsb (fun w => tags s !!! w =? tag) (seq 0 ways).

(** The counters after a scan for [tag]: each of the first [ways] is aged
    by one, or reset to zero where the slot holds the tag. *)
Definition aged_lru (tag : Z) (ways : nat) (s : set) : list Z :=
  imap (fun w l =>
          if (w <? ways)%nat
          then if tags s !!! w =? tag then 0 else wrap64 (l + 1)
          else l) (lru s).

Definition scanned (tag : Z) (ways : nat) (s : set) : set :=
  set_lru s (aged_lru tag ways s).

(** [v] is the first slot in scan order that is not valid. *)
Definition is_first_invalid (s : set) (ways v : nat) : Prop :=
  (v < ways)%nat /\ valid s !!! v = false /\
  forall w, (w < v)%nat -> valid s !!! w = true.

Definition all_valid (s : set) (ways : nat) : Prop :=
  forall w, (w < ways)%nat -> valid s !!! w = true.

End SetAssocSpec.

(** Configurations the engine can run: between 1 and 16 ways (the arrays
    of a set have 16 entries), and a direct-mapped cache of at most 32 KB
    (the cache has 1024 sets). *)
Definition valid_config (i : ThreadInfo) : Prop :=
  1 <= ways i <= 16 /\ (ways i = 1 -> 0 <= kb i <= 32).


(** *** The exact-LRU fully-associative engine *)

Module FullyAssocSpec.
Import FullyAssoc.

(** The tag is held by one of the first [n] blocks. *)
Definition holds (tg : Z) (n : nat) (cache : list block) : bool :=
  existsb (fun b => tag (cache !!! b) =? tg) (seq 0 n).

(** The cache after the search for [tg] over the first [n] blocks: every
    counter is aged by one, except that the first block holding the tag is
    reset to zero. *)
Definition searched (tg : Z) (n : nat) (cache : list block) : list block :=
  imap (fun b blk =>
          if (b <? n)%nat
          then if (tag blk =? tg) && negb (holds tg b cache)
               then set_lru blk 0
               else set_lru blk (wrap64 (lru blk + 1))
          else blk) cache.

(** The engine has no valid flag: a block counts as empty when its tag is
    zero (line 199).  [v] is the first such block in scan order. *)
Definition is_first_empty (cache : list block) (n v : nat) : Prop :=
  (v < n)%nat /\ tag (cache !!! v) = 0 /\
  forall w, (w < v)%nat -> tag (cache !!! w) <> 0.

Definition none_empty (cache : list block) (n : nat) : Prop :=
  forall w, (w < n)%nat -> tag (cache !!! w) <> 0.

(** Every recency counter lies in [0, B]. *)
Definition lru_bounded (B : Z) (cache : list block) : Prop :=
  Forall (fun blk => 0 <= lru blk <= B) cache.

End FullyAssocSpec.


(** *** The pseudo-LRU tree *)

Module PseudoLRUSpec.

(** The tree is stored as a heap: node [n] has the children [2n+1] (left)
    and [2n+2] (right); nodes 0..510 are inner nodes, 511..1022 leaves. *)
Definition parent (b : nat) : nat := ((b - 1) / 2)%nat.
Definition left (n : nat) : nat := (2 * n + 1)%nat.
Definition right (n : nat) : nat := (2 * n + 2)%nat.
Definition is_leaf (b : nat) : Prop := (511 <= b <= 1022)%nat.

(** The child that a node holding [bit] marks as stale: the one the victim
    search moves to. *)
Definition stale_child (n : nat) (bit : Z) : nat :=
  if bit =? 0 then right n else left n.

(** The bit that marks child [b] of its parent as fresh, the stale side
    being the sibling of [b]. *)
Definition away_from (b : nat) : Z := if (b mod 2 =? 0)%nat then 1 else 0.

Definition flip (bit : Z) : Z := if bit =? 0 then 1 else 0.

(** The nodes from [b] up to, and without, the root. *)
Fixpoint path_up (fuel : nat) (b : nat) : list nat :=
  match fuel with
  | O => []
  | S fuel' => if (b =? 0)%nat then [] else b :: path_up fuel' (parent b)
  end.

(** The inner nodes met from [n] down, following the stale side in the
    tree [c], and the leaf the walk ends in. *)
Fixpoint stale_path (fuel : nat) (n : nat) (c : list Z) : list nat :=
  match fuel with
  | O => []
  | S fuel' =>
      if (n <? 511)%nat
      then n :: stale_path fuel' (stale_child n (c !!! n)) c
      else []
  end.

Fixpoint stale_leaf (fuel : nat) (n : nat) (c : list Z) : nat :=
  match fuel with
  | O => n
  | S fuel' =>
      if (n <? 511)%nat
      then stale_leaf fuel' (stale_child n (c !!! n)) c
      else n
  end.

End PseudoLRUSpec.


(** *** Accesses and prefetches of the set-associative engine *)

Module PolicySpec.
Import SetAssoc.

(** One access by the scan-and-allocate algorithm: the address is
    decomposed and its own set is searched, with allocation on a miss
    unless [no_modify] is set. *)
Definition access (i : ThreadInfo) (cache : list set) (a : Z) (no_modify : bool)
    : option (list set * bool) :=
  let '(set_ix, tag) := decompose i a in
  do_at cache set_ix tag (Z.to_nat (ways i)) no_modify.

(** Whether a prefetch follows a real access that had the outcome [hit]. *)
Definition prefetch_issued (o : option_t) (hit : bool) : bool :=
  match o with
  | OPTION_PREFETCH_ALWAYS => true
  | OPTION_PREFETCH_ON_MISS => negb hit
  | _ => false
  end.

(** Whether the write policy keeps a miss of this record from allocating. *)
Definition store_no_allocate (o : option_t) (t : Trace) : bool :=
  match o, op t with
  | OPTION_WRITE_ON_MISS, STORE => true
  | _, _ => false
  end.

End PolicySpec.


(** *** The worked scenario: 16 KB direct-mapped *)

Definition worked_config : ThreadInfo := mkThreadInfo 0 0 16 1 OPTION_NONE.

Definition worked_trace : list Trace :=
  [tr LOAD 0; tr LOAD 0; tr LOAD 32; tr LOAD 0].


(** *** The address decomposition as the specification words it *)

Module DecomposerSpec.

(** numSets = totalSizeBytes / (lineSizeBytes x ways), with 32-byte lines. *)
Definition spec_numSets (totalSizeKB ways : Z) : Z :=
  (totalSizeKB * 1024) / (32 * ways).

(** index = (address >> 5) & (numSets - 1);
    tag = address >> (5 + log2 numSets). *)
Definition spec_decompose (address numSets : Z) : Z * Z :=
  (Z.land (Z.shiftr address 5) (numSets - 1),
   Z.shiftr address (5 + Z.log2 numSets)).

End DecomposerSpec.


(** *** Sample states *)

(** A 2-way cache after [Load 0x2000]: set 0 holds tag 1 in way 0. *)
Definition two_way_config : ThreadInfo := mkThreadInfo 0 0 16 2 OPTION_NONE.

Definition set_after_one_load : SetAssoc.set :=
  SetAssoc.mkSet (<[0%nat := 1]> (replicate 16 0))
                 (<[1%nat := 1]> (replicate 16 0))
                 (<[0%nat := true]> (replicate 16 false)).

Definition cache_after_one_load : list SetAssoc.set :=
  <[0%nat := set_after_one_load]> SetAssoc.empty_cache.


(** The fully-associative cache after [Load 0x20]: block 0 holds tag 1 and
    every counter but its own has aged by one. *)
Definition blocks_after_one_load : list FullyAssoc.block :=
  <[0%nat := FullyAssoc.mkBlock 1 0]> (replicate 512 (FullyAssoc.mkBlock 0 1)).


(** *** Direct-mapped caches of two sizes *)

Module DirectMappedSpec.
Import SetAssoc.

(** The tag kept by set [n] of a direct-mapped cache (way 0). *)
Definition tag0 (cache : list set) (n : nat) : option Z :=
  s ← cache !! n; Some (tags s !!! 0%nat).

(** The line of address [a] is present. *)
Definition present (i : ThreadInfo) (cache : list set) (a : Z) : Prop :=
  tag0 cache (Z.to_nat (decompose i a).1) = Some (decompose i a).2.


End DirectMappedSpec.


(** *** Invariants of a set *)

Module SetAssocInv.
Import SetAssoc.

(** What a run keeps true of a set used with [ways] ways: a way that is
    not valid holds tag 0; two of the first [ways] ways hold the same tag
    only when neither is valid; the ways from [ways] on are as they were
    zero-initialised. *)
Definition tags_consistent (ways : nat) (s : set) : Prop :=
  (forall w, (w < 16)%nat -> valid s !!! w = false -> tags s !!! w = 0) /\
  (forall w1 w2, (w1 < ways)%nat -> (w2 < ways)%nat -> w1 <> w2 ->
     tags s !!! w1 = tags s !!! w2 ->
     valid s !!! w1 = false /\ valid s !!! w2 = false) /\
  (forall w, (ways <= w < 16)%nat ->
     tags s !!! w = 0 /\ lru s !!! w = 0 /\ valid s !!! w = false).

(** What the direct-mapped branch keeps true of a set: only the tag of
    way 0 ever changes. *)
Definition only_tag0_used (s : set) : Prop :=
  lru s = replicate 16 0 /\ valid s = replicate 16 false /\
  tags s = <[0%nat := tags s !!! 0%nat]> (replicate 16 0).

(** Way [w] holds [tag], is valid and was used last: its counter is 0 and
    the counters of the other ways in use are at least 1. *)
Definition most_recent (ways : nat) (s : set) (w : nat) (tag : Z) : Prop :=
  (w < ways)%nat /\ tags s !!! w = tag /\ valid s !!! w = true /\
  lru s !!! w = 0 /\
  forall k, (k < ways)%nat -> k <> w -> 1 <= lru s !!! k.

End SetAssocInv.


(** *** Invariants of the pseudo-LRU tree *)

Module PseudoLRUInv.
Import PseudoLRUSpec.

(** Node [n] is [r] or lies below it. *)
Inductive under (r : nat) : nat -> Prop :=
| under_self : under r r
| under_left n : under r n -> under r (left n)
| under_right n : under r n -> under r (right n).

(** The array keeps its length, the entries of the inner nodes are bits
    and the entry after the last leaf is never used. *)
Definition tree_shaped (c : list Z) : Prop :=
  length c = 1024%nat /\
  (forall k, (k < 511)%nat -> c !!! k = 0 \/ c !!! k = 1) /\
  c !!! 1023%nat = 0.

(** No two leaves hold the same tag, zero (the initial content) apart. *)
Definition leaves_distinct (c : list Z) : Prop :=
  forall b1 b2, is_leaf b1 -> is_leaf b2 ->
    c !!! b1 = c !!! b2 -> c !!! b1 <> 0 -> b1 = b2.

End PseudoLRUInv.


(** *** Invariants of the exact-LRU blocks *)

Module FullyAssocInv.
Import FullyAssoc.

(** No two blocks hold the same tag, zero (an empty block) apart. *)
Definition tags_distinct (cache : list block) : Prop :=
  forall k1 k2, (k1 < 512)%nat -> (k2 < 512)%nat ->
    tag (cache !!! k1) = tag (cache !!! k2) -> tag (cache !!! k1) <> 0 -> k1 = k2.

End FullyAssocInv.



(** *** Valid flags beside the exact-LRU run *)

Module FullyAssocValid.
Import FullyAssoc.

(** The specification gives every slot a valid flag, set when a line is
    installed in it.  The engine keeps none.  Here the flags are kept
    beside the run: a record that misses installs its line in the one
    block whose tag it changes (the tag was in no block before), and that
    block is valid from then on. *)
Definition track (st : list block * Z * list bool) (t : Trace)
    : list block * Z * list bool :=
  let '(cache, h, valid) := st in
  let '(cache', h') := body (cache, h) t in
  (cache', h',
   imap (fun k v => v || negb (tag (cache !!! k) =? tag (cache' !!! k))) valid).

(** Loads of the lines 1 to [n], in order. *)
Definition fill_trace (n : nat) : list Trace :=
  map (fun k => tr LOAD (32 * (Z.of_nat k + 1))) (seq 0 n).

(** The state after the first [j] loads of [fill_trace]: no hit so far,
    block [k < j] holds line [k + 1] and is valid, the blocks from [j] on
    are as they were at the start, but for their age. *)
Definition filled (j : nat) (st : list block * Z * list bool) : Prop :=
  let '(cache, h, valid) := st in
  length cache = 512%nat /\ length valid = 512%nat /\ h = 0 /\
  forall k, (k < 512)%nat ->
    cache !!! k = (if (k <? j)%nat
                   then mkBlock (Z.of_nat k + 1) (Z.of_nat j - 1 - Z.of_nat k)
                   else mkBlock 0 (Z.of_nat j)) /\
    valid !!! k = (k <? j)%nat.

End FullyAssocValid.



(** * Part III: properties of the program *)

(** ** Sample runs *)

(** Two ways, three lines A, B, C of set 0 replayed as A B A C B: the
    second A hits, C replaces B (the least recently used) and B misses. *)
Example two_way_lru_run :
  SetAssoc.sim_set_associative two_way_config
    [tr LOAD 8192; tr LOAD 16384; tr LOAD 8192; tr LOAD 24576; tr LOAD 16384]
  = Some (mkThreadInfo 1 5 16 2 OPTION_NONE).
Proof. vm_compute. reflexivity. Qed.

(** Two sequential lines: the second hits only when the first access
    prefetched it. *)
Example sequential_lines_run :
  SetAssoc.sim_set_associative (mkThreadInfo 0 0 16 2 OPTION_PREFETCH_ALWAYS)
    [tr LOAD 8192; tr LOAD 8224]
  = Some (mkThreadInfo 1 2 16 2 OPTION_PREFETCH_ALWAYS) /\
  SetAssoc.sim_set_associative (mkThreadInfo 0 0 16 2 OPTION_NONE)
    [tr LOAD 8192; tr LOAD 8224]
  = Some (mkThreadInfo 0 2 16 2 OPTION_NONE).
Proof. split; vm_compute; reflexivity. Qed.

(** Lines 1, 0, 1, 2, 2 in the fully-associative engines: line 0 hits on
    the zeroed cache, lines 1 and 2 hit when they come again. *)
Example fully_associative_run :
  FullyAssoc.sim_fully_associative (mkThreadInfo 0 0 0 0 OPTION_NONE)
    [tr LOAD 32; tr LOAD 0; tr LOAD 32; tr LOAD 64; tr LOAD 64]
  = mkThreadInfo 3 5 0 0 OPTION_NONE.
Proof. vm_compute. reflexivity. Qed.

Example pseudo_lru_run :
  PseudoLRU.sim_fully_associative_pseudo (mkThreadInfo 0 0 0 0 OPTION_NONE)
    [tr LOAD 32; tr LOAD 0; tr LOAD 32; tr LOAD 64; tr LOAD 64]
  = mkThreadInfo 3 5 0 0 OPTION_NONE.
Proof. vm_compute. reflexivity. Qed.

(** The first victim of the empty tree is the rightmost leaf; the second
    one is in the left half. *)
Example pseudo_lru_first_victims :
  (PseudoLRU.descend 511 0 PseudoLRU.empty_cache).2 = 1022%nat /\
  (PseudoLRU.descend 511 0 (PseudoLRU.descend 511 0 PseudoLRU.empty_cache).1).2
    = 766%nat.
Proof. split; vm_compute; reflexivity. Qed.

(** ** Machine arithmetic *)

Lemma wrap_range w x : 0 <= w -> 0 <= wrap w x < 2 ^ w.
Proof. intros Hw. unfold wrap. apply Z.mod_pos_bound. apply Z.pow_pos_nonneg; lia. Qed.

Lemma wrap_small w x : 0 <= x < 2 ^ w -> wrap w x = x.
Proof. intros H. unfold wrap. apply Z.mod_small. exact H. Qed.

Lemma wrap32_range x : 0 <= wrap32 x < 2 ^ 32.
Proof. apply wrap_range. lia. Qed.

Lemma wrap32_small x : 0 <= x < 2 ^ 32 -> wrap32 x = x.
Proof. apply wrap_small. Qed.

Lemma wrap64_small x : 0 <= x < 2 ^ 64 -> wrap64 x = x.
Proof. apply wrap_small. Qed.

Lemma wrap64_range x : 0 <= wrap64 x < 2 ^ 64.
Proof. apply wrap_range. lia. Qed.

(** Incrementing a 32-bit counter never yields more than the integer
    successor. *)
Lemma wrap32_succ_le h : 0 <= h -> 0 <= wrap32 (h + 1) <= h + 1.
Proof.
  intros Hh. split; [apply wrap32_range|].
  unfold wrap32, wrap. apply Z.mod_le; lia.
Qed.

Lemma wrap64_succ_le h : 0 <= h -> 0 <= wrap64 (h + 1) <= h + 1.
Proof.
  intros Hh. split; [apply wrap64_range|].
  unfold wrap64, wrap. apply Z.mod_le; lia.
Qed.

(** ** [mylog2] is the integer logarithm, [bitmask] the mask below it *)

Lemma mylog2_loop_spec fuel : forall n exp,
  0 <= n < 2 ^ Z.of_nat fuel -> 0 <= exp -> exp + Z.of_nat fuel < 2 ^ 32 ->
  mylog2_loop fuel n exp = exp + Z.log2 n.
Proof.
  induction fuel as [|fuel IH]; intros n exp Hn Hexp Hb.
  - simpl in *. assert (n = 0) by lia. subst n. simpl. lia.
  - cbn [mylog2_loop]. rewrite Z.shiftr_div_pow2 by lia.
    change (2 ^ 1) with 2.
    destruct (Z.eqb_spec (n / 2) 0) as [E|E].
    + assert (n = 0 \/ n = 1) as [-> | ->] by (pose proof (Z.div_mod n 2); pose proof (Z.mod_pos_bound n 2); lia);
        simpl; lia.
    + assert (2 <= n) by (destruct (Z_lt_le_dec n 2) as [Hlt|]; [|lia];
                          rewrite Z.div_small in E by lia; lia).
      assert (Hlog : Z.log2 (n / 2) = Z.log2 n - 1).
      { assert (1 <= Z.log2 n) by (apply Z.log2_le_pow2; lia).
        change (n / 2) with (n / 2 ^ 1). rewrite <- Z.shiftr_div_pow2 by lia.
        rewrite Z.log2_shiftr by lia. lia. }
      rewrite wrap32_small by lia.
      rewrite IH, Hlog; [lia| |lia|lia].
      split; [apply Z.div_pos; lia|].
      apply Z.div_lt_upper_bound; [lia|].
      rewrite <- Z.pow_succ_r by lia. rewrite <- Nat2Z.inj_succ. lia.
Qed.

Lemma mylog2_spec n : 0 <= n < 2 ^ 32 -> mylog2 n = Z.log2 n.
Proof.
  intros Hn. unfold mylog2.
  rewrite mylog2_loop_spec by (simpl; lia).
  assert (Z.log2 n < 32) by (destruct (Z.eq_dec n 0) as [->|]; [simpl; lia|];
                             apply Z.log2_lt_pow2; lia).
  pose proof (Z.log2_nonneg n).
  apply wrap_small. simpl. lia.
Qed.

Lemma bitmask_spec range :
  0 <= range < 2 ^ 32 -> bitmask range = Z.ones (Z.log2 range).
Proof.
  intros Hn. unfold bitmask. rewrite mylog2_spec by lia.
  assert (H : 0 <= Z.log2 range < 32).
  { split; [apply Z.log2_nonneg|].
    destruct (Z.eq_dec range 0) as [->|]; [simpl; lia|].
    apply Z.log2_lt_pow2; lia. }
  set (k := Z.log2 range) in *. clearbody k.
  assert (Hk : exists m : nat, k = Z.of_nat m /\ (m < 32)%nat)
    by (exists (Z.to_nat k); lia).
  destruct Hk as (m & -> & Hm).
  do 32 (destruct m as [|m]; [vm_compute; reflexivity|]). lia.
Qed.

(** ** The scan and the allocation of the set-associative engine *)

Section SetAssocScan.
Import SetAssoc SetAssocSpec.

Lemma aged_lru_0 tag s : aged_lru tag 0 s = lru s.
Proof.
  unfold aged_lru. apply list_eq. intros i.
  rewrite list_lookup_imap. destruct (lru s !! i); reflexivity.
Qed.

Lemma aged_lru_S tag n s :
  aged_lru tag (S n) s =
  <[n := if tags s !!! n =? tag then 0 else wrap64 (lru s !!! n + 1)]>
    (aged_lru tag n s).
Proof.
  unfold aged_lru. apply list_eq. intros i.
  rewrite list_lookup_insert, length_imap, !list_lookup_imap.
  case_decide as Hd.
  - destruct Hd as [-> Hlt].
    rewrite (list_lookup_lookup_total_lt (lru s) i) by exact Hlt. simpl.
    rewrite (proj2 (Nat.ltb_lt i (S i))) by lia. reflexivity.
  - destruct (lru s !! i) as [l|] eqn:El; [|reflexivity]. simpl.
    assert (i <> n).
    { intros ->. apply Hd. split; [reflexivity|]. eapply lookup_lt_Some, El. }
    destruct (Nat.ltb_spec i (S n)), (Nat.ltb_spec i n); try lia; reflexivity.
Qed.

Lemma aged_lru_ge tag n s w :
  (n <= w)%nat -> aged_lru tag n s !!! w = lru s !!! w.
Proof.
  intros Hw. unfold aged_lru. rewrite !list_lookup_total_alt, list_lookup_imap.
  destruct (lru s !! w); [|reflexivity]. simpl.
  rewrite (proj2 (Nat.ltb_ge w n)) by lia. reflexivity.
Qed.

(** The scan loop in closed form. *)
Lemma do_scan tag n s :
  fold_left (do_round tag) (seq 0 n) (s, false) = (scanned tag n s, holds tag n s).
Proof.
  induction n as [|n IH].
  - simpl. unfold scanned, set_lru, holds. rewrite aged_lru_0. destruct s; reflexivity.
  - rewrite seq_S, fold_left_app, IH. simpl.
    unfold holds. rewrite seq_S, existsb_app. simpl. rewrite orb_false_r.
    fold (holds tag n s).
    unfold scanned, set_lru. simpl.
    rewrite aged_lru_ge by lia. rewrite aged_lru_S.
    destruct (tags s !!! n =? tag).
    + rewrite list_insert_insert_eq, orb_true_r. reflexivity.
    + rewrite orb_false_r. reflexivity.
Qed.

End SetAssocScan.

(** ** Tracking the largest counter *)

Lemma seen_start f : seen f 0 0%nat 0.
Proof. repeat split; try (intros k Hk; lia). left. auto. Qed.

Lemma seen_step f w lru_way lru_largest :
  0 <= f w < 2 ^ 32 ->
  seen f w lru_way lru_largest ->
  seen f (S w)
    (if lru_largest <? f w then w else lru_way)
    (if lru_largest <? f w then wrap32 (f w) else lru_largest).
Proof.
  intros Hbw (Hle & Hlt & Hcase).
  destruct (Z.ltb_spec lru_largest (f w)) as [Hlo|Hhi].
  - rewrite wrap32_small by lia. repeat split.
    + intros k Hk. destruct (decide (k = w)) as [->|]; [lia|].
      specialize (Hle k ltac:(lia)). lia.
    + intros k Hk. specialize (Hle k Hk). lia.
    + right. split; [lia|reflexivity].
  - repeat split.
    + intros k Hk. destruct (decide (k = w)) as [->|]; [lia|].
      apply Hle. lia.
    + exact Hlt.
    + right. destruct Hcase as [(-> & -> & ->) | (Hlw & Heq)].
      * split; [lia|]. lia.
      * split; [lia|exact Heq].
Qed.

Lemma seen_first_max f n lru_way lru_largest :
  (1 <= n)%nat -> seen f n lru_way lru_largest -> is_first_max f n lru_way.
Proof.
  intros Hn (Hle & Hlt & Hcase).
  destruct Hcase as [(-> & _) | (Hlw & Heq)]; [lia|].
  repeat split; [exact Hlw| |].
  - intros k Hk. rewrite Heq. auto.
  - intros k Hk. rewrite Heq. auto.
Qed.

(** The first maximum is unique. *)
Lemma is_first_max_unique f n v v' :
  is_first_max f n v -> is_first_max f n v' -> v = v'.
Proof.
  intros (Hv & Hmax & Hfirst) (Hv' & Hmax' & Hfirst').
  destruct (lt_eq_lt_dec v v') as [[Hlt|Heq]|Hgt]; [|exact Heq|].
  - specialize (Hfirst' v Hlt). specialize (Hmax v' Hv'). lia.
  - specialize (Hfirst v' Hgt). specialize (Hmax' v Hv). lia.
Qed.

Section SetAssocInsert.
Import SetAssoc SetAssocSpec.

Lemma insert_tag_loop_spec s tag : forall n w lru_way lru_largest,
  (1 <= w + n)%nat ->
  (forall k, (k < w + n)%nat -> 0 <= lru s !!! k < 2 ^ 32) ->
  (forall k, (k < w)%nat -> valid s !!! k = true) ->
  seen (fun k => lru s !!! k) w lru_way lru_largest ->
  exists v,
    insert_tag_loop n w s tag lru_way lru_largest = place s v tag /\
    (is_first_invalid s (w + n) v \/
     (all_valid s (w + n) /\ is_first_max (fun k => lru s !!! k) (w + n) v)).
Proof.
  induction n as [|n IH]; intros w lw ll Hpos Hb Hval Hseen.
  - rewrite Nat.add_0_r in *. exists lw. split; [reflexivity|]. right.
    split; [exact Hval|]. eapply seen_first_max; eassumption.
  - cbn [insert_tag_loop].
    pose proof (seen_step _ w lw ll (Hb w ltac:(lia)) Hseen) as Hseen'.
    cbn beta in Hseen'.
    destruct (ll <? lru s !!! w) eqn:Ecmp; cbn beta iota;
      (destruct (valid s !!! w) eqn:Ev; cbn [negb];
       [ replace (w + S n)%nat with (S w + n)%nat by lia;
         apply IH;
         [ lia
         | intros k Hk; apply Hb; lia
         | intros k Hk; destruct (decide (k = w)) as [->|]; [exact Ev|apply Hval; lia]
         | exact Hseen' ]
       | exists w; split; [reflexivity|]; left;
         repeat split; [lia|exact Ev|exact Hval] ]).
Qed.

(** [sim_set_associative_insert_tag]: the first invalid way if there is
    one, else the first way with the largest counter. *)
Lemma insert_tag_spec s tag ways :
  (1 <= ways)%nat ->
  (forall k, (k < ways)%nat -> 0 <= lru s !!! k < 2 ^ 32) ->
  exists v,
    sim_set_associative_insert_tag s tag ways = place s v tag /\
    (is_first_invalid s ways v \/
     (all_valid s ways /\ is_first_max (fun k => lru s !!! k) ways v)).
Proof.
  intros Hw Hb. unfold sim_set_associative_insert_tag.
  destruct (insert_tag_loop_spec s tag ways 0 0%nat 0) as (v & Hv & Hcase).
  - lia.
  - exact Hb.
  - intros k Hk. lia.
  - apply seen_start.
  - exists v. split; [exact Hv|exact Hcase].
Qed.

End SetAssocInsert.

(** ** Invariants of the set-associative run *)

Section SetAssocInvariants.
Import SetAssoc SetAssocSpec.

Lemma insert_tag_loop_place s tag : forall n w lru_way lru_largest,
  exists v, insert_tag_loop n w s tag lru_way lru_largest = place s v tag.
Proof.
  induction n as [|n IH]; intros w lw ll; cbn [insert_tag_loop].
  - eauto.
  - destruct (ll <? lru s !!! w); cbn beta iota;
      (destruct (negb (valid s !!! w)); [eauto|apply IH]).
Qed.

Lemma place_wf s v tag : wf_set s -> wf_set (place s v tag).
Proof.
  intros (Ht & Hl & Hv). unfold wf_set, place. simpl.
  rewrite !length_insert. auto.
Qed.

Lemma place_bounded B s v tag :
  0 <= B -> lru_bounded B s -> lru_bounded B (place s v tag).
Proof.
  intros HB Hs. unfold lru_bounded, place in *. simpl.
  apply Forall_insert; [exact Hs|lia].
Qed.

Lemma scanned_wf tag n s : wf_set s -> wf_set (scanned tag n s).
Proof.
  intros (Ht & Hl & Hv). unfold wf_set, scanned, set_lru, aged_lru. simpl.
  rewrite length_imap. auto.
Qed.

Lemma scanned_bounded B tag n s :
  0 <= B -> lru_bounded B s -> lru_bounded (B + 1) (scanned tag n s).
Proof.
  intros HB Hs. unfold lru_bounded, scanned, set_lru, aged_lru in *. simpl.
  rewrite Forall_lookup in Hs. apply Forall_lookup. intros k x Hx.
  rewrite list_lookup_imap in Hx.
  destruct (lru s !! k) as [l|] eqn:El; [|discriminate].
  simpl in Hx. injection Hx as <-. specialize (Hs k l El).
  destruct (k <? n)%nat; [|lia].
  destruct (tags s !!! k =? tag); [lia|].
  pose proof (wrap64_succ_le l). lia.
Qed.

Lemma do_wf s tag ways no_modify :
  wf_set s -> wf_set (sim_set_associative_do s tag ways no_modify).1.
Proof.
  intros Hs. unfold sim_set_associative_do. rewrite do_scan.
  destruct (negb (holds tag ways s) && negb no_modify); simpl.
  - unfold sim_set_associative_insert_tag.
    destruct (insert_tag_loop_place (scanned tag ways s) tag ways 0 0%nat 0) as (v & ->).
    apply place_wf, scanned_wf, Hs.
  - apply scanned_wf, Hs.
Qed.

Lemma do_bounded B s tag ways no_modify :
  0 <= B -> lru_bounded B s ->
  lru_bounded (B + 1) (sim_set_associative_do s tag ways no_modify).1.
Proof.
  intros HB Hs. unfold sim_set_associative_do. rewrite do_scan.
  destruct (negb (holds tag ways s) && negb no_modify); simpl.
  - unfold sim_set_associative_insert_tag.
    destruct (insert_tag_loop_place (scanned tag ways s) tag ways 0 0%nat 0) as (v & ->).
    apply place_bounded; [lia|]. apply scanned_bounded; assumption.
  - apply scanned_bounded; assumption.
Qed.

Lemma lru_bounded_mono B B' s : B <= B' -> lru_bounded B s -> lru_bounded B' s.
Proof.
  intros HB. unfold lru_bounded. apply Forall_impl. intros l Hl. lia.
Qed.

Lemma do_at_some cache set_ix tag ways no_modify :
  wf_cache cache -> 0 <= set_ix < 1024 ->
  exists s,
    cache !! Z.to_nat set_ix = Some s /\
    do_at cache set_ix tag ways no_modify =
      Some (<[Z.to_nat set_ix := (sim_set_associative_do s tag ways no_modify).1]> cache,
            (sim_set_associative_do s tag ways no_modify).2) /\
    wf_cache (<[Z.to_nat set_ix := (sim_set_associative_do s tag ways no_modify).1]> cache).
Proof.
  intros (Hlen & Hwf) Hix.
  destruct (lookup_lt_is_Some_2 cache (Z.to_nat set_ix)) as [s Hs]; [lia|].
  exists s. split; [exact Hs|]. unfold do_at. rewrite Hs. simpl.
  pose proof (do_wf s tag ways no_modify) as Hwf'.
  destruct (sim_set_associative_do s tag ways no_modify) as [s' hit].
  split; [reflexivity|]. simpl in *.
  split; [rewrite length_insert; exact Hlen|].
  apply Forall_insert; [exact Hwf|]. apply Hwf'.
  rewrite Forall_lookup in Hwf. eapply Hwf, Hs.
Qed.

Lemma do_at_step cache set_ix tag ways no_modify B :
  wf_cache cache -> 0 <= set_ix < 1024 -> 0 <= B ->
  Forall (lru_bounded B) cache ->
  exists s,
    cache !! Z.to_nat set_ix = Some s /\
    do_at cache set_ix tag ways no_modify =
      Some (<[Z.to_nat set_ix := (sim_set_associative_do s tag ways no_modify).1]> cache,
            (sim_set_associative_do s tag ways no_modify).2) /\
    wf_cache (<[Z.to_nat set_ix := (sim_set_associative_do s tag ways no_modify).1]> cache) /\
    Forall (lru_bounded (B + 1))
      (<[Z.to_nat set_ix := (sim_set_associative_do s tag ways no_modify).1]> cache).
Proof.
  intros (Hlen & Hwf) Hix HB Hb.
  destruct (lookup_lt_is_Some_2 cache (Z.to_nat set_ix)) as [s Hs]; [lia|].
  exists s. split; [exact Hs|]. unfold do_at. rewrite Hs. simpl.
  destruct (sim_set_associative_do s tag ways no_modify) as [s' hit] eqn:E.
  pose proof (do_wf s tag ways no_modify) as Hwf'.
  pose proof (do_bounded B s tag ways no_modify HB) as Hb'.
  rewrite E in Hwf', Hb'. simpl in *.
  split; [reflexivity|]. split.
  - split; [rewrite length_insert; exact Hlen|].
    apply Forall_insert; [exact Hwf|]. apply Hwf'.
    rewrite Forall_lookup in Hwf. eapply Hwf, Hs.
  - apply Forall_insert.
    + eapply Forall_impl; [|exact Hb]. intros x. apply lru_bounded_mono. lia.
    + apply Hb'. rewrite Forall_lookup in Hb. eapply Hb, Hs.
Qed.

End SetAssocInvariants.

Section SetAssocRun.
Import SetAssoc SetAssocSpec.

(** The index mask selects at most ten bits, so that every set index is
    below 1024, the number of sets of [cache]. *)
Lemma mask_ones i :
  valid_config i -> exists k, 0 <= k <= 10 /\ mask i = Z.ones k.
Proof.
  intros ((Hlo & Hhi) & Hkb). unfold mask.
  destruct (Z.eqb_spec (ways i) 1) as [E|E].
  - specialize (Hkb E).
    rewrite wrap32_small by lia.
    replace (kb i * 1024) with (kb i * 32 * 32) by lia.
    rewrite Z.div_mul by lia.
    rewrite bitmask_spec by lia.
    exists (Z.log2 (kb i * 32)). split; [|reflexivity].
    split; [apply Z.log2_nonneg|].
    change 10 with (Z.log2 1024). apply Z.log2_le_mono. lia.
  - unfold sets.
    assert (Hw : exists n : nat, ways i = Z.of_nat n /\ (2 <= n <= 16)%nat)
      by (exists (Z.to_nat (ways i)); lia).
    destruct Hw as (n & -> & Hn).
    do 2 (destruct n as [|n]; [lia|]).
    do 15 (destruct n as [|n];
           [rewrite bitmask_spec by (vm_compute; split; congruence);
            eexists; split; [|reflexivity];
            vm_compute; split; congruence|]).
    lia.
Qed.

Lemma set_index_range i a :
  valid_config i -> 0 <= Z.land a (mask i) < 1024.
Proof.
  intros Hc. destruct (mask_ones i Hc) as (k & Hk & ->).
  rewrite Z.land_ones by lia.
  pose proof (Z.mod_pos_bound a (2 ^ k) ltac:(apply Z.pow_pos_nonneg; lia)).
  assert (2 ^ k <= 2 ^ 10) by (apply Z.pow_le_mono_r; lia).
  lia.
Qed.

Lemma decompose_index_range i a :
  valid_config i -> 0 <= (decompose i a).1 < 1024.
Proof.
  intros Hc. unfold decompose.
  destruct (ways i =? 1); simpl; apply set_index_range, Hc.
Qed.

Lemma wrap32_b2z_le h (b : bool) : 0 <= h -> 0 <= wrap32 (h + Z.b2z b) <= h + 1.
Proof.
  intros Hh. split; [apply wrap32_range|].
  destruct b; simpl.
  - apply wrap32_succ_le, Hh.
  - rewrite Z.add_0_r. unfold wrap32, wrap.
    pose proof (Z.mod_le h (2 ^ 32)). lia.
Qed.

(** One record of the trace: the body is defined, keeps the cache well
    formed, ages the counters by at most two and counts at most one hit. *)
Lemma body_step i cache h t B :
  valid_config i -> wf_cache cache -> 0 <= B ->
  Forall (lru_bounded B) cache ->
  exists cache' h',
    body i (cache, h) t = Some (cache', h') /\
    wf_cache cache' /\
    Forall (lru_bounded (B + 2)) cache' /\
    (0 <= h -> 0 <= h' <= h + 1).
Proof.
  intros Hc Hwf HB Hb. unfold body.
  pose proof (decompose_index_range i (addr t) Hc) as Hix.
  destruct (decompose i (addr t)) as [set_ix tag]. simpl in Hix.
  destruct (ways i =? 1).
  - destruct Hwf as (Hlen & Hwf).
    destruct (lookup_lt_is_Some_2 cache (Z.to_nat set_ix)) as [s Hs]; [lia|].
    rewrite Hs. simpl.
    assert (Hb2 : Forall (lru_bounded (B + 2)) cache).
    { eapply Forall_impl; [|exact Hb]. intros x. apply lru_bounded_mono. lia. }
    destruct (tags s !!! 0%nat =? tag).
    + do 2 eexists. split; [reflexivity|]. repeat split; auto;
        intros; apply wrap32_succ_le; assumption.
    + do 2 eexists. split; [reflexivity|]. split; [|split; [|lia]].
      * split; [rewrite length_insert; exact Hlen|].
        apply Forall_insert; [exact Hwf|].
        rewrite Forall_lookup in Hwf. destruct (Hwf _ _ Hs) as (Ht & Hl & Hv).
        unfold wf_set, set_tags. simpl. rewrite length_insert. auto.
      * apply Forall_insert; [exact Hb2|].
        rewrite Forall_lookup in Hb2. apply (Hb2 _ _ Hs).
  - destruct (do_at_step cache set_ix tag (Z.to_nat (ways i))
                (option_eqb (options i) OPTION_WRITE_ON_MISS && op_eqb (op t) STORE)
                B Hwf Hix HB Hb) as (s & Hs & -> & Hwf1 & Hb1).
    simpl.
    set (r := sim_set_associative_do s tag _ _) in *.
    destruct (option_eqb (options i) OPTION_PREFETCH_ALWAYS
              || option_eqb (options i) OPTION_PREFETCH_ON_MISS && negb r.2).
    + edestruct (do_at_step (<[Z.to_nat set_ix := r.1]> cache)
                   (Z.land (Z.shiftr (wrap64 (addr t + 32)) block_id_offset) (mask i)))
        as (s2 & Hs2 & -> & Hwf2 & Hb2);
        [exact Hwf1|apply set_index_range, Hc| |exact Hb1|]; [lia|].
      simpl. do 2 eexists. split; [reflexivity|].
      split; [exact Hwf2|]. split.
      * replace (B + 2) with (B + 1 + 1) by lia. exact Hb2.
      * apply wrap32_b2z_le.
    + do 2 eexists. split; [reflexivity|].
      split; [exact Hwf1|]. split.
      * eapply Forall_impl; [|exact Hb1]. intros x. apply lru_bounded_mono. lia.
      * apply wrap32_b2z_le.
Qed.

Lemma empty_cache_wf : wf_cache empty_cache.
Proof.
  split; [reflexivity|]. apply Forall_replicate. repeat split.
Qed.

Lemma empty_cache_bounded : Forall (lru_bounded 0) empty_cache.
Proof.
  apply Forall_replicate. unfold lru_bounded, empty_set.
  cbn [lru]. apply Forall_replicate. lia.
Qed.

(** Any run from a well-formed cache is defined; the counters grow by at
    most two per record and the hit counter by at most one. *)
Lemma run_invariant i : valid_config i -> forall g_traces cache h B,
  wf_cache cache -> 0 <= B -> Forall (lru_bounded B) cache ->
  exists cache' h',
    for_traces (body i) g_traces (cache, h) = Some (cache', h') /\
    wf_cache cache' /\
    Forall (lru_bounded (B + 2 * Z.of_nat (length g_traces))) cache' /\
    (0 <= h -> 0 <= h' <= h + Z.of_nat (length g_traces)).
Proof.
  intros Hc. induction g_traces as [|t rest IH]; intros cache h B Hwf HB Hb.
  - exists cache, h. simpl. split; [reflexivity|]. split; [exact Hwf|].
    split; [|lia]. rewrite Z.add_0_r. exact Hb.
  - destruct (body_step i cache h t B Hc Hwf HB Hb) as (c1 & h1 & E1 & Hwf1 & Hb1 & Hh1).
    destruct (IH c1 h1 (B + 2) Hwf1 ltac:(lia) Hb1) as (c2 & h2 & E2 & Hwf2 & Hb2 & Hh2).
    exists c2, h2. cbn [for_traces]. rewrite E1. simpl. rewrite E2.
    split; [reflexivity|]. split; [exact Hwf2|]. split.
    + simpl length.
      replace (B + 2 * Z.of_nat (S (length rest)))
        with (B + 2 + 2 * Z.of_nat (length rest)) by lia.
      exact Hb2.
    + intros Hh. simpl length. lia.
Qed.

End SetAssocRun.

(** ** Allocation on a miss in the set-associative engine *)

Section SetAssocAllocation.
Import SetAssoc SetAssocSpec.

Lemma lru_bounded_lookup B s k :
  lru_bounded B s -> (k < length (lru s))%nat -> 0 <= lru s !!! k <= B.
Proof.
  intros Hb Hk. unfold lru_bounded in Hb. rewrite Forall_lookup in Hb.
  apply (Hb k). apply list_lookup_lookup_total_lt, Hk.
Qed.

(** A miss that may allocate, on a set whose counters fit 32 bits. *)
Lemma do_miss_allocates s tag ways :
  wf_set s -> (1 <= ways <= 16)%nat -> lru_bounded (2 ^ 32 - 2) s ->
  holds tag ways s = false ->
  exists v,
    sim_set_associative_do s tag ways false
      = (place (scanned tag ways s) v tag, false) /\
    (is_first_invalid s ways v \/
     (all_valid s ways /\
      is_first_max (fun w => lru (scanned tag ways s) !!! w) ways v)).
Proof.
  intros Hwf Hways Hb Hmiss.
  unfold sim_set_associative_do. rewrite do_scan, Hmiss. simpl.
  destruct (insert_tag_spec (scanned tag ways s) tag ways) as (v & -> & Hv).
  - lia.
  - intros k Hk.
    pose proof (scanned_bounded (2 ^ 32 - 2) tag ways s ltac:(lia) Hb) as Hb'.
    pose proof (scanned_wf tag ways s Hwf) as (_ & Hl & _).
    pose proof (lru_bounded_lookup _ _ k Hb' ltac:(lia)). lia.
  - exists v. split; [reflexivity|exact Hv].
Qed.

End SetAssocAllocation.

(** ** Unrolled loops *)

Lemma unrolled8_groups {St : Type} (stmt : St -> nat -> St) (m : nat) (st : St) :
  fold_left
    (fun st k =>
       let b := (8 * k)%nat in
       fold_left stmt
         [b + 0; b + 1; b + 2; b + 3; b + 4; b + 5; b + 6; b + 7]%nat st)
    (seq 0 m) st
  = fold_left stmt (seq 0 (8 * m)) st.
Proof.
  induction m as [|m IH].
  - reflexivity.
  - rewrite seq_S, fold_left_app, IH.
    replace (8 * S m)%nat with (8 * m + 8)%nat by lia.
    rewrite seq_app, fold_left_app. simpl.
    repeat (f_equal; try lia).
Qed.

(** The stride-8 loop visits the slots [0 .. 511] in ascending order. *)
Lemma unrolled8_512 {St : Type} (stmt : St -> nat -> St) (st : St) :
  unrolled8 stmt 512 st = fold_left stmt (seq 0 512) st.
Proof.
  unfold unrolled8. change (512 / 8)%nat with 64%nat.
  rewrite unrolled8_groups. reflexivity.
Qed.

(** ** The search and the allocation of the fully-associative engine *)

Section FullyAssocLoops.
Import FullyAssoc FullyAssocSpec.

Lemma searched_0 tg cache : searched tg 0 cache = cache.
Proof.
  unfold searched. apply list_eq. intros i.
  rewrite list_lookup_imap. destruct (cache !! i); reflexivity.
Qed.

Lemma searched_ge tg n cache b :
  (n <= b)%nat -> searched tg n cache !!! b = cache !!! b.
Proof.
  intros Hb. unfold searched. rewrite !list_lookup_total_alt, list_lookup_imap.
  destruct (cache !! b); [|reflexivity]. simpl.
  rewrite (proj2 (Nat.ltb_ge b n)) by lia. reflexivity.
Qed.

Lemma searched_S tg n cache :
  searched tg (S n) cache =
  <[n := if (tag (cache !!! n) =? tg) && negb (holds tg n cache)
         then set_lru (cache !!! n) 0
         else set_lru (cache !!! n) (wrap64 (lru (cache !!! n) + 1))]>
    (searched tg n cache).
Proof.
  unfold searched. apply list_eq. intros i.
  rewrite list_lookup_insert, length_imap, !list_lookup_imap.
  case_decide as Hd.
  - destruct Hd as [-> Hlt].
    rewrite (list_lookup_lookup_total_lt cache i) by exact Hlt. simpl.
    rewrite (proj2 (Nat.ltb_lt i (S i))) by lia. reflexivity.
  - destruct (cache !! i) as [l|] eqn:El; [|reflexivity]. simpl.
    assert (i <> n).
    { intros ->. apply Hd. split; [reflexivity|]. eapply lookup_lt_Some, El. }
    destruct (Nat.ltb_spec i (S n)), (Nat.ltb_spec i n); try lia; reflexivity.
Qed.

Lemma holds_S tg n cache :
  holds tg (S n) cache = holds tg n cache || (tag (cache !!! n) =? tg).
Proof.
  unfold holds. rewrite seq_S, existsb_app. simpl. rewrite orb_false_r. reflexivity.
Qed.

(** The search loop in closed form. *)
Lemma search_scan tg n cache :
  (n <= length cache)%nat ->
  fold_left (SIMFA_UNROLL1 tg) (seq 0 n) (cache, false)
  = (searched tg n cache, holds tg n cache).
Proof.
  induction n as [|n IH]; intros Hn.
  - simpl. rewrite searched_0. reflexivity.
  - rewrite seq_S, fold_left_app, IH by lia. simpl.
    rewrite holds_S, searched_S, searched_ge by lia.
    assert (Hlen : (n < length (searched tg n cache))%nat)
      by (unfold searched; rewrite length_imap; lia).
    rewrite list_lookup_total_insert_eq by exact Hlen.
    rewrite list_insert_insert_eq.
    unfold set_lru. simpl.
    destruct (holds tg n cache); simpl.
    + rewrite andb_false_r. reflexivity.
    + rewrite andb_true_r.
      destruct (tag (cache !!! n) =? tg); reflexivity.
Qed.

End FullyAssocLoops.

Section FullyAssocAllocation.
Import FullyAssoc FullyAssocSpec.

(** The allocation loop in closed form: either it stopped at the first
    empty block, or it found none and tracked the largest counter. *)
Lemma alloc_scan tg cache : forall n,
  exists c' lru_block lru_largest hasempty,
    fold_left (SIMFA_UNROLL2 tg) (seq 0 n) (cache, 0%nat, 0, false)
      = (c', lru_block, lru_largest, hasempty) /\
    ((hasempty = true /\
      exists v, is_first_empty cache n v /\ c' = <[v := mkBlock tg 0]> cache) \/
     (hasempty = false /\ c' = cache /\ none_empty cache n /\
      ((forall k, (k < n)%nat -> 0 <= lru (cache !!! k) < 2 ^ 32) ->
       seen (fun k => lru (cache !!! k)) n lru_block lru_largest))).
Proof.
  induction n as [|n (c' & lb & ll & he & E & Hcase)].
  - exists cache, 0%nat, 0, false. split; [reflexivity|]. right.
    split; [reflexivity|]. split; [reflexivity|]. split; [intros w Hw; lia|].
    intros _. apply seen_start.
  - rewrite seq_S, fold_left_app, E. simpl.
    destruct Hcase as [(-> & v & (Hv & Hz & Hnz) & ->) | (-> & -> & Hne & Hseen)].
    + do 4 eexists. split; [reflexivity|]. left. split; [reflexivity|].
      exists v. split; [|reflexivity]. repeat split; [lia|exact Hz|exact Hnz].
    + destruct (Z.eqb_spec (tag (cache !!! n)) 0) as [Ez|Ez].
      * destruct (ll <? lru (cache !!! n));
          (do 4 eexists; split; [reflexivity|]; left; split; [reflexivity|];
           exists n; split; [|reflexivity]; repeat split; [lia|exact Ez|exact Hne]).
      * assert (Hne' : none_empty cache (S n)).
        { intros w Hw. destruct (decide (w = n)) as [->|]; [exact Ez|apply Hne; lia]. }
        pose proof (fun Hb : forall k, (k < S n)%nat -> 0 <= lru (cache !!! k) < 2 ^ 32 =>
                      seen_step (fun k => lru (cache !!! k)) n lb ll
                        (Hb n ltac:(lia))
                        (Hseen (fun k Hk => Hb k ltac:(lia)))) as Hseen'.
        cbn beta in Hseen'.
        destruct (ll <? lru (cache !!! n));
          (do 4 eexists; split; [reflexivity|]; right;
           split; [reflexivity|]; split; [reflexivity|]; split; [exact Hne'|exact Hseen']).
Qed.

(** [allocate]: the first empty block if there is one, else the first block
    with the largest counter. *)
Lemma allocate_spec cache tg :
  exists v,
    allocate cache tg = <[v := mkBlock tg 0]> cache /\
    (is_first_empty cache 512 v \/
     (none_empty cache 512 /\
      ((forall k, (k < 512)%nat -> 0 <= lru (cache !!! k) < 2 ^ 32) ->
       is_first_max (fun k => lru (cache !!! k)) 512 v))).
Proof.
  unfold allocate. rewrite unrolled8_512.
  destruct (alloc_scan tg cache 512) as (c' & lb & ll & he & -> & Hcase).
  destruct Hcase as [(-> & v & Hv & ->) | (-> & -> & Hne & Hseen)]; simpl.
  - exists v. split; [reflexivity|]. left. exact Hv.
  - exists lb. split; [reflexivity|]. right. split; [exact Hne|].
    intros Hb. eapply seen_first_max; [lia|]. apply Hseen, Hb.
Qed.

Lemma searched_length tg n cache : length (searched tg n cache) = length cache.
Proof. unfold searched. apply length_imap. Qed.

Lemma searched_bounded B tg n cache :
  0 <= B -> lru_bounded B cache -> lru_bounded (B + 1) (searched tg n cache).
Proof.
  intros HB Hb. unfold lru_bounded, searched in *.
  rewrite Forall_lookup in Hb. apply Forall_lookup. intros k x Hx.
  rewrite list_lookup_imap in Hx.
  destruct (cache !! k) as [blk|] eqn:El; [|discriminate].
  simpl in Hx. injection Hx as <-. specialize (Hb k blk El). simpl in Hb.
  destruct (k <? n)%nat; [|lia].
  destruct ((tag blk =? tg) && negb (holds tg k cache)); simpl; [lia|].
  pose proof (wrap64_succ_le (lru blk)). lia.
Qed.

(** One record of the trace. *)
Lemma fa_body_step cache h t B :
  length cache = 512%nat -> 0 <= B -> lru_bounded B cache ->
  exists cache' h',
    body (cache, h) t = (cache', h') /\
    length cache' = 512%nat /\
    lru_bounded (B + 1) cache' /\
    (0 <= h -> 0 <= h' <= h + 1).
Proof.
  intros Hlen HB Hb. unfold body.
  rewrite unrolled8_512, search_scan by lia.
  set (tg := Z.shiftr (addr t) block_id_offset).
  pose proof (searched_bounded B tg 512 cache HB Hb) as Hb'.
  destruct (holds tg 512 cache).
  - do 2 eexists. split; [reflexivity|].
    split; [rewrite searched_length; exact Hlen|]. split; [exact Hb'|].
    apply wrap32_succ_le.
  - destruct (allocate_spec (searched tg 512 cache) tg) as (v & -> & _).
    do 2 eexists. split; [reflexivity|].
    split; [rewrite length_insert, searched_length; exact Hlen|].
    split; [|lia].
    apply Forall_insert; [exact Hb'|]. simpl. lia.
Qed.

Lemma fa_run_invariant : forall g_traces cache h B,
  length cache = 512%nat -> 0 <= B -> lru_bounded B cache ->
  exists cache' h',
    fold_left body g_traces (cache, h) = (cache', h') /\
    length cache' = 512%nat /\
    lru_bounded (B + Z.of_nat (length g_traces)) cache' /\
    (0 <= h -> 0 <= h' <= h + Z.of_nat (length g_traces)).
Proof.
  induction g_traces as [|t rest IH]; intros cache h B Hlen HB Hb.
  - exists cache, h. simpl. split; [reflexivity|]. split; [exact Hlen|].
    split; [|lia]. rewrite Z.add_0_r. exact Hb.
  - destruct (fa_body_step cache h t B Hlen HB Hb) as (c1 & h1 & E1 & Hl1 & Hb1 & Hh1).
    destruct (IH c1 h1 (B + 1) Hl1 ltac:(lia) Hb1) as (c2 & h2 & E2 & Hl2 & Hb2 & Hh2).
    exists c2, h2. cbn [fold_left]. rewrite E1, E2.
    split; [reflexivity|]. split; [exact Hl2|]. split.
    + simpl length.
      replace (B + Z.of_nat (S (length rest)))
        with (B + 1 + Z.of_nat (length rest)) by lia.
      exact Hb2.
    + intros Hh. simpl length. lia.
Qed.

Lemma fa_empty_bounded : lru_bounded 0 empty_cache.
Proof. apply Forall_replicate. simpl. lia. Qed.

End FullyAssocAllocation.

(** ** The recency tree *)

Section PseudoLRUTree.
Import PseudoLRU PseudoLRUSpec.

Lemma parent_lt b : (1 <= b)%nat -> (parent b < b)%nat.
Proof.
  intros Hb. unfold parent.
  pose proof (Nat.div_mod_eq (b - 1) 2). pose proof (Nat.mod_upper_bound (b - 1) 2).
  lia.
Qed.

(** The walk up does not depend on the fuel once there is enough. *)
Lemma walk_up_fuel : forall fuel fuel' b c,
  (1 <= b <= fuel)%nat -> (b <= fuel')%nat ->
  walk_up fuel b c = walk_up fuel' b c.
Proof.
  induction fuel as [|fuel IH]; intros fuel' b c Hb Hb'; [lia|].
  destruct fuel' as [|fuel']; [lia|].
  cbn [walk_up]. fold (parent b).
  pose proof (parent_lt b ltac:(lia)) as Hp.
  destruct (Nat.eqb_spec (parent b) 0) as [|Hn]; [reflexivity|].
  apply IH; lia.
Qed.

Lemma walk_up_length : forall fuel b c, length (walk_up fuel b c) = length c.
Proof.
  induction fuel as [|fuel IH]; intros b c; cbn [walk_up]; [reflexivity|].
  destruct (_ =? 0)%nat; [|rewrite IH]; apply length_insert.
Qed.

(** The update after a hit: every node [x] on the way up has the bit of
    its parent set away from [x]; nothing else changes. *)
Lemma walk_up_spec : forall fuel b c,
  (1 <= b <= fuel)%nat -> (b < length c)%nat ->
  (forall k, (b <= k)%nat -> walk_up fuel b c !!! k = c !!! k) /\
  (forall x, In x (path_up fuel b) ->
     walk_up fuel b c !!! parent x = away_from x) /\
  (forall k, (forall x, In x (path_up fuel b) -> parent x <> k) ->
     walk_up fuel b c !!! k = c !!! k).
Proof.
  induction fuel as [|fuel IH]; intros b c Hb Hlen; [lia|].
  cbn [walk_up path_up]. fold (parent b). fold (away_from b).
  pose proof (parent_lt b ltac:(lia)) as Hp.
  destruct (Nat.eqb_spec b 0) as [|_]; [lia|].
  destruct (Nat.eqb_spec (parent b) 0) as [E0|E0].
  - assert (Hnil : path_up fuel (parent b) = [])
      by (rewrite E0; destruct fuel; reflexivity).
    rewrite Hnil. split; [|split].
    + intros k Hk. apply list_lookup_total_insert_ne. lia.
    + intros x [<-|[]]. apply list_lookup_total_insert_eq. lia.
    + intros k Hk. apply list_lookup_total_insert_ne. apply Hk. left. reflexivity.
  - destruct (IH (parent b) (<[parent b := away_from b]> c)) as (Hge & Hpath & Hframe).
    + lia.
    + rewrite length_insert. lia.
    + split; [|split].
      * intros k Hk. rewrite Hge by lia. apply list_lookup_total_insert_ne. lia.
      * intros x [<-|Hx]; [|apply Hpath, Hx].
        rewrite Hge by lia. apply list_lookup_total_insert_eq. lia.
      * intros k Hk. rewrite Hframe.
        -- apply list_lookup_total_insert_ne. apply Hk. left. reflexivity.
        -- intros x Hx. apply Hk. right. exact Hx.
Qed.

(** The bit written on the way up marks the sibling as stale. *)
Lemma away_from_stale x :
  (1 <= x)%nat -> stale_child (parent x) (away_from x) <> x.
Proof.
  intros Hx. unfold stale_child, away_from, parent, left, right.
  pose proof (Nat.div_mod_eq (x - 1) 2). pose proof (Nat.mod_upper_bound (x - 1) 2).
  pose proof (Nat.div_mod_eq x 2). pose proof (Nat.mod_upper_bound x 2).
  destruct (Nat.eqb_spec (x mod 2) 0); simpl; lia.
Qed.

Lemma path_up_pos : forall fuel b x, In x (path_up fuel b) -> (1 <= x <= b)%nat.
Proof.
  induction fuel as [|fuel IH]; intros b x; cbn [path_up]; [intros []|].
  destruct (Nat.eqb_spec b 0) as [|Hb]; [intros []|].
  intros [<-|Hx]; [lia|].
  specialize (IH _ _ Hx). pose proof (parent_lt b ltac:(lia)). lia.
Qed.

End PseudoLRUTree.

Section PseudoLRUDescent.
Import PseudoLRU PseudoLRUSpec.

Lemma path_up_reaches_root : forall fuel b,
  (1 <= b <= fuel)%nat -> In 0%nat (map parent (path_up fuel b)).
Proof.
  induction fuel as [|fuel IH]; intros b Hb; [lia|].
  cbn [path_up]. destruct (Nat.eqb_spec b 0) as [|_]; [lia|].
  cbn [map]. destruct (Nat.eq_dec (parent b) 0%nat) as [E|E].
  - left. exact E.
  - right. apply IH. pose proof (parent_lt b ltac:(lia)). lia.
Qed.

Lemma stale_child_gt n bit : (n < stale_child n bit)%nat.
Proof. unfold stale_child, left, right. destruct (bit =? 0); lia. Qed.

Lemma stale_child_le n bit : (n < 511)%nat -> (stale_child n bit <= 1022)%nat.
Proof. unfold stale_child, left, right. destruct (bit =? 0); lia. Qed.

Lemma stale_child_parent n bit : parent (stale_child n bit) = n.
Proof.
  unfold stale_child, parent, left, right.
  destruct (bit =? 0).
  - replace (2 * n + 2 - 1)%nat with (1 + n * 2)%nat by lia.
    rewrite Nat.div_add by lia. reflexivity.
  - replace (2 * n + 1 - 1)%nat with (n * 2)%nat by lia.
    apply Nat.div_mul. lia.
Qed.

(** The search for a victim reads each node before any write can reach
    it: a tree that agrees from [n] on gives the same walk. *)
Lemma stale_leaf_agree : forall fuel n c1 c2,
  (forall k, (n <= k)%nat -> c1 !!! k = c2 !!! k) ->
  stale_leaf fuel n c1 = stale_leaf fuel n c2 /\
  stale_path fuel n c1 = stale_path fuel n c2.
Proof.
  induction fuel as [|fuel IH]; intros n c1 c2 Hag; [split; reflexivity|].
  cbn [stale_leaf stale_path]. destruct (n <? 511)%nat; [|split; reflexivity].
  rewrite (Hag n) by lia.
  destruct (IH (stale_child n (c2 !!! n)) c1 c2) as [-> ->]; [|split; reflexivity].
  intros k Hk. apply Hag. pose proof (stale_child_gt n (c2 !!! n)). lia.
Qed.

Lemma stale_path_ge : forall fuel n c x,
  In x (stale_path fuel n c) -> (n <= x < 511)%nat.
Proof.
  induction fuel as [|fuel IH]; intros n c x; cbn [stale_path]; [intros []|].
  destruct (Nat.ltb_spec n 511); [|intros []].
  intros [<-|Hx]; [lia|].
  specialize (IH _ _ _ Hx). pose proof (stale_child_gt n (c !!! n)). lia.
Qed.

(** With enough fuel the walk ends in a leaf. *)
Lemma stale_leaf_is_leaf : forall fuel n c,
  (511 <= n + fuel)%nat -> (n <= 1022)%nat ->
  (511 <= stale_leaf fuel n c <= 1022)%nat.
Proof.
  induction fuel as [|fuel IH]; intros n c Hf Hn; cbn [stale_leaf]; [lia|].
  destruct (Nat.ltb_spec n 511); [|lia].
  apply IH.
  - pose proof (stale_child_gt n (c !!! n)). lia.
  - apply stale_child_le. lia.
Qed.

(** The descent does not depend on the fuel once there is enough. *)
Lemma descend_fuel : forall fuel fuel' n c,
  (511 <= n + fuel)%nat -> (511 <= n + fuel')%nat ->
  descend fuel n c = descend fuel' n c.
Proof.
  induction fuel as [|fuel IH]; intros fuel' n c Hf Hf'.
  - destruct fuel' as [|fuel']; [reflexivity|]. cbn [descend].
    rewrite (proj2 (Nat.ltb_ge n 511)) by lia. reflexivity.
  - cbn [descend]. destruct (Nat.ltb_spec n 511) as [Hn|Hn].
    + destruct fuel' as [|fuel']; [lia|]. cbn [descend].
      rewrite (proj2 (Nat.ltb_lt n 511)) by lia.
      apply IH; destruct (Z.eqb _ 0); lia.
    + destruct fuel' as [|fuel']; [reflexivity|]. cbn [descend].
      rewrite (proj2 (Nat.ltb_ge n 511)) by lia. reflexivity.
Qed.

Lemma descend_length : forall fuel n c, length (descend fuel n c).1 = length c.
Proof.
  induction fuel as [|fuel IH]; intros n c; cbn [descend]; [reflexivity|].
  destruct (n <? 511)%nat; [|reflexivity].
  rewrite IH. apply length_insert.
Qed.

(** The move of the descent is the move to the stale child. *)
Lemma descend_move (n : nat) (bit : Z) :
  (2 * n + (if Z.eqb (if Z.eqb bit 0 then 1%Z else 0%Z) 0 then 1 else 2))%nat
  = stale_child n bit.
Proof. unfold stale_child, left, right. destruct (bit =? 0); reflexivity. Qed.

(** The descent in closed form: it ends in the leaf the stale bits of the
    tree lead to, flips the bit of every node it went through and leaves
    the rest of the tree alone. *)
Lemma descend_spec : forall fuel n c,
  (511 <= length c)%nat ->
  (descend fuel n c).2 = stale_leaf fuel n c /\
  (forall x, In x (stale_path fuel n c) ->
     (descend fuel n c).1 !!! x = flip (c !!! x)) /\
  (forall k, ~ In k (stale_path fuel n c) ->
     (descend fuel n c).1 !!! k = c !!! k).
Proof.
  induction fuel as [|fuel IH]; intros n c Hlen.
  - simpl. split; [reflexivity|]. split; [intros x []|reflexivity].
  - cbn [descend stale_leaf stale_path].
    destruct (Nat.ltb_spec n 511) as [Hn|Hn];
      [|simpl; split; [reflexivity|]; split; [intros x []|reflexivity]].
    rewrite descend_move. fold (flip (c !!! n)).
    set (c1 := <[n := flip (c !!! n)]> c).
    set (n' := stale_child n (c !!! n)).
    assert (Hn' : (n < n')%nat) by apply stale_child_gt.
    assert (Hag : forall k, (n' <= k)%nat -> c1 !!! k = c !!! k).
    { intros k Hk. apply list_lookup_total_insert_ne. lia. }
    destruct (stale_leaf_agree fuel n' c1 c Hag) as [El Ep].
    destruct (IH n' c1) as (Hleaf & Hpath & Hframe).
    { unfold c1. rewrite length_insert. exact Hlen. }
    rewrite El in Hleaf. rewrite Ep in Hpath, Hframe.
    split; [exact Hleaf|]. split.
    + intros x [<-|Hx].
      * rewrite Hframe.
        -- apply list_lookup_total_insert_eq. lia.
        -- intros Hin. apply stale_path_ge in Hin. lia.
      * rewrite (Hpath x Hx). f_equal. apply Hag.
        apply stale_path_ge in Hx. lia.
    + intros k Hk. rewrite Hframe by (intros Hin; apply Hk; right; exact Hin).
      apply list_lookup_total_insert_ne. intros ->. apply Hk. left. reflexivity.
Qed.

(** Flipping a bit moves its stale side to the other child. *)
Lemma flip_stale n bit : stale_child n (flip bit) <> stale_child n bit.
Proof.
  unfold stale_child, flip, left, right. destruct (bit =? 0); simpl; lia.
Qed.

End PseudoLRUDescent.

(** ** One record in the multi-way branch *)

Section SetAssocRecord.
Import SetAssoc SetAssocSpec PolicySpec.

(** With two ways or more, a record is one real access, whose outcome is
    added to the hit counter, followed by the prefetch of the next line
    when the policy issues one. *)
Lemma body_multiway i cache h t :
  ways i <> 1 ->
  body i (cache, h) t =
    '(c1, hit) ← access i cache (addr t) (store_no_allocate (options i) t);
    c2 ← (if prefetch_issued (options i) hit
          then fst <$> access i c1 (wrap64 (addr t + 32)) false
          else Some c1);
    Some (c2, wrap32 (h + Z.b2z hit)).
Proof.
  intros Hw. apply Z.eqb_neq in Hw.
  unfold body, access, decompose. rewrite !Hw.
  replace (option_eqb (options i) OPTION_WRITE_ON_MISS && op_eqb (op t) STORE)
    with (store_no_allocate (options i) t)
    by (unfold store_no_allocate; destruct (options i), (op t); reflexivity).
  destruct (do_at cache _ _ _ _) as [[c1 hit]|]; [|reflexivity]. simpl.
  replace (option_eqb (options i) OPTION_PREFETCH_ALWAYS
           || option_eqb (options i) OPTION_PREFETCH_ON_MISS && negb hit)
    with (prefetch_issued (options i) hit)
    by (unfold prefetch_issued; destruct (options i), hit; reflexivity).
  destruct (prefetch_issued (options i) hit); [|reflexivity].
  fold (log i).
  destruct (do_at c1 _ _ _ _) as [[c2 hit2]|]; reflexivity.
Qed.

Lemma for_traces_ext {St : Type} (f g : St -> Trace -> option St) :
  (forall st t, f st t = g st t) ->
  forall l st, for_traces f l st = for_traces g l st.
Proof.
  intros Hfg. induction l as [|t l IH]; intros st; [reflexivity|].
  cbn [for_traces]. rewrite Hfg. destruct (g st t); simpl; [apply IH|reflexivity].
Qed.

(** The empty set holds tag 0 in every way and no other tag. *)
Lemma empty_set_tag w : (w < 16)%nat -> tags empty_set !!! w = 0.
Proof. intros Hw. unfold empty_set. cbn [tags]. apply lookup_total_replicate_2, Hw. Qed.

Lemma holds_same_tags tag n s s' : tags s = tags s' -> holds tag n s = holds tag n s'.
Proof. intros E. unfold holds. rewrite E. reflexivity. Qed.

Lemma holds_empty_set tag n :
  (n <= 16)%nat ->
  holds tag n empty_set = if tag =? 0 then negb (n =? 0)%nat else false.
Proof.
  unfold holds. induction n as [|n IH]; intros Hn.
  - simpl. destruct (tag =? 0); reflexivity.
  - rewrite seq_S, existsb_app, IH by lia. simpl. rewrite empty_set_tag by lia.
    rewrite (Z.eqb_sym 0 tag).
    destruct (tag =? 0); [|reflexivity].
    rewrite orb_true_r. reflexivity.
Qed.

End SetAssocRecord.

(** ** Hit counting in the pseudo-LRU engine *)

Section PseudoLRUCount.
Import PseudoLRU PseudoLRUSpec.

(** [i->hits++ - i->hits] is never zero: the flag [hit] is set. *)
Lemma hit_flag h : negb (wrap32 (h - wrap32 (h + 1)) =? 0) = true.
Proof.
  unfold wrap32, wrap. rewrite Zminus_mod_idemp_r.
  replace (h - (h + 1)) with (-1) by lia. reflexivity.
Qed.

Lemma plru_body_hit c h t block :
  find_block c (Z.shiftr (addr t) block_id_offset) = Some block ->
  body (c, h) t = (walk_up block block c, wrap32 (h + 1)).
Proof. intros E. unfold body. rewrite E, hit_flag. reflexivity. Qed.

Lemma plru_body_miss c h t :
  find_block c (Z.shiftr (addr t) block_id_offset) = None ->
  body (c, h) t =
    (<[(descend 511 0 c).2 := Z.shiftr (addr t) block_id_offset]> (descend 511 0 c).1, h).
Proof.
  intros E. unfold body. rewrite E. cbn [negb].
  destruct (descend 511 0 c) as [c' tmp]. reflexivity.
Qed.

Lemma plru_body_hits c h t : 0 <= h -> 0 <= (body (c, h) t).2 <= h + 1.
Proof.
  intros Hh.
  destruct (find_block c (Z.shiftr (addr t) block_id_offset)) as [block|] eqn:E.
  - rewrite (plru_body_hit _ _ _ _ E). cbn [snd]. apply wrap32_succ_le, Hh.
  - rewrite (plru_body_miss _ _ _ E). cbn [snd]. lia.
Qed.

(** The tree keeps its 1024 entries. *)
Lemma plru_body_length c h t :
  length (body (c, h) t).1 = length c.
Proof.
  destruct (find_block c (Z.shiftr (addr t) block_id_offset)) as [block|] eqn:E.
  - rewrite (plru_body_hit _ _ _ _ E). cbn [fst]. apply walk_up_length.
  - rewrite (plru_body_miss _ _ _ E). cbn [fst].
    rewrite length_insert. apply descend_length.
Qed.

Lemma plru_run_length : forall g_traces c h,
  length (fold_left body g_traces (c, h)).1 = length c.
Proof.
  induction g_traces as [|t rest IH]; intros c h; [reflexivity|].
  cbn [fold_left]. pose proof (plru_body_length c h t) as H1.
  destruct (body (c, h) t) as [c1 h1]. rewrite IH. exact H1.
Qed.

Lemma plru_run_hits : forall g_traces c h,
  0 <= h -> 0 <= (fold_left body g_traces (c, h)).2 <= h + Z.of_nat (length g_traces).
Proof.
  induction g_traces as [|t rest IH]; intros c h Hh; [simpl; lia|].
  cbn [fold_left]. pose proof (plru_body_hits c h t Hh) as H1.
  destruct (body (c, h) t) as [c1 h1]. simpl in H1.
  specialize (IH c1 h1 ltac:(lia)). simpl length. lia.
Qed.

Lemma find_block_some c tg b :
  is_leaf b -> c !!! b = tg -> exists b', find_block c tg = Some b'.
Proof.
  intros Hb E. unfold find_block.
  destruct (List.find _ _) as [b'|] eqn:F; [eauto|].
  pose proof (find_none _ _ F b) as H.
  rewrite in_seq in H. unfold is_leaf in Hb.
  specialize (H ltac:(lia)). cbn beta in H. apply Z.eqb_neq in H. contradiction.
Qed.

Lemma find_block_leaf c tg b :
  find_block c tg = Some b -> is_leaf b /\ c !!! b = tg.
Proof.
  unfold find_block. intros F. apply find_some in F. destruct F as (Hin & E).
  rewrite in_seq in Hin. apply Z.eqb_eq in E. unfold is_leaf. split; [lia|exact E].
Qed.

(** The scan finds the first leaf that holds the tag. *)
Lemma find_first_in_seq (f : nat -> bool) : forall m n x,
  (n <= x < n + m)%nat -> f x = true ->
  (forall y, (n <= y < x)%nat -> f y = false) ->
  List.find f (seq n m) = Some x.
Proof.
  induction m as [|m IH]; intros n x Hx Hfx Hbefore; [lia|].
  cbn [seq List.find]. destruct (decide (x = n)) as [->|Hne].
  - rewrite Hfx. reflexivity.
  - rewrite (Hbefore n) by lia. apply IH; [lia|exact Hfx|].
    intros y Hy. apply Hbefore. lia.
Qed.

Lemma find_block_hit c tg block :
  is_leaf block -> c !!! block = tg ->
  (forall b, is_leaf b -> (b < block)%nat -> c !!! b <> tg) ->
  find_block c tg = Some block.
Proof.
  unfold is_leaf, find_block. intros Hb E Hfirst.
  apply find_first_in_seq; [lia|apply Z.eqb_eq, E|].
  intros y Hy. apply Z.eqb_neq. apply Hfirst; lia.
Qed.

Lemma find_block_miss c tg :
  (forall b, is_leaf b -> c !!! b <> tg) -> find_block c tg = None.
Proof.
  intros Hnone. destruct (find_block c tg) as [b|] eqn:F; [|reflexivity].
  destruct (find_block_leaf _ _ _ F) as (Hb & E). destruct (Hnone b Hb E).
Qed.

End PseudoLRUCount.

(** ** The first access to the empty cache *)

Section FirstAccess.
Import SetAssoc SetAssocSpec PolicySpec.

Lemma empty_cache_lookup set_ix :
  0 <= set_ix < 1024 -> empty_cache !! Z.to_nat set_ix = Some empty_set.
Proof. intros Hix. apply lookup_replicate_2. lia. Qed.

(** On the empty set the scan finds tag 0 in every way, and no other tag. *)
Lemma do_empty_set tag ways no_modify :
  (1 <= ways <= 16)%nat ->
  (sim_set_associative_do empty_set tag ways no_modify).2 = (tag =? 0).
Proof.
  intros Hw. unfold sim_set_associative_do.
  rewrite do_scan, holds_empty_set by lia.
  destruct (Nat.eqb_spec ways 0) as [|_]; [lia|].
  destruct (tag =? 0); cbn [negb andb]; [reflexivity|].
  destruct (negb no_modify); reflexivity.
Qed.

(** A record replayed on a well-formed cache by the multi-way branch: the
    hit counter moves by the outcome of the scan of the addressed set. *)
Lemma body_multiway_hits i cache h t :
  valid_config i -> ways i <> 1 -> wf_cache cache ->
  exists s cache',
    cache !! Z.to_nat (decompose i (addr t)).1 = Some s /\
    body i (cache, h) t =
      Some (cache',
            wrap32 (h + Z.b2z (sim_set_associative_do s (decompose i (addr t)).2
                                 (Z.to_nat (ways i))
                                 (store_no_allocate (options i) t)).2)).
Proof.
  intros Hc Hw Hwf. rewrite body_multiway by exact Hw.
  unfold access.
  pose proof (decompose_index_range i (addr t) Hc) as Hix.
  destruct (decompose i (addr t)) as [set_ix tag]. cbn [fst snd] in *.
  cbn beta iota.
  destruct (do_at_some cache set_ix tag (Z.to_nat (ways i))
              (store_no_allocate (options i) t) Hwf Hix) as (s & Hs & E & Hwf1).
  exists s. rewrite E. cbn [mbind option_bind].
  set (r := sim_set_associative_do s tag _ _) in *.
  destruct (prefetch_issued (options i) r.2).
  - pose proof (decompose_index_range i (wrap64 (addr t + 32)) Hc) as Hix2.
    destruct (decompose i (wrap64 (addr t + 32))) as [ix2 tag2]. cbn [fst] in Hix2.
    destruct (do_at_some (<[Z.to_nat set_ix := r.1]> cache) ix2 tag2
                (Z.to_nat (ways i)) false Hwf1 Hix2) as (s2 & _ & -> & _).
    eexists. split; [exact Hs|]. reflexivity.
  - eexists. split; [exact Hs|]. reflexivity.
Qed.

End FirstAccess.

Section FullyAssocMiss.
Import FullyAssoc FullyAssocSpec.

(** The search changes counters only. *)
Lemma searched_tag tg n cache k :
  tag (searched tg n cache !!! k) = tag (cache !!! k).
Proof.
  unfold searched. rewrite !list_lookup_total_alt, list_lookup_imap.
  destruct (cache !! k) as [blk|]; [|reflexivity]. simpl.
  destruct (k <? n)%nat; [|reflexivity].
  destruct ((tag blk =? tg) && negb (holds tg k cache)); reflexivity.
Qed.

Lemma fa_lru_bounded_lookup B cache k :
  lru_bounded B cache -> (k < length cache)%nat -> 0 <= lru (cache !!! k) <= B.
Proof.
  intros Hb Hk. unfold lru_bounded in Hb. rewrite Forall_lookup in Hb.
  apply (Hb k). apply list_lookup_lookup_total_lt, Hk.
Qed.

(** A record that misses, on a cache whose counters fit 32 bits. *)
Lemma fa_body_miss cache h t :
  length cache = 512%nat -> lru_bounded (2 ^ 32 - 2) cache ->
  holds (Z.shiftr (addr t) block_id_offset) 512 cache = false ->
  exists v,
    body (cache, h) t
      = (<[v := mkBlock (Z.shiftr (addr t) block_id_offset) 0]>
           (searched (Z.shiftr (addr t) block_id_offset) 512 cache), h) /\
    (is_first_empty cache 512 v \/
     (none_empty cache 512 /\
      is_first_max
        (fun k => lru (searched (Z.shiftr (addr t) block_id_offset) 512 cache !!! k))
        512 v)).
Proof.
  intros Hlen Hb Hmiss. unfold body.
  rewrite unrolled8_512, search_scan, Hmiss by lia.
  set (tg := Z.shiftr (addr t) block_id_offset).
  destruct (allocate_spec (searched tg 512 cache) tg) as (v & -> & Hv).
  exists v. split; [reflexivity|].
  destruct Hv as [(Hlt & Hz & Hnz) | (Hne & Hmax)].
  - left. repeat split; [exact Hlt| |].
    + rewrite <- (searched_tag tg 512). exact Hz.
    + intros w Hw. rewrite <- (searched_tag tg 512). apply Hnz, Hw.
  - right. split.
    + intros w Hw. rewrite <- (searched_tag tg 512). apply Hne, Hw.
    + apply Hmax. intros k Hk.
      pose proof (searched_bounded (2 ^ 32 - 2) tg 512 cache ltac:(lia) Hb) as Hb'.
      pose proof (fa_lru_bounded_lookup _ _ k Hb'
                    ltac:(rewrite searched_length; lia)). lia.
Qed.

End FullyAssocMiss.

Section SetAssocOutcome.
Import SetAssoc SetAssocSpec PolicySpec.

(** The outcome of an access is whether one of the ways holds the tag. *)
Lemma do_hit s tag ways no_modify :
  (sim_set_associative_do s tag ways no_modify).2 = holds tag ways s.
Proof.
  unfold sim_set_associative_do. rewrite do_scan.
  destruct (negb (holds tag ways s) && negb no_modify); reflexivity.
Qed.

(** Without permission to allocate, or on a hit, the access is the scan. *)
Lemma do_scan_only s tag ways no_modify :
  no_modify = true \/ holds tag ways s = true ->
  sim_set_associative_do s tag ways no_modify = (scanned tag ways s, holds tag ways s).
Proof.
  intros H. unfold sim_set_associative_do. rewrite do_scan.
  destruct H as [-> | ->]; [rewrite andb_false_r|]; reflexivity.
Qed.

(** A store that misses under [OPTION_WRITE_ON_MISS]. *)
Lemma store_miss_scans i cache h t s :
  ways i <> 1 -> options i = OPTION_WRITE_ON_MISS -> op t = STORE ->
  cache !! Z.to_nat (decompose i (addr t)).1 = Some s ->
  holds (decompose i (addr t)).2 (Z.to_nat (ways i)) s = false ->
  body i (cache, h) t
    = Some (<[Z.to_nat (decompose i (addr t)).1 :=
                scanned (decompose i (addr t)).2 (Z.to_nat (ways i)) s]> cache,
            wrap32 h).
Proof.
  intros Hw Hopt Hop Hs Hmiss.
  rewrite body_multiway by exact Hw. unfold access.
  destruct (decompose i (addr t)) as [ix tag]. cbn [fst snd] in *.
  unfold do_at. rewrite Hs. cbn [mbind option_bind].
  unfold store_no_allocate, prefetch_issued. rewrite Hopt, Hop.
  rewrite do_scan_only by (left; reflexivity). rewrite Hmiss.
  cbn [mbind option_bind Z.b2z]. rewrite Z.add_0_r. reflexivity.
Qed.

End SetAssocOutcome.

Section SetAssocSize.
Import SetAssoc SetAssocSpec PolicySpec.

(** The multi-way branch never reads [kb]: two configurations with the
    same ways and policy replay a record alike. *)
Lemma body_ignores_kb i j st t :
  ways i <> 1 -> ways j = ways i -> options j = options i ->
  body j st t = body i st t.
Proof.
  intros Hw Ew Eo. apply Z.eqb_neq in Hw.
  unfold body, decompose, mask, log, sets. rewrite Ew, Eo, !Hw. reflexivity.
Qed.


End SetAssocSize.

(** ** Direct-mapped caches: a larger one keeps every line of a smaller one *)

Section DirectMappedSize.
Import SetAssoc SetAssocSpec DirectMappedSpec.




(** A direct-mapped record: a hit when the set keeps the tag, else the tag
    replaces the one kept. *)
Lemma body_direct i cache h t :
  valid_config i -> ways i = 1 -> wf_cache cache ->
  exists cache' (hit : bool),
    body i (cache, h) t = Some (cache', if hit then wrap32 (h + 1) else h) /\
    wf_cache cache' /\
    (hit = true <-> present i cache (addr t)) /\
    tag0 cache' (Z.to_nat (decompose i (addr t)).1) = Some (decompose i (addr t)).2 /\
    (forall n, n <> Z.to_nat (decompose i (addr t)).1 -> tag0 cache' n = tag0 cache n).
Proof.
  intros Hc Hw (Hlen & Hwf). unfold body, present, tag0.
  pose proof (decompose_index_range i (addr t) Hc) as Hix.
  destruct (decompose i (addr t)) as [ix tag]. cbn [fst snd] in *.
  rewrite Hw. cbn [Z.eqb Pos.eqb].
  destruct (lookup_lt_is_Some_2 cache (Z.to_nat ix)) as [s Hs]; [lia|].
  rewrite Hs. cbn [mbind option_bind].
  destruct (Z.eqb_spec (tags s !!! 0%nat) tag) as [E|E].
  - exists cache, true. split; [reflexivity|]. split; [split; assumption|].
    split; [|split].
    + split; [intros _; rewrite E; reflexivity|reflexivity].
    + rewrite Hs. cbn [mbind option_bind]. rewrite E. reflexivity.
    + reflexivity.
  - exists (<[Z.to_nat ix := set_tags s (<[0%nat := tag]> (tags s))]> cache), false.
    assert (Hs' : wf_set s) by (rewrite Forall_lookup in Hwf; eapply Hwf, Hs).
    destruct Hs' as (Ht & Hl & Hv).
    split; [|split; [|split; [|split]]].
    + reflexivity.
    + split; [rewrite length_insert; exact Hlen|].
      apply Forall_insert; [exact Hwf|].
      unfold wf_set, set_tags. simpl. rewrite length_insert. auto.
    + split; [discriminate|]. intros Hp. injection Hp as Hp. contradiction.
    + rewrite list_lookup_insert_eq by lia. cbn [mbind option_bind].
      unfold set_tags. cbn [tags].
      rewrite list_lookup_total_insert_eq by lia. reflexivity.
    + intros n Hn. rewrite list_lookup_insert_ne by (intros E'; apply Hn; symmetry; exact E').
      reflexivity.
Qed.




End DirectMappedSize.

(** ** The configured size and the hit count *)

Section SizeAndHits.
Import SetAssoc SetAssocSpec.



End SizeAndHits.

(** ** The exact-LRU engine: the state after a record *)

Section FullyAssocState.
Import FullyAssoc FullyAssocSpec FullyAssocInv.

Lemma fa_holds_true tg n cache :
  holds tg n cache = true <-> exists b, (b < n)%nat /\ tag (cache !!! b) = tg.
Proof.
  unfold holds. rewrite existsb_exists. split.
  - intros (b & Hin & Hb). apply in_seq in Hin. apply Z.eqb_eq in Hb.
    exists b. split; [lia|exact Hb].
  - intros (b & Hlt & Hb). exists b. split; [apply in_seq; lia|].
    apply Z.eqb_eq, Hb.
Qed.

Lemma fa_holds_false tg n cache b :
  holds tg n cache = false -> (b < n)%nat -> tag (cache !!! b) <> tg.
Proof.
  intros Hf Hb E.
  assert (Ht : holds tg n cache = true) by (apply fa_holds_true; eauto).
  congruence.
Qed.

(** A tag that is held has a first block holding it. *)
Lemma fa_holds_first tg cache : forall n,
  holds tg n cache = true ->
  exists b, (b < n)%nat /\ tag (cache !!! b) = tg /\ holds tg b cache = false.
Proof.
  induction n as [|n IH]; [discriminate|].
  rewrite holds_S. destruct (holds tg n cache) eqn:Hn.
  - intros _. destruct (IH eq_refl) as (b & Hb & Ht & Hf).
    exists b. split; [lia|]. split; assumption.
  - cbn [orb]. intros E. apply Z.eqb_eq in E. exists n.
    split; [lia|]. split; assumption.
Qed.

Lemma searched_lookup tg n cache k :
  (k < length cache)%nat ->
  searched tg n cache !!! k =
    if (k <? n)%nat
    then if (tag (cache !!! k) =? tg) && negb (holds tg k cache)
         then set_lru (cache !!! k) 0
         else set_lru (cache !!! k) (wrap64 (lru (cache !!! k) + 1))
    else cache !!! k.
Proof.
  intros Hk. unfold searched.
  destruct (lookup_lt_is_Some_2 cache k Hk) as [blk E].
  rewrite (list_lookup_total_correct _ _ _ E).
  apply list_lookup_total_correct. rewrite list_lookup_imap, E. reflexivity.
Qed.

(** The allocation loop only ever points [lru_block] at a block it has
    looked at. *)
Lemma alloc_scan_block tg cache : forall n,
  let '(_, lru_block, _, _) :=
    fold_left (SIMFA_UNROLL2 tg) (seq 0 n) (cache, 0%nat, 0, false) in
  (lru_block < n \/ lru_block = 0)%nat.
Proof.
  induction n as [|n IH]; [right; reflexivity|].
  rewrite seq_S, fold_left_app.
  destruct (fold_left _ (seq 0 n) _) as [[[c' lb] ll] he].
  cbn [fold_left Nat.add SIMFA_UNROLL2].
  destruct he; [lia|].
  destruct (ll <? lru (c' !!! n)); destruct (tag (c' !!! n) =? 0); lia.
Qed.

Lemma allocate_in_range cache tg :
  exists v, (v < 512)%nat /\ allocate cache tg = <[v := mkBlock tg 0]> cache.
Proof.
  unfold allocate. rewrite unrolled8_512.
  pose proof (alloc_scan_block tg cache 512) as Hb.
  destruct (alloc_scan tg cache 512) as (c' & lb & ll & he & E & Hcase).
  rewrite E in Hb |- *.
  destruct Hcase as [(-> & v & (Hv & _) & ->) | (-> & -> & _)]; cbn [negb].
  - exists v. split; [exact Hv|reflexivity].
  - exists lb. split; [lia|reflexivity].
Qed.

(** The two outcomes of a record. *)
Lemma fa_body_shape cache h t :
  length cache = 512%nat ->
  (holds (Z.shiftr (addr t) block_id_offset) 512 cache = true /\
   body (cache, h) t
     = (searched (Z.shiftr (addr t) block_id_offset) 512 cache, wrap32 (h + 1))) \/
  (holds (Z.shiftr (addr t) block_id_offset) 512 cache = false /\
   exists v, (v < 512)%nat /\
     body (cache, h) t
       = (<[v := mkBlock (Z.shiftr (addr t) block_id_offset) 0]>
            (searched (Z.shiftr (addr t) block_id_offset) 512 cache), h)).
Proof.
  intros Hlen. unfold body. rewrite unrolled8_512, search_scan by lia.
  set (tg := Z.shiftr (addr t) block_id_offset).
  destruct (holds tg 512 cache) eqn:Hh.
  - left. split; reflexivity.
  - right. split; [reflexivity|].
    destruct (allocate_in_range (searched tg 512 cache) tg) as (v & Hv & ->).
    exists v. split; [exact Hv|reflexivity].
Qed.

Lemma fa_body_length cache h t :
  length cache = 512%nat -> length (body (cache, h) t).1 = 512%nat.
Proof.
  intros Hlen.
  destruct (fa_body_shape cache h t Hlen) as [(_ & ->)|(_ & v & _ & ->)];
    cbn [fst]; rewrite ?length_insert, searched_length; exact Hlen.
Qed.

Lemma fa_body_held cache h t :
  length cache = 512%nat ->
  holds (Z.shiftr (addr t) block_id_offset) 512 cache = true ->
  (body (cache, h) t).2 = wrap32 (h + 1).
Proof.
  intros Hlen Hh.
  destruct (fa_body_shape cache h t Hlen) as [(_ & ->)|(Hf & _)];
    [reflexivity|congruence].
Qed.

(** What one record leaves behind: a block that holds its tag with counter
    0, every other counter being at least 1. *)
Lemma fa_body_recent cache h t B :
  length cache = 512%nat -> lru_bounded B cache -> B < 2 ^ 64 - 1 ->
  exists b, (b < 512)%nat /\
    tag ((body (cache, h) t).1 !!! b) = Z.shiftr (addr t) block_id_offset /\
    lru ((body (cache, h) t).1 !!! b) = 0 /\
    forall k, (k < 512)%nat -> k <> b -> 1 <= lru ((body (cache, h) t).1 !!! k).
Proof.
  intros Hlen Hb HB. set (tg := Z.shiftr (addr t) block_id_offset).
  assert (Haged : forall k, (k < 512)%nat ->
            tag (cache !!! k) <> tg \/ holds tg k cache = true ->
            1 <= lru (searched tg 512 cache !!! k)).
  { intros k Hk Hcase. rewrite searched_lookup by lia.
    rewrite (proj2 (Nat.ltb_lt k 512)) by lia.
    pose proof (fa_lru_bounded_lookup B cache k Hb ltac:(lia)) as Hr.
    assert (E : (tag (cache !!! k) =? tg) && negb (holds tg k cache) = false).
    { destruct Hcase as [Hne| ->]; [|apply andb_false_r].
      apply Z.eqb_neq in Hne. rewrite Hne. reflexivity. }
    rewrite E. cbn [set_lru lru]. rewrite wrap64_small by lia. lia. }
  destruct (fa_body_shape cache h t Hlen) as [(Hh & ->)|(Hh & v & Hv & ->)];
    fold tg in Hh |- *; cbn [fst].
  - destruct (fa_holds_first tg cache 512 Hh) as (b & Hlt & Ht & Hf).
    exists b. split; [exact Hlt|].
    rewrite searched_tag. split; [exact Ht|]. split.
    + rewrite searched_lookup by lia.
      rewrite (proj2 (Nat.ltb_lt b 512)) by lia.
      rewrite Ht, Z.eqb_refl, Hf. reflexivity.
    + intros k Hk Hne. apply Haged; [exact Hk|].
      destruct (Z.eq_dec (tag (cache !!! k)) tg) as [Ek|Ek]; [|left; exact Ek].
      right. destruct (Nat.lt_trichotomy k b) as [Hkb|[->|Hkb]].
      * destruct (fa_holds_false tg b cache k Hf Hkb Ek).
      * contradiction.
      * apply fa_holds_true. exists b. split; assumption.
  - assert (Hl : (v < length (searched tg 512 cache))%nat)
      by (rewrite searched_length; lia).
    exists v. split; [exact Hv|].
    rewrite list_lookup_total_insert_eq by exact Hl.
    split; [reflexivity|]. split; [reflexivity|].
    intros k Hk Hne. rewrite list_lookup_total_insert_ne by auto.
    apply Haged; [exact Hk|]. left. apply (fa_holds_false tg 512 cache k Hh Hk).
Qed.

Lemma fa_body_holds cache h t :
  length cache = 512%nat ->
  holds (Z.shiftr (addr t) block_id_offset) 512 (body (cache, h) t).1 = true.
Proof.
  intros Hlen. set (tg := Z.shiftr (addr t) block_id_offset).
  destruct (fa_body_shape cache h t Hlen) as [(Hh & ->)|(Hh & v & Hv & ->)];
    fold tg in Hh |- *; cbn [fst]; apply fa_holds_true.
  - apply fa_holds_true in Hh. destruct Hh as (b & Hb & Ht).
    exists b. split; [exact Hb|]. rewrite searched_tag. exact Ht.
  - exists v. split; [exact Hv|].
    rewrite list_lookup_total_insert_eq by (rewrite searched_length; lia).
    reflexivity.
Qed.

(** A block with counter 0 among counters of at least 1 survives the next
    record, unless its tag is 0 and so reads as empty. *)
Lemma fa_body_keeps cache h t b B :
  length cache = 512%nat -> lru_bounded B cache -> B <= 2 ^ 32 - 2 ->
  (b < 512)%nat -> tag (cache !!! b) <> 0 -> lru (cache !!! b) = 0 ->
  (forall k, (k < 512)%nat -> k <> b -> 1 <= lru (cache !!! k)) ->
  tag ((body (cache, h) t).1 !!! b) = tag (cache !!! b).
Proof.
  intros Hlen Hb HB Hlt Hnz Hzero Hothers.
  set (tg := Z.shiftr (addr t) block_id_offset).
  destruct (holds tg 512 cache) eqn:Hh.
  - destruct (fa_body_shape cache h t Hlen) as [(_ & ->)|(Hf & _)];
      [|fold tg in Hf; congruence].
    cbn [fst]. apply searched_tag.
  - assert (Hb' : lru_bounded (2 ^ 32 - 2) cache).
    { unfold lru_bounded in *. eapply Forall_impl; [|exact Hb].
      cbn beta. intros blk Hr. lia. }
    destruct (fa_body_miss cache h t Hlen Hb' Hh) as (v & -> & Hv).
    fold tg in Hv |- *. cbn [fst].
    assert (Hne : v <> b).
    { intros ->. destruct Hv as [(_ & Hz & _)|(_ & _ & Hmax & _)];
        [contradiction|].
      set (k := if (b =? 0)%nat then 1%nat else 0%nat).
      assert (Hk : (k < 512)%nat /\ k <> b)
        by (unfold k; destruct (Nat.eqb_spec b 0); lia).
      specialize (Hmax k (proj1 Hk)). cbn beta in Hmax.
      rewrite !searched_lookup in Hmax by lia.
      rewrite (proj2 (Nat.ltb_lt k 512)) in Hmax by lia.
      rewrite (proj2 (Nat.ltb_lt b 512)) in Hmax by lia.
      pose proof (fa_holds_false tg 512 cache k Hh (proj1 Hk)) as Hk1.
      pose proof (fa_holds_false tg 512 cache b Hh Hlt) as Hb1.
      apply Z.eqb_neq in Hk1, Hb1. rewrite Hk1, Hb1 in Hmax.
      cbn [andb set_lru lru] in Hmax.
      pose proof (fa_lru_bounded_lookup B cache k Hb ltac:(lia)) as Hr.
      pose proof (Hothers k (proj1 Hk) (proj2 Hk)) as Hone.
      rewrite Hzero in Hmax.
      rewrite (wrap64_small (lru (cache !!! k) + 1)) in Hmax by lia.
      rewrite (wrap64_small (0 + 1)) in Hmax by lia. lia. }
    rewrite list_lookup_total_insert_ne by exact Hne.
    apply searched_tag.
Qed.

Lemma fa_body_distinct cache h t :
  length cache = 512%nat -> tags_distinct cache ->
  tags_distinct (body (cache, h) t).1.
Proof.
  intros Hlen Hd. set (tg := Z.shiftr (addr t) block_id_offset).
  destruct (fa_body_shape cache h t Hlen) as [(Hh & ->)|(Hh & v & Hv & ->)];
    fold tg in Hh |- *; cbn [fst]; intros k1 k2 H1 H2.
  - rewrite !searched_tag. apply Hd; assumption.
  - assert (Hl : (v < length (searched tg 512 cache))%nat)
      by (rewrite searched_length; lia).
    destruct (decide (k1 = v)) as [->|N1]; destruct (decide (k2 = v)) as [->|N2].
    + reflexivity.
    + rewrite list_lookup_total_insert_eq by exact Hl.
      rewrite list_lookup_total_insert_ne by auto. rewrite searched_tag.
      cbn [tag]. intros E _. symmetry in E.
      destruct (fa_holds_false tg 512 cache k2 Hh H2 E).
    + rewrite list_lookup_total_insert_eq by exact Hl.
      rewrite list_lookup_total_insert_ne by auto. rewrite searched_tag.
      cbn [tag]. intros E _.
      destruct (fa_holds_false tg 512 cache k1 Hh H1 E).
    + rewrite !list_lookup_total_insert_ne by auto. rewrite !searched_tag.
      apply Hd; assumption.
Qed.

Lemma fa_run_distinct : forall g_traces cache h,
  length cache = 512%nat -> tags_distinct cache ->
  tags_distinct (fold_left body g_traces (cache, h)).1.
Proof.
  induction g_traces as [|t rest IH]; intros cache h Hlen Hd; [exact Hd|].
  cbn [fold_left].
  pose proof (fa_body_length cache h t Hlen) as Hlen1.
  pose proof (fa_body_distinct cache h t Hlen Hd) as Hd1.
  destruct (body (cache, h) t) as [c1 h1]. apply IH; assumption.
Qed.

Lemma fa_empty_distinct : tags_distinct empty_cache.
Proof.
  intros k1 k2 H1 _ _ Hne. exfalso. apply Hne.
  unfold empty_cache. rewrite lookup_total_replicate_2 by lia. reflexivity.
Qed.

End FullyAssocState.

(** ** The exact-LRU engine: filling the cache, then line 0 *)

Section FullyAssocFill.
Import FullyAssoc FullyAssocSpec FullyAssocValid.

Lemma line_of_multiple x : Z.shiftr (32 * x) block_id_offset = x.
Proof.
  unfold block_id_offset. rewrite Z.shiftr_div_pow2 by lia.
  change (2 ^ 5) with 32. rewrite Z.mul_comm. apply Z.div_mul. lia.
Qed.

Lemma bounded_pointwise B cache :
  length cache = 512%nat ->
  (forall k, (k < 512)%nat -> 0 <= lru (cache !!! k) <= B) ->
  lru_bounded B cache.
Proof.
  intros Hl Hp. unfold lru_bounded. apply Forall_lookup. intros k blk E.
  pose proof (lookup_lt_Some _ _ _ E) as Hk.
  rewrite <- (list_lookup_total_correct _ _ _ E). apply Hp. lia.
Qed.

(** A record that misses on known contents: the scan ages every block,
    and the tag goes where the allocation puts it. *)
Lemma track_miss cache h valid t v :
  length cache = 512%nat -> length valid = 512%nat ->
  holds (Z.shiftr (addr t) block_id_offset) 512 cache = false ->
  body (cache, h) t
    = (<[v := mkBlock (Z.shiftr (addr t) block_id_offset) 0]>
         (searched (Z.shiftr (addr t) block_id_offset) 512 cache), h) ->
  (v < 512)%nat -> (0 <= lru (cache !!! v) < 2 ^ 64 - 1) ->
  exists cache' valid',
    track (cache, h, valid) t = (cache', h, valid') /\
    length cache' = 512%nat /\ length valid' = 512%nat /\
    forall k, (k < 512)%nat ->
      (0 <= lru (cache !!! k) < 2 ^ 64 - 1 ->
       cache' !!! k =
         if decide (k = v)
         then mkBlock (Z.shiftr (addr t) block_id_offset) 0
         else mkBlock (tag (cache !!! k)) (lru (cache !!! k) + 1)) /\
      valid' !!! k = (valid !!! k || bool_decide (k = v)).
Proof.
  intros Hl Hlv Hmiss Eb Hv Hvr. set (tg := Z.shiftr (addr t) block_id_offset) in *.
  unfold track. rewrite Eb.
  assert (Hls : length (searched tg 512 cache) = 512%nat)
    by (rewrite searched_length; exact Hl).
  assert (Hc : forall k, (k < 512)%nat ->
            0 <= lru (cache !!! k) < 2 ^ 64 - 1 ->
            <[v := mkBlock tg 0]> (searched tg 512 cache) !!! k =
              if decide (k = v) then mkBlock tg 0
              else mkBlock (tag (cache !!! k)) (lru (cache !!! k) + 1)).
  { intros k Hk Hr. destruct (decide (k = v)) as [->|Hne].
    - apply list_lookup_total_insert_eq. lia.
    - rewrite list_lookup_total_insert_ne by auto.
      rewrite searched_lookup by lia.
      rewrite (proj2 (Nat.ltb_lt k 512)) by lia.
      pose proof (fa_holds_false tg 512 cache k Hmiss Hk) as Hkt.
      apply Z.eqb_neq in Hkt. rewrite Hkt. cbn [andb].
      unfold set_lru. rewrite wrap64_small by lia. reflexivity. }
  do 2 eexists. split; [reflexivity|].
  split; [rewrite length_insert; exact Hls|].
  split; [rewrite length_imap; exact Hlv|].
  intros k Hk. split; [apply Hc, Hk|].
  destruct (lookup_lt_is_Some_2 valid k ltac:(lia)) as [b Eb'].
  rewrite (list_lookup_total_correct _ _ _ Eb').
  erewrite list_lookup_total_correct; [|rewrite list_lookup_imap, Eb'; reflexivity].
  f_equal. destruct (decide (k = v)) as [->|Hne].
  - rewrite bool_decide_eq_true_2 by reflexivity.
    rewrite list_lookup_total_insert_eq by lia. cbn [tag].
    pose proof (fa_holds_false tg 512 cache v Hmiss Hv) as Hkt.
    apply Z.eqb_neq in Hkt. rewrite Hkt. reflexivity.
  - rewrite bool_decide_eq_false_2 by exact Hne.
    rewrite list_lookup_total_insert_ne by auto.
    rewrite searched_tag, Z.eqb_refl. reflexivity.
Qed.

Lemma filled_facts j cache h valid :
  (j <= 512)%nat -> filled j (cache, h, valid) ->
  length cache = 512%nat /\ lru_bounded 512 cache /\
  (forall k, (k < 512)%nat -> 0 <= lru (cache !!! k) < 2 ^ 64 - 1) /\
  (forall k, (k < 512)%nat -> (k < j)%nat -> tag (cache !!! k) = Z.of_nat k + 1) /\
  (forall k, (k < 512)%nat -> (j <= k)%nat -> tag (cache !!! k) = 0).
Proof.
  intros Hj (Hl & _ & _ & Hp).
  assert (Hr : forall k, (k < 512)%nat -> 0 <= lru (cache !!! k) <= 512).
  { intros k Hk. destruct (Hp k Hk) as (-> & _).
    destruct (Nat.ltb_spec k j); cbn [lru]; lia. }
  split; [exact Hl|]. split; [apply bounded_pointwise; assumption|].
  split; [intros k Hk; specialize (Hr k Hk); lia|]. split.
  - intros k Hk Hkj. destruct (Hp k Hk) as (-> & _).
    rewrite (proj2 (Nat.ltb_lt k j)) by lia. reflexivity.
  - intros k Hk Hkj. destruct (Hp k Hk) as (-> & _).
    rewrite (proj2 (Nat.ltb_ge k j)) by lia. reflexivity.
Qed.

Lemma filled_misses j cache h valid tg :
  (j <= 512)%nat -> filled j (cache, h, valid) ->
  tg <> 0 -> ~ (1 <= tg <= Z.of_nat j) ->
  holds tg 512 cache = false.
Proof.
  intros Hj Hf Hnz Hout.
  destruct (filled_facts j cache h valid Hj Hf) as (_ & _ & _ & Hlow & Hhigh).
  destruct (holds tg 512 cache) eqn:E; [|reflexivity].
  apply fa_holds_true in E. destruct E as (b & Hb & Et).
  destruct (Nat.lt_ge_cases b j) as [Hbj|Hbj].
  - rewrite (Hlow b Hb Hbj) in Et. lia.
  - rewrite (Hhigh b Hb Hbj) in Et. congruence.
Qed.

(** One more load of [fill_trace]: the line goes to the first block that
    still has tag 0. *)
Lemma fill_step j st :
  (j < 512)%nat -> filled j st ->
  filled (S j) (track st (tr LOAD (32 * (Z.of_nat j + 1)))).
Proof.
  intros Hj Hf. destruct st as [[cache h] valid].
  destruct (filled_facts j cache h valid ltac:(lia) Hf)
    as (Hl & Hb & Hr & Hlow & Hhigh).
  pose proof Hf as (_ & Hlv & Hh & Hp).
  set (t := tr LOAD (32 * (Z.of_nat j + 1))).
  assert (Etg : Z.shiftr (addr t) block_id_offset = Z.of_nat j + 1)
    by apply line_of_multiple.
  assert (Hmiss : holds (Z.shiftr (addr t) block_id_offset) 512 cache = false).
  { rewrite Etg. apply (filled_misses j cache h valid); [lia|exact Hf|lia|lia]. }
  destruct (fa_body_miss cache h t Hl
              ltac:(apply (bounded_pointwise _ _ Hl); intros k Hk;
                    pose proof (fa_lru_bounded_lookup 512 cache k Hb ltac:(lia)); lia)
              Hmiss) as (v & Eb & Hv).
  assert (Ev : v = j).
  { destruct Hv as [(Hv512 & Hz & Hnz)|(Hne & _)].
    - destruct (Nat.lt_trichotomy v j) as [Hlt|[E|Hgt]]; [|exact E|].
      + rewrite (Hlow v Hv512 Hlt) in Hz. lia.
      + destruct (Hnz j Hgt). apply Hhigh; lia.
    - destruct (Hne j Hj). apply Hhigh; lia. }
  subst v.
  destruct (track_miss cache h valid t j Hl Hlv Hmiss Eb Hj (Hr j Hj))
    as (cache' & valid' & -> & Hl' & Hlv' & Hp').
  split; [exact Hl'|]. split; [exact Hlv'|]. split; [exact Hh|].
  intros k Hk. destruct (Hp' k Hk) as (Hc' & Hval').
  destruct (Hp k Hk) as (Hck & Hvk).
  rewrite (Hc' (Hr k Hk)), Hval', Hvk, Etg.
  destruct (decide (k = j)) as [->|Hne].
  - rewrite bool_decide_eq_true_2 by reflexivity.
    rewrite (proj2 (Nat.ltb_lt j (S j))) by lia.
    rewrite orb_true_r. split; [f_equal; lia|reflexivity].
  - rewrite bool_decide_eq_false_2 by exact Hne. rewrite orb_false_r.
    rewrite Hck.
    destruct (Nat.ltb_spec k j), (Nat.ltb_spec k (S j)); try lia;
      cbn [tag lru]; (split; [f_equal; lia|reflexivity]).
Qed.

Lemma fill_run : forall j,
  (j <= 512)%nat ->
  filled j (fold_left track (fill_trace j) (empty_cache, 0, replicate 512 false)).
Proof.
  induction j as [|j IH]; intros Hj.
  - cbn [fill_trace seq map fold_left].
    split; [reflexivity|]. split; [reflexivity|]. split; [reflexivity|].
    intros k Hk. cbn [Nat.ltb Nat.leb]. unfold empty_cache.
    rewrite !lookup_total_replicate_2 by lia. split; reflexivity.
  - unfold fill_trace in *. rewrite seq_S, map_app, fold_left_app.
    cbn [map fold_left Nat.add]. apply fill_step; [lia|]. apply IH. lia.
Qed.

(** The cache after the 512 loads of [fill_trace] and a load of line 0:
    every block is valid, block 0 holds line 0, just installed, and block
    [k] still holds line [k + 1]. *)
Lemma filled_then_line_0 :
  exists cache valid,
    fold_left track (fill_trace 512 ++ [tr LOAD 0])
      (empty_cache, 0, replicate 512 false) = (cache, 0, valid) /\
    length cache = 512%nat /\
    (forall k, (k < 512)%nat -> valid !!! k = true) /\
    cache !!! 0%nat = mkBlock 0 0 /\
    (forall k, (1 <= k < 512)%nat ->
       cache !!! k = mkBlock (Z.of_nat k + 1) (512 - Z.of_nat k)).
Proof.
  rewrite fold_left_app. cbn [fold_left].
  pose proof (fill_run 512 ltac:(lia)) as Hf.
  destruct (fold_left track (fill_trace 512) _) as [[cache h] valid].
  destruct (filled_facts 512 cache h valid ltac:(lia) Hf)
    as (Hl & Hb & Hr & Hlow & _).
  pose proof Hf as (_ & Hlv & -> & Hp).
  set (t := tr LOAD 0).
  assert (Hmiss : holds (Z.shiftr (addr t) block_id_offset) 512 cache = false).
  { change (Z.shiftr (addr t) block_id_offset) with 0.
    destruct (holds 0 512 cache) eqn:E; [|reflexivity].
    apply fa_holds_true in E. destruct E as (b & Hb' & Et).
    rewrite (Hlow b Hb' Hb') in Et. lia. }
  destruct (fa_body_miss cache 0 t Hl
              ltac:(apply (bounded_pointwise _ _ Hl); intros k Hk;
                    pose proof (fa_lru_bounded_lookup 512 cache k Hb ltac:(lia)); lia)
              Hmiss) as (v & Eb & Hv).
  assert (Ev : v = 0%nat).
  { destruct Hv as [(Hv512 & Hz & _)|(_ & _ & Hmax & _)].
    - rewrite (Hlow v Hv512 Hv512) in Hz. lia.
    - destruct (decide (v = 0%nat)) as [E|Hne]; [exact E|exfalso].
      assert (Hv512 : (v < 512)%nat).
      { destruct (Nat.lt_ge_cases v 512) as [H|H]; [exact H|exfalso].
        specialize (Hmax 0%nat ltac:(lia)). cbn beta in Hmax.
        rewrite (searched_ge _ 512 cache v H) in Hmax.
        rewrite searched_lookup in Hmax by lia.
        rewrite (proj2 (Nat.ltb_lt 0 512)) in Hmax by lia.
        pose proof (fa_holds_false _ 512 cache 0%nat Hmiss ltac:(lia)) as H0.
        apply Z.eqb_neq in H0. rewrite H0 in Hmax. cbn [andb set_lru lru] in Hmax.
        destruct (Hp 0%nat ltac:(lia)) as (E0 & _). rewrite E0 in Hmax.
        cbn [Nat.ltb Nat.leb lru] in Hmax.
        rewrite wrap64_small in Hmax by (cbn; lia).
        rewrite list_lookup_total_alt, lookup_ge_None_2 in Hmax by lia.
        cbn in Hmax. lia. }
      specialize (Hmax 0%nat ltac:(lia)). cbn beta in Hmax.
      rewrite !searched_lookup in Hmax by lia.
      rewrite (proj2 (Nat.ltb_lt 0 512)) in Hmax by lia.
      rewrite (proj2 (Nat.ltb_lt v 512)) in Hmax by lia.
      pose proof (fa_holds_false _ 512 cache 0%nat Hmiss ltac:(lia)) as H0.
      pose proof (fa_holds_false _ 512 cache v Hmiss Hv512) as H1.
      apply Z.eqb_neq in H0, H1. rewrite H0, H1 in Hmax.
      cbn [andb set_lru lru] in Hmax.
      destruct (Hp 0%nat ltac:(lia)) as (E0 & _).
      destruct (Hp v Hv512) as (E1 & _). rewrite E0, E1 in Hmax.
      rewrite (proj2 (Nat.ltb_lt 0 512)) in Hmax by lia.
      rewrite (proj2 (Nat.ltb_lt v 512)) in Hmax by lia.
      cbn [lru] in Hmax. rewrite !wrap64_small in Hmax by lia. lia. }
  subst v.
  destruct (track_miss cache 0 valid t 0%nat Hl Hlv Hmiss Eb ltac:(lia)
              (Hr 0%nat ltac:(lia)))
    as (cache' & valid' & -> & Hl' & Hlv' & Hp').
  exists cache', valid'. split; [reflexivity|]. split; [exact Hl'|].
  split; [|split].
  - intros k Hk. destruct (Hp' k Hk) as (_ & ->).
    destruct (Hp k Hk) as (_ & ->).
    rewrite (proj2 (Nat.ltb_lt k 512)) by lia. reflexivity.
  - destruct (Hp' 0%nat ltac:(lia)) as (Hc & _).
    rewrite (Hc (Hr 0%nat ltac:(lia))). reflexivity.
  - intros k Hk. destruct (Hp' k ltac:(lia)) as (Hc & _).
    rewrite (Hc (Hr k ltac:(lia))).
    destruct (decide (k = 0%nat)) as [->|_]; [lia|].
    destruct (Hp k ltac:(lia)) as (-> & _).
    rewrite (proj2 (Nat.ltb_lt k 512)) by lia. cbn [tag lru]. f_equal. lia.
Qed.

End FullyAssocFill.

(** * Part IV: the specification, sentence by sentence *)

Section Claims.
Import SetAssoc SetAssocSpec PolicySpec.

(** C1 (as the specification states it: refuted).  The worked scenario, a
    16 KB direct-mapped cache replaying [Load 0x0, Load 0x0, Load 0x20,
    Load 0x0] from the empty cache, is said to report hits = 1 and
    accesses = 4.  The engine does not report that. *)
Lemma worked_scenario_not_one_hit :
  ~ exists r,
      sim_set_associative worked_config worked_trace = Some r /\
      hits r = 1 /\ accesses r = 4.
Proof.
  intros (r & E & Hh & _). vm_compute in E. injection E as <-.
  simpl in Hh. discriminate Hh.
Qed.

(** C1 (amended).  In the worked scenario 0x0 goes to set 0 and 0x20 to
    set 1, both with tag 0 (index bits 5..13, tag [addr >> 10]); every slot
    of the empty cache already holds tag 0 and the direct-mapped branch
    compares tags only, so all four accesses count as hits: hits = 4 and
    accesses = 4.  The last [Load 0x0] is a hit: three hits are counted
    before it and four after. *)
Theorem worked_scenario_direct_mapped :
  sim_set_associative worked_config worked_trace
    = Some (mkThreadInfo 4 4 16 1 OPTION_NONE) /\
  decompose worked_config 0 = (0, 0) /\
  decompose worked_config 32 = (1, 0) /\
  sim_set_associative worked_config [tr LOAD 0; tr LOAD 0; tr LOAD 32]
    = Some (mkThreadInfo 3 3 16 1 OPTION_NONE).
Proof. repeat split; vm_compute; reflexivity. Qed.

(** C2.  For each engine, after a full replay that starts with a zeroed
    hit counter, [accesses] is the length of the trace and [hits] is at
    most [accesses].  The set-associative engine (direct-mapped included)
    is run on a configuration it has room for, with any policy. *)
Theorem accesses_is_length_and_bounds_hits (i : ThreadInfo) (g_traces : list Trace) :
  hits i = 0 ->
  (valid_config i ->
   exists r, sim_set_associative i g_traces = Some r /\
             accesses r = Z.of_nat (length g_traces) /\
             0 <= hits r <= accesses r) /\
  (accesses (FullyAssoc.sim_fully_associative i g_traces) = Z.of_nat (length g_traces) /\
   0 <= hits (FullyAssoc.sim_fully_associative i g_traces)
     <= accesses (FullyAssoc.sim_fully_associative i g_traces)) /\
  (accesses (PseudoLRU.sim_fully_associative_pseudo i g_traces) = Z.of_nat (length g_traces) /\
   0 <= hits (PseudoLRU.sim_fully_associative_pseudo i g_traces)
     <= accesses (PseudoLRU.sim_fully_associative_pseudo i g_traces)).
Proof.
  intros H0. split; [|split].
  - intros Hc. unfold sim_set_associative.
    rewrite bool_decide_eq_true_2 by apply Hc.
    destruct (run_invariant (set_accesses i (Z.of_nat (length g_traces)))
                Hc g_traces empty_cache (hits i) 0
                empty_cache_wf ltac:(lia) empty_cache_bounded)
      as (c & h & E & _ & _ & Hh).
    cbn [hits set_accesses]. rewrite E. simpl.
    eexists. split; [reflexivity|]. simpl. split; [reflexivity|]. lia.
  - unfold FullyAssoc.sim_fully_associative.
    destruct (fa_run_invariant g_traces FullyAssoc.empty_cache (hits i) 0
                eq_refl ltac:(lia) fa_empty_bounded)
      as (c & h & E & _ & _ & Hh).
    cbn [hits set_accesses]. rewrite E. simpl. split; [reflexivity|]. lia.
  - unfold PseudoLRU.sim_fully_associative_pseudo.
    pose proof (plru_run_hits g_traces PseudoLRU.empty_cache (hits i) ltac:(lia)) as Hh.
    cbn [hits set_accesses].
    destruct (fold_left PseudoLRU.body g_traces (PseudoLRU.empty_cache, hits i)) as [c h].
    simpl in *. split; [reflexivity|]. lia.
Qed.

Lemma accesses_is_length_and_bounds_hits_witness :
  (exists r, sim_set_associative worked_config worked_trace = Some r /\
             accesses r = 4 /\ 0 <= hits r <= accesses r).
Proof.
  destruct (accesses_is_length_and_bounds_hits worked_config worked_trace eq_refl)
    as [H _].
  apply H. unfold valid_config, worked_config. simpl. lia.
Defined.

(** C3.  On the empty cache the first access to an address whose tag is 0
    counts as a hit in each engine: the slots are zero-initialised and the
    hit test compares the stored tag, no valid flag being read.  The tag is
    the one the engine computes: [decompose] for the direct-mapped and
    multi-way branches, [addr >> 5] for the two fully-associative
    engines. *)
Theorem first_access_with_tag_0_hits (i : ThreadInfo) (t : Trace) :
  hits i = 0 ->
  (valid_config i -> (decompose i (addr t)).2 = 0 ->
   exists r, sim_set_associative i [t] = Some r /\ hits r = 1) /\
  (Z.shiftr (addr t) block_id_offset = 0 ->
   hits (FullyAssoc.sim_fully_associative i [t]) = 1) /\
  (Z.shiftr (addr t) block_id_offset = 0 ->
   hits (PseudoLRU.sim_fully_associative_pseudo i [t]) = 1).
Proof.
  intros H0. split; [|split].
  - intros Hc Htag. unfold sim_set_associative.
    rewrite bool_decide_eq_true_2 by apply Hc.
    set (i' := set_accesses i (Z.of_nat (length [t]))).
    assert (Hc' : valid_config i') by exact Hc.
    change (decompose i (addr t)) with (decompose i' (addr t)) in Htag.
    cbn [for_traces]. change (hits i') with (hits i). rewrite H0.
    destruct (Z.eq_dec (ways i') 1) as [Hw|Hw].
    + unfold body.
      pose proof (decompose_index_range i' (addr t) Hc') as Hix.
      destruct (decompose i' (addr t)) as [set_ix tag]. cbn [fst snd] in *. subst tag.
      rewrite (proj2 (Z.eqb_eq _ _) Hw).
      rewrite empty_cache_lookup by exact Hix. cbn [mbind option_bind].
      rewrite empty_set_tag by lia. cbn [Z.eqb].
      eexists. split; reflexivity.
    + destruct (body_multiway_hits i' empty_cache 0 t Hc' Hw empty_cache_wf)
        as (s & c' & Hs & ->).
      rewrite empty_cache_lookup in Hs by (apply decompose_index_range, Hc').
      injection Hs as <-.
      rewrite do_empty_set by (destruct Hc' as [? _]; fold i'; lia).
      rewrite Htag. cbn [mbind option_bind].
      eexists. split; reflexivity.
  - intros Htag. unfold FullyAssoc.sim_fully_associative.
    cbn [fold_left hits set_accesses]. rewrite H0.
    unfold FullyAssoc.body. rewrite Htag, unrolled8_512, search_scan by reflexivity.
    replace (FullyAssocSpec.holds 0 512 FullyAssoc.empty_cache) with true
      by (vm_compute; reflexivity).
    reflexivity.
  - intros Htag. unfold PseudoLRU.sim_fully_associative_pseudo.
    cbn [fold_left hits set_accesses]. rewrite H0.
    rewrite (plru_body_hit _ _ _ 511%nat)
      by (rewrite Htag; vm_compute; reflexivity).
    reflexivity.
Qed.

Lemma first_access_with_tag_0_hits_witness :
  (exists r, sim_set_associative (mkThreadInfo 0 0 16 4 OPTION_PREFETCH_ALWAYS)
               [tr STORE 4000] = Some r /\ hits r = 1) /\
  hits (FullyAssoc.sim_fully_associative worked_config [tr LOAD 17]) = 1 /\
  hits (PseudoLRU.sim_fully_associative_pseudo worked_config [tr LOAD 17]) = 1.
Proof.
  split; [|split].
  - apply (first_access_with_tag_0_hits
             (mkThreadInfo 0 0 16 4 OPTION_PREFETCH_ALWAYS) (tr STORE 4000) eq_refl).
    + unfold valid_config. simpl. lia.
    + vm_compute. reflexivity.
  - apply (first_access_with_tag_0_hits worked_config (tr LOAD 17) eq_refl).
    reflexivity.
  - apply (first_access_with_tag_0_hits worked_config (tr LOAD 17) eq_refl).
    reflexivity.
Defined.

(** C4 (as the specification states it: refuted).  For every size and
    number of ways the engine is said to decompose an address with
    numSets = totalSizeBytes / (32 x ways).  A 16 KB direct-mapped cache
    gives address 0x400 the tag 1, where that formula gives 0; a 32 KB
    2-way cache gives address 0x2000 the index 0, where it gives 256. *)
Lemma decompose_is_not_spec_decompose :
  decompose (mkThreadInfo 0 0 16 1 OPTION_NONE) 1024
    <> DecomposerSpec.spec_decompose 1024 (DecomposerSpec.spec_numSets 16 1) /\
  decompose (mkThreadInfo 0 0 32 2 OPTION_NONE) 8192
    <> DecomposerSpec.spec_decompose 8192 (DecomposerSpec.spec_numSets 32 2).
Proof. split; vm_compute; discriminate. Qed.

(** C4 (amended).  With 2, 4, 8 or 16 ways the engine is a 16 KB cache
    whatever the configured size is: numSets = 16384 / (32 x ways),
    index = (address >> 5) & (numSets - 1) and
    tag = address >> (5 + log2 numSets).  Direct-mapped (ways = 1), with a
    size of 1, 2, 4, 8, 16 or 32 KB, the index is
    (address >> 5) & (numSets - 1) for numSets = totalSizeBytes / 32, and
    the tag is address >> 10. *)
Theorem decompose_as_built (i : ThreadInfo) (a : Z) :
  (In (ways i) [2; 4; 8; 16] ->
   decompose i a
     = DecomposerSpec.spec_decompose a (DecomposerSpec.spec_numSets 16 (ways i))) /\
  (ways i = 1 -> In (kb i) [1; 2; 4; 8; 16; 32] ->
   decompose i a
     = ((DecomposerSpec.spec_decompose a (DecomposerSpec.spec_numSets (kb i) 1)).1,
        Z.shiftr a 10)).
Proof.
  unfold decompose, mask, log, sets,
    DecomposerSpec.spec_decompose, DecomposerSpec.spec_numSets.
  split.
  - intros Hw. cbn [In] in Hw.
    destruct Hw as [Hw|[Hw|[Hw|[Hw|[]]]]]; rewrite <- Hw; cbn [Z.eqb Pos.eqb];
      (apply (f_equal2 pair);
       [apply (f_equal2 Z.land); [reflexivity|]
       |apply (f_equal2 Z.shiftr); [reflexivity|]];
       vm_compute; reflexivity).
  - intros Hw Hkb. rewrite Hw. cbn [Z.eqb Pos.eqb fst]. cbn [In] in Hkb.
    destruct Hkb as [Hk|[Hk|[Hk|[Hk|[Hk|[Hk|[]]]]]]]; rewrite <- Hk;
      (apply (f_equal2 pair); [|reflexivity];
       apply (f_equal2 Z.land); [reflexivity|];
       vm_compute; reflexivity).
Qed.

Lemma decompose_as_built_witness :
  decompose (mkThreadInfo 0 0 32 2 OPTION_NONE) 8192 = (0, 1) /\
  decompose (mkThreadInfo 0 0 16 1 OPTION_NONE) 1024 = (32, 1).
Proof.
  split.
  - rewrite (proj1 (decompose_as_built (mkThreadInfo 0 0 32 2 OPTION_NONE) 8192)).
    + vm_compute. reflexivity.
    + simpl. left. reflexivity.
  - rewrite (proj2 (decompose_as_built (mkThreadInfo 0 0 16 1 OPTION_NONE) 1024)).
    + vm_compute. reflexivity.
    + reflexivity.
    + simpl. do 4 right. left. reflexivity.
Defined.

(** C5.  With 2 to 16 ways, take the cache as a run has left it when it
    reaches a record, or as it stands between the real access of that
    record and its prefetch.  In every set, a miss that allocates puts the
    tag in the first way in scan order that is not valid; only when all
    the ways are valid does it replace the way with the largest recency
    counter, the lowest such way on a tie.  The way gets the tag, counter
    0 and the valid flag ([place]); the other ways keep theirs.  The trace
    fits [g_traces], so no counter outgrows the 32-bit [lru_largest]. *)
Theorem allocation_prefers_invalid_then_lru
    (i : ThreadInfo) (g_traces : list Trace) (h0 h : Z) (cache c : list set)
    (t : Trace) (set_ix : nat) (s : set) (tag : Z) :
  2 <= ways i <= 16 ->
  Z.of_nat (length g_traces) < g_traces_capacity ->
  for_traces (body i) g_traces (empty_cache, h0) = Some (cache, h) ->
  (c = cache \/
   exists hit, access i cache (addr t) (store_no_allocate (options i) t) = Some (c, hit)) ->
  c !! set_ix = Some s ->
  holds tag (Z.to_nat (ways i)) s = false ->
  exists v,
    sim_set_associative_do s tag (Z.to_nat (ways i)) false
      = (place (scanned tag (Z.to_nat (ways i)) s) v tag, false) /\
    (is_first_invalid s (Z.to_nat (ways i)) v \/
     (all_valid s (Z.to_nat (ways i)) /\
      is_first_max (fun w => lru (scanned tag (Z.to_nat (ways i)) s) !!! w)
        (Z.to_nat (ways i)) v)).
Proof.
  intros Hw Hlen Hrun Hc Hs Hmiss.
  assert (Hcfg : valid_config i) by (split; lia).
  destruct (run_invariant i Hcfg g_traces empty_cache h0 0
              empty_cache_wf ltac:(lia) empty_cache_bounded)
    as (cache' & h' & E & Hwf & Hb & _).
  rewrite Hrun in E. injection E as <- <-.
  unfold g_traces_capacity in Hlen.
  assert (Hgood : wf_cache c /\ Forall (lru_bounded (2 ^ 32 - 2)) c).
  { destruct Hc as [->|(hit & Hacc)].
    - split; [exact Hwf|].
      eapply Forall_impl; [|exact Hb]. intros x. apply lru_bounded_mono. lia.
    - unfold access in Hacc.
      pose proof (decompose_index_range i (addr t) Hcfg) as Hix.
      destruct (decompose i (addr t)) as [ix tg]. cbn [fst] in Hix.
      destruct (do_at_step cache ix tg (Z.to_nat (ways i))
                  (store_no_allocate (options i) t)
                  (0 + 2 * Z.of_nat (length g_traces)) Hwf Hix ltac:(lia) Hb)
        as (s1 & _ & E1 & Hwf1 & Hb1).
      rewrite E1 in Hacc. injection Hacc as <- _.
      split; [exact Hwf1|].
      eapply Forall_impl; [|exact Hb1]. intros x. apply lru_bounded_mono. lia. }
  destruct Hgood as ((_ & Hwfs) & Hbs).
  rewrite Forall_lookup in Hwfs, Hbs.
  apply do_miss_allocates; [eapply Hwfs, Hs|lia|eapply Hbs, Hs|exact Hmiss].
Qed.

Lemma allocation_prefers_invalid_then_lru_witness :
  exists v,
    sim_set_associative_do set_after_one_load 2 2 false
      = (place (scanned 2 2 set_after_one_load) v 2, false) /\
    (is_first_invalid set_after_one_load 2 v \/
     (all_valid set_after_one_load 2 /\
      is_first_max (fun w => lru (scanned 2 2 set_after_one_load) !!! w) 2 v)).
Proof.
  apply (allocation_prefers_invalid_then_lru two_way_config [tr LOAD 8192] 0 0
           cache_after_one_load cache_after_one_load (tr LOAD 16384) 0
           set_after_one_load 2).
  - simpl. lia.
  - vm_compute. reflexivity.
  - vm_compute. reflexivity.
  - left. reflexivity.
  - reflexivity.
  - vm_compute. reflexivity.
Defined.

(** C6 (as the specification states it: refuted).  A miss is said to
    evict the block with the largest recency counter when no block is
    invalid.  Replay loads of the lines 1 to 512 and then of line 0, with
    the valid flags of the specification kept beside the run: no record
    hits, every block becomes valid, and block 0 holds line 0, installed
    last.  The next record, a load of line 600, misses.  After its scan
    block 0 has the smallest counter, 1, and block 1 the largest, 512; the
    engine overwrites block 0, so that line 0 is no longer held. *)
Lemma fully_associative_evicts_line_just_used :
  exists cache valid,
    fold_left FullyAssocValid.track
      (FullyAssocValid.fill_trace 512 ++ [tr LOAD 0])
      (FullyAssoc.empty_cache, 0, replicate 512 false) = (cache, 0, valid) /\
    (forall k, (k < 512)%nat -> valid !!! k = true) /\
    FullyAssoc.tag (cache !!! 0%nat) = 0 /\
    FullyAssocSpec.holds 600 512 cache = false /\
    FullyAssoc.body (cache, 0) (tr LOAD 19200)
      = (<[0%nat := FullyAssoc.mkBlock 600 0]>
           (FullyAssocSpec.searched 600 512 cache), 0) /\
    FullyAssoc.lru (FullyAssocSpec.searched 600 512 cache !!! 0%nat) = 1 /\
    FullyAssoc.lru (FullyAssocSpec.searched 600 512 cache !!! 1%nat) = 512 /\
    ~ is_first_max
        (fun k => FullyAssoc.lru (FullyAssocSpec.searched 600 512 cache !!! k))
        512 0 /\
    FullyAssocSpec.holds 0 512
      (<[0%nat := FullyAssoc.mkBlock 600 0]>
         (FullyAssocSpec.searched 600 512 cache)) = false.
Proof.
  destruct filled_then_line_0 as (cache & valid & Erun & Hl & Hval & E0 & Hrest).
  exists cache, valid. split; [exact Erun|]. split; [exact Hval|].
  split; [rewrite E0; reflexivity|].
  assert (Htags : forall k, (k < 512)%nat ->
            FullyAssoc.tag (cache !!! k)
              = if decide (k = 0%nat) then 0 else Z.of_nat k + 1).
  { intros k Hk. destruct (decide (k = 0%nat)) as [->|Hne].
    - rewrite E0. reflexivity.
    - rewrite (Hrest k) by lia. reflexivity. }
  assert (Hmiss : FullyAssocSpec.holds 600 512 cache = false).
  { destruct (FullyAssocSpec.holds 600 512 cache) eqn:E; [|reflexivity].
    apply fa_holds_true in E. destruct E as (b & Hb & Et).
    rewrite (Htags b Hb) in Et. destruct (decide (b = 0%nat)); lia. }
  split; [exact Hmiss|].
  assert (Hb : FullyAssocSpec.lru_bounded (2 ^ 32 - 2) cache).
  { apply (bounded_pointwise _ _ Hl). intros k Hk.
    destruct (decide (k = 0%nat)) as [->|Hne].
    - rewrite E0. cbn. lia.
    - rewrite (Hrest k) by lia. cbn [FullyAssoc.lru]. lia. }
  assert (Haged : forall k, (k < 512)%nat ->
            FullyAssoc.lru (FullyAssocSpec.searched 600 512 cache !!! k)
              = FullyAssoc.lru (cache !!! k) + 1).
  { intros k Hk. rewrite searched_lookup by lia.
    rewrite (proj2 (Nat.ltb_lt k 512)) by lia.
    pose proof (fa_holds_false 600 512 cache k Hmiss Hk) as Hkt.
    apply Z.eqb_neq in Hkt. rewrite Hkt. cbn [andb].
    unfold FullyAssoc.set_lru. cbn [FullyAssoc.lru].
    pose proof (fa_lru_bounded_lookup _ cache k Hb ltac:(lia)).
    apply wrap64_small. lia. }
  assert (H0 : FullyAssoc.lru (FullyAssocSpec.searched 600 512 cache !!! 0%nat) = 1).
  { rewrite Haged by lia. rewrite E0. reflexivity. }
  assert (H1 : FullyAssoc.lru (FullyAssocSpec.searched 600 512 cache !!! 1%nat) = 512).
  { rewrite Haged by lia. rewrite (Hrest 1%nat) by lia. reflexivity. }
  destruct (fa_body_miss cache 0 (tr LOAD 19200) Hl Hb Hmiss) as (v & Eb & Hv).
  change (Z.shiftr (addr (tr LOAD 19200)) block_id_offset) with 600 in Eb, Hv.
  assert (Ev : v = 0%nat).
  { destruct Hv as [(_ & _ & Hnz)|(Hne & _)].
    - destruct (decide (v = 0%nat)) as [E|Hne]; [exact E|].
      destruct (Hnz 0%nat ltac:(lia)). rewrite E0. reflexivity.
    - destruct (Hne 0%nat ltac:(lia)). rewrite E0. reflexivity. }
  subst v. split; [exact Eb|]. split; [exact H0|]. split; [exact H1|]. split.
  - intros (_ & Hmax & _). specialize (Hmax 1%nat ltac:(lia)). cbn beta in Hmax.
    rewrite H0, H1 in Hmax. lia.
  - destruct (FullyAssocSpec.holds 0 512 _) eqn:E; [|reflexivity].
    apply fa_holds_true in E. destruct E as (b & Hb' & Et).
    destruct (decide (b = 0%nat)) as [->|Hne].
    + rewrite list_lookup_total_insert_eq in Et
        by (rewrite searched_length; lia).
      discriminate Et.
    + rewrite list_lookup_total_insert_ne in Et by auto.
      rewrite searched_tag, (Htags b Hb') in Et.
      destruct (decide (b = 0%nat)); lia.
Qed.

(** C6 (amended).  In the exact-LRU fully-associative engine, take the
    cache as a run has left it when it reaches a record that misses.  The
    tag goes, with counter 0, into the first block in scan order whose tag
    is 0; if no block has tag 0, into the block with the largest recency
    counter, the lowest such block on a tie.  The engine keeps no valid
    flag: the test of line 199 takes a block for empty when its tag is 0,
    be it a block never written or a block that caches line 0. *)
Theorem fully_associative_allocation
    (g_traces : list Trace) (h0 h : Z)
    (cache : list FullyAssoc.block) (t : Trace) :
  Z.of_nat (length g_traces) < g_traces_capacity ->
  fold_left FullyAssoc.body g_traces (FullyAssoc.empty_cache, h0) = (cache, h) ->
  FullyAssocSpec.holds (Z.shiftr (addr t) block_id_offset) 512 cache = false ->
  exists v,
    FullyAssoc.body (cache, h) t
      = (<[v := FullyAssoc.mkBlock (Z.shiftr (addr t) block_id_offset) 0]>
           (FullyAssocSpec.searched (Z.shiftr (addr t) block_id_offset) 512 cache), h) /\
    (FullyAssocSpec.is_first_empty cache 512 v \/
     (FullyAssocSpec.none_empty cache 512 /\
      is_first_max
        (fun k => FullyAssoc.lru
                    (FullyAssocSpec.searched (Z.shiftr (addr t) block_id_offset)
                       512 cache !!! k))
        512 v)).
Proof.
  intros Hlen Hrun Hmiss.
  destruct (fa_run_invariant g_traces FullyAssoc.empty_cache h0 0
              eq_refl ltac:(lia) fa_empty_bounded)
    as (cache' & h' & E & Hl & Hb & _).
  rewrite Hrun in E. injection E as <- <-.
  unfold g_traces_capacity in Hlen.
  apply fa_body_miss; [exact Hl| |exact Hmiss].
  eapply Forall_impl; [|exact Hb]. intros blk Hblk. simpl in Hblk. lia.
Qed.

Lemma fully_associative_allocation_witness :
  exists v,
    FullyAssoc.body (blocks_after_one_load, 0) (tr LOAD 64)
      = (<[v := FullyAssoc.mkBlock 2 0]>
           (FullyAssocSpec.searched 2 512 blocks_after_one_load), 0) /\
    (FullyAssocSpec.is_first_empty blocks_after_one_load 512 v \/
     (FullyAssocSpec.none_empty blocks_after_one_load 512 /\
      is_first_max
        (fun k => FullyAssoc.lru
                    (FullyAssocSpec.searched 2 512 blocks_after_one_load !!! k))
        512 v)).
Proof.
  apply (fully_associative_allocation [tr LOAD 32] 0 0
           blocks_after_one_load (tr LOAD 64)).
  - vm_compute. reflexivity.
  - vm_compute. reflexivity.
  - vm_compute. reflexivity.
Defined.

(** C7.  In the pseudo-LRU engine, on any tree [c]:

    - when some leaf holds the tag, the record is a hit at the first such
      leaf [block] in scan order; every node [x] on the way from that leaf
      up has the bit of its parent set to [away_from x], which marks the
      sibling of [x] as the stale side; the parents updated go up to the
      root, and no other entry changes;
    - when no leaf holds the tag, the record is a miss and installs the
      tag at the leaf [stale_leaf 511 0 c], the one reached from the root
      by moving, at each node, to the child its bit marks as stale; each
      node on that path has its bit flipped, so that it marks the other
      child as stale; no other entry changes. *)
Theorem pseudo_lru_hit_and_miss (c : list Z) (h : Z) (t : Trace) :
  length c = 1024%nat ->
  (forall block,
     PseudoLRUSpec.is_leaf block ->
     c !!! block = Z.shiftr (addr t) block_id_offset ->
     (forall b, PseudoLRUSpec.is_leaf b -> (b < block)%nat ->
        c !!! b <> Z.shiftr (addr t) block_id_offset) ->
     exists c',
       PseudoLRU.body (c, h) t = (c', wrap32 (h + 1)) /\
       (forall x, In x (PseudoLRUSpec.path_up block block) ->
          c' !!! PseudoLRUSpec.parent x = PseudoLRUSpec.away_from x /\
          PseudoLRUSpec.stale_child (PseudoLRUSpec.parent x)
            (c' !!! PseudoLRUSpec.parent x) <> x) /\
       In 0%nat (map PseudoLRUSpec.parent (PseudoLRUSpec.path_up block block)) /\
       (forall k,
          (forall x, In x (PseudoLRUSpec.path_up block block) ->
             PseudoLRUSpec.parent x <> k) ->
          c' !!! k = c !!! k)) /\
  ((forall b, PseudoLRUSpec.is_leaf b ->
      c !!! b <> Z.shiftr (addr t) block_id_offset) ->
   PseudoLRUSpec.is_leaf (PseudoLRUSpec.stale_leaf 511 0 c) /\
   exists c',
     PseudoLRU.body (c, h) t = (c', h) /\
     c' !!! PseudoLRUSpec.stale_leaf 511 0 c = Z.shiftr (addr t) block_id_offset /\
     (forall x, In x (PseudoLRUSpec.stale_path 511 0 c) ->
        c' !!! x = PseudoLRUSpec.flip (c !!! x) /\
        PseudoLRUSpec.stale_child x (c' !!! x)
          <> PseudoLRUSpec.stale_child x (c !!! x)) /\
     (forall k,
        k <> PseudoLRUSpec.stale_leaf 511 0 c ->
        ~ In k (PseudoLRUSpec.stale_path 511 0 c) ->
        c' !!! k = c !!! k)).
Proof.
  intros Hlen. split.
  - intros block Hleaf Htag Hfirst.
    pose proof (find_block_hit c _ block Hleaf Htag Hfirst) as Hfind.
    unfold PseudoLRUSpec.is_leaf in Hleaf.
    rewrite (plru_body_hit _ _ _ _ Hfind).
    destruct (walk_up_spec block block c ltac:(lia) ltac:(lia))
      as (_ & Hpath & Hframe).
    eexists. split; [reflexivity|]. split; [|split].
    + intros x Hx. rewrite (Hpath x Hx). split; [reflexivity|].
      apply away_from_stale. apply path_up_pos in Hx. lia.
    + apply path_up_reaches_root. lia.
    + exact Hframe.
  - intros Hnone. pose proof (find_block_miss c _ Hnone) as Hfind.
    rewrite (plru_body_miss _ _ _ Hfind).
    pose proof (stale_leaf_is_leaf 511 0 c ltac:(lia) ltac:(lia)) as Hleaf.
    destruct (descend_spec 511 0 c ltac:(lia)) as (El & Hpath & Hframe).
    pose proof (descend_length 511 0 c) as Hl.
    rewrite El. split; [exact Hleaf|].
    eexists. split; [reflexivity|]. split; [|split].
    + apply list_lookup_total_insert_eq. lia.
    + intros x Hx.
      assert (Hx' : (0 <= x < 511)%nat) by (eapply stale_path_ge, Hx).
      rewrite list_lookup_total_insert_ne by lia.
      rewrite (Hpath x Hx). split; [reflexivity|]. apply flip_stale.
    + intros k Hk Hnin.
      rewrite list_lookup_total_insert_ne by (intros E; apply Hk; symmetry; exact E).
      apply Hframe, Hnin.
Qed.

Lemma pseudo_lru_hit_and_miss_witness :
  (exists c',
     PseudoLRU.body (<[600%nat := 7]> PseudoLRU.empty_cache, 0) (tr LOAD 224)
       = (c', wrap32 (0 + 1)) /\
     (forall x, In x (PseudoLRUSpec.path_up 600 600) ->
        c' !!! PseudoLRUSpec.parent x = PseudoLRUSpec.away_from x)) /\
  (PseudoLRUSpec.is_leaf (PseudoLRUSpec.stale_leaf 511 0 PseudoLRU.empty_cache) /\
   exists c',
     PseudoLRU.body (PseudoLRU.empty_cache, 0) (tr LOAD 32) = (c', 0) /\
     c' !!! PseudoLRUSpec.stale_leaf 511 0 PseudoLRU.empty_cache = 1).
Proof.
  split.
  - destruct (pseudo_lru_hit_and_miss (<[600%nat := 7]> PseudoLRU.empty_cache) 0
                (tr LOAD 224)) as [Hhit _]; [reflexivity|].
    destruct (Hhit 600%nat) as (c' & Hb & Hpath & _).
    + unfold PseudoLRUSpec.is_leaf. lia.
    + reflexivity.
    + intros b Hb Hlt. unfold PseudoLRUSpec.is_leaf in Hb.
      rewrite list_lookup_total_insert_ne by lia.
      unfold PseudoLRU.empty_cache. rewrite lookup_total_replicate_2 by lia.
      discriminate.
    + exists c'. split; [exact Hb|]. intros x Hx. apply Hpath, Hx.
  - destruct (pseudo_lru_hit_and_miss PseudoLRU.empty_cache 0 (tr LOAD 32) eq_refl)
      as [_ Hmiss].
    destruct Hmiss as (Hleaf & c' & Hb & Ht & _).
    + intros b Hb. unfold PseudoLRUSpec.is_leaf in Hb.
      unfold PseudoLRU.empty_cache. rewrite lookup_total_replicate_2 by lia.
      discriminate.
    + split; [exact Hleaf|]. exists c'. split; [exact Hb|exact Ht].
Defined.

(** C8 (as the specification states it: refuted).  Under the
    no-write-allocate policy a store that misses is said to leave every
    tag as it was, so that [Store A; Load A] on the empty cache misses
    twice.  Direct-mapped (one way), under [OPTION_WRITE_ON_MISS], the
    store of address 0x2000 misses (no hit is counted) and writes its tag,
    8, into way 0 of set 256; the load that follows is a hit. *)
Lemma direct_mapped_store_miss_allocates :
  body (mkThreadInfo 0 0 16 1 OPTION_WRITE_ON_MISS) (empty_cache, 0)
       (tr STORE 8192)
    = Some (<[256%nat := set_tags empty_set (<[0%nat := 8]> (tags empty_set))]>
              empty_cache, 0) /\
  sim_set_associative (mkThreadInfo 0 0 16 1 OPTION_WRITE_ON_MISS)
    [tr STORE 8192; tr LOAD 8192]
    = Some (mkThreadInfo 1 2 16 1 OPTION_WRITE_ON_MISS).
Proof. split; vm_compute; reflexivity. Qed.

(** C8 (amended).  With two ways or more, under the no-write-allocate
    policy ([OPTION_WRITE_ON_MISS]), a store that misses decomposes the
    address and scans its set: the set is left as [scanned], with the
    counters aged and the tags and valid flags as they were, the other
    sets and the hit counter are unchanged.  As a consequence, [Store A;
    Load A] replayed on the empty cache, where the store misses (the tag
    of [A] is not 0), counts no hit. *)
Theorem store_miss_does_not_allocate (i : ThreadInfo) :
  2 <= ways i <= 16 -> options i = OPTION_WRITE_ON_MISS ->
  (forall cache h t s,
     op t = STORE ->
     cache !! Z.to_nat (decompose i (addr t)).1 = Some s ->
     holds (decompose i (addr t)).2 (Z.to_nat (ways i)) s = false ->
     body i (cache, h) t
       = Some (<[Z.to_nat (decompose i (addr t)).1 :=
                   scanned (decompose i (addr t)).2 (Z.to_nat (ways i)) s]> cache,
               wrap32 h) /\
     tags (scanned (decompose i (addr t)).2 (Z.to_nat (ways i)) s) = tags s /\
     valid (scanned (decompose i (addr t)).2 (Z.to_nat (ways i)) s) = valid s) /\
  (forall A,
     hits i = 0 -> (decompose i A).2 <> 0 ->
     exists r, sim_set_associative i [tr STORE A; tr LOAD A] = Some r /\ hits r = 0).
Proof.
  intros Hw Hopt.
  assert (Hcfg : valid_config i) by (split; lia).
  split.
  - intros cache h t s Hop Hs Hmiss.
    split; [apply store_miss_scans; solve [assumption|lia]|]. split; reflexivity.
  - intros A H0 Htag. unfold sim_set_associative.
    rewrite bool_decide_eq_true_2 by apply Hcfg.
    set (i' := set_accesses i (Z.of_nat (length [tr STORE A; tr LOAD A]))).
    assert (Hcfg' : valid_config i') by exact Hcfg.
    assert (Hw' : 2 <= ways i' <= 16) by exact Hw.
    change (decompose i A) with (decompose i' (addr (tr LOAD A))) in Htag.
    pose proof (decompose_index_range i' A Hcfg') as Hix.
    assert (Hmiss : holds (decompose i' A).2 (Z.to_nat (ways i')) empty_set = false).
    { rewrite holds_empty_set by lia.
      destruct (Z.eqb_spec (decompose i' A).2 0) as [E|_]; [|reflexivity].
      exfalso. apply Htag. exact E. }
    cbn [for_traces]. change (hits i') with (hits i). rewrite H0.
    rewrite (store_miss_scans i' empty_cache 0 (tr STORE A) empty_set)
      by (first [apply empty_cache_lookup; exact Hix
                |exact Hmiss|exact Hopt|reflexivity|lia]).
    cbn [mbind option_bind addr tr].
    set (c1 := <[Z.to_nat (decompose i' A).1 := _]> empty_cache).
    assert (Hwf1 : wf_cache c1).
    { split; [unfold c1; rewrite length_insert; reflexivity|].
      apply Forall_insert; [apply empty_cache_wf|].
      apply scanned_wf. repeat split. }
    destruct (body_multiway_hits i' c1 (wrap32 0) (tr LOAD A) Hcfg' ltac:(lia) Hwf1)
      as (s1 & c2 & Hs1 & ->).
    cbn [addr tr] in Hs1.
    unfold c1 in Hs1. rewrite list_lookup_insert_eq in Hs1
      by (change (length empty_cache) with 1024%nat; lia).
    injection Hs1 as <-.
    rewrite do_hit. cbn [addr tr].
    rewrite (holds_same_tags _ _ _ empty_set) by reflexivity.
    rewrite Hmiss. cbn [mbind option_bind].
    eexists. split; reflexivity.
Qed.

Lemma store_miss_does_not_allocate_witness :
  exists r,
    sim_set_associative (mkThreadInfo 0 0 16 2 OPTION_WRITE_ON_MISS)
      [tr STORE 8192; tr LOAD 8192] = Some r /\ hits r = 0.
Proof.
  apply (store_miss_does_not_allocate (mkThreadInfo 0 0 16 2 OPTION_WRITE_ON_MISS)).
  - simpl. lia.
  - reflexivity.
  - reflexivity.
  - vm_compute. discriminate.
Defined.






End Claims.

(** * Part V: further properties of the program *)

(** ** [mylog2] and [bitmask] *)

(** X1.  [mylog2] is the integer part of the binary logarithm of a 32-bit
    value that is not 0, and it maps 0 to 0, as it does 1. *)
Theorem mylog2_is_floor_log2 (n : Z) :
  mylog2 0 = 0 /\
  (1 <= n < 2 ^ 32 ->
   0 <= mylog2 n < 32 /\ 2 ^ mylog2 n <= n < 2 ^ (mylog2 n + 1)).
Proof.
  split; [reflexivity|]. intros Hn.
  rewrite mylog2_spec by lia.
  pose proof (Z.log2_spec n ltac:(lia)) as Hs.
  pose proof (Z.log2_nonneg n).
  assert (Z.log2 n < 32) by (apply Z.log2_lt_pow2; lia).
  replace (Z.succ (Z.log2 n)) with (Z.log2 n + 1) in Hs by lia.
  lia.
Qed.

Lemma mylog2_is_floor_log2_witness :
  0 <= mylog2 170 < 32 /\ 2 ^ mylog2 170 <= 170 < 2 ^ (mylog2 170 + 1).
Proof.
  apply (proj2 (mylog2_is_floor_log2 170)). lia.
Defined.

(** X2.  Masking with [bitmask range] is the remainder modulo the largest
    power of two that does not exceed [range]: modulo [range] itself when
    it is a power of two, and modulo less than [range] otherwise.  For
    [range = 0] the mask is 0. *)
Theorem bitmask_is_power_of_two_modulo (range k x : Z) :
  bitmask 0 = 0 /\
  (0 <= k < 32 -> 2 ^ k <= range < 2 ^ (k + 1) ->
   bitmask range = 2 ^ k - 1 /\ Z.land x (bitmask range) = x mod 2 ^ k).
Proof.
  split; [reflexivity|]. intros Hk Hr.
  assert (0 < 2 ^ k) by (apply Z.pow_pos_nonneg; lia).
  assert (2 ^ (k + 1) <= 2 ^ 32) by (apply Z.pow_le_mono_r; lia).
  rewrite bitmask_spec by lia.
  assert (El : Z.log2 range = k).
  { apply Z.log2_unique; [lia|]. replace (Z.succ k) with (k + 1) by lia. exact Hr. }
  rewrite El. split.
  - rewrite Z.ones_equiv. lia.
  - apply Z.land_ones. lia.
Qed.

Lemma bitmask_is_power_of_two_modulo_witness :
  bitmask 170 = 2 ^ 7 - 1 /\ Z.land 1000 (bitmask 170) = 1000 mod 2 ^ 7.
Proof.
  apply (proj2 (bitmask_is_power_of_two_modulo 170 7 1000)); lia.
Defined.

(** ** The set-associative engine, one set *)

Section SetAssocSet.
Import SetAssoc SetAssocSpec SetAssocInv.

Lemma holds_true tag n s :
  holds tag n s = true <-> exists w, (w < n)%nat /\ tags s !!! w = tag.
Proof.
  unfold holds. rewrite existsb_exists. split.
  - intros (w & Hin & Hw). apply in_seq in Hin. apply Z.eqb_eq in Hw.
    exists w. split; [lia|exact Hw].
  - intros (w & Hlt & Hw). exists w. split; [apply in_seq; lia|].
    apply Z.eqb_eq, Hw.
Qed.

Lemma holds_false tag n s w :
  holds tag n s = false -> (w < n)%nat -> tags s !!! w <> tag.
Proof.
  intros Hf Hw E.
  assert (Ht : holds tag n s = true) by (apply holds_true; eauto).
  congruence.
Qed.

(** The allocation writes one of the first [ways] ways. *)
Lemma insert_tag_loop_in_range s tag : forall n w lru_way lru_largest,
  (1 <= w + n)%nat -> (lru_way < w \/ lru_way = 0)%nat ->
  exists v, (v < w + n)%nat /\
            insert_tag_loop n w s tag lru_way lru_largest = place s v tag.
Proof.
  induction n as [|n IH]; intros w lw ll Hpos Hlw; cbn [insert_tag_loop].
  - exists lw. split; [lia|reflexivity].
  - destruct (ll <? lru s !!! w); cbn beta iota;
      (destruct (negb (valid s !!! w));
       [exists w; split; [lia|reflexivity]
       |replace (w + S n)%nat with (S w + n)%nat by lia; apply IH; lia]).
Qed.

Lemma insert_tag_in_range s tag ways :
  (1 <= ways)%nat ->
  exists v, (v < ways)%nat /\ sim_set_associative_insert_tag s tag ways = place s v tag.
Proof.
  intros Hw. unfold sim_set_associative_insert_tag.
  destruct (insert_tag_loop_in_range s tag ways 0 0%nat 0) as (v & Hv & E); [lia|lia|].
  exists v. split; [lia|exact E].
Qed.

(** After an access that may allocate, the set holds the tag. *)
Lemma do_then_holds s tag ways :
  wf_set s -> (1 <= ways <= 16)%nat ->
  holds tag ways (sim_set_associative_do s tag ways false).1 = true.
Proof.
  intros (Ht & Hl & Hv) Hw. unfold sim_set_associative_do. rewrite do_scan.
  destruct (holds tag ways s) eqn:Eh; cbn [negb andb fst].
  - rewrite (holds_same_tags tag ways (scanned tag ways s) s) by reflexivity. exact Eh.
  - destruct (insert_tag_in_range (scanned tag ways s) tag ways) as (v & Hvlt & ->); [lia|].
    apply holds_true. exists v. split; [exact Hvlt|].
    unfold place. cbn [tags scanned set_lru].
    apply list_lookup_total_insert_eq. lia.
Qed.

Lemma scanned_consistent tag ways s :
  (ways <= 16)%nat -> wf_set s ->
  tags_consistent ways s -> tags_consistent ways (scanned tag ways s).
Proof.
  intros Hw (Ht & Hl & Hv) (H1 & H2 & H3). unfold tags_consistent, scanned, set_lru.
  cbn [tags lru valid]. split; [exact H1|]. split; [exact H2|].
  intros w Hwr. rewrite aged_lru_ge by lia. apply H3, Hwr.
Qed.

Lemma place_consistent tag ways s v :
  (ways <= 16)%nat -> wf_set s -> (v < ways)%nat ->
  holds tag ways s = false ->
  tags_consistent ways s -> tags_consistent ways (place s v tag).
Proof.
  intros Hw (Ht & Hl & Hv) Hvlt Hmiss (H1 & H2 & H3).
  unfold tags_consistent, place. cbn [tags lru valid].
  split; [|split].
  - intros w Hwr Hval.
    destruct (decide (v = w)) as [->|Hne].
    + rewrite list_lookup_total_insert_eq in Hval by lia. discriminate.
    + rewrite list_lookup_total_insert_ne in Hval by exact Hne.
      rewrite list_lookup_total_insert_ne by exact Hne. apply H1; assumption.
  - intros w1 w2 Hw1 Hw2 Hne E.
    destruct (decide (v = w1)) as [->|N1]; [|destruct (decide (v = w2)) as [->|N2]].
    + rewrite list_lookup_total_insert_eq in E by lia.
      rewrite list_lookup_total_insert_ne in E by exact Hne.
      exfalso. apply (holds_false tag ways s w2 Hmiss Hw2). symmetry. exact E.
    + rewrite list_lookup_total_insert_eq in E by lia.
      rewrite list_lookup_total_insert_ne in E by exact N1.
      exfalso. apply (holds_false tag ways s w1 Hmiss Hw1). exact E.
    + rewrite !list_lookup_total_insert_ne in E by assumption.
      rewrite !list_lookup_total_insert_ne by assumption.
      apply H2; assumption.
  - intros w Hwr.
    rewrite !list_lookup_total_insert_ne by lia. apply H3, Hwr.
Qed.

Lemma do_consistent s tag ways no_modify :
  (1 <= ways <= 16)%nat -> wf_set s ->
  tags_consistent ways s ->
  tags_consistent ways (sim_set_associative_do s tag ways no_modify).1.
Proof.
  intros Hw Hwf Hc. unfold sim_set_associative_do. rewrite do_scan.
  destruct (holds tag ways s) eqn:Eh; cbn [negb andb fst].
  - apply scanned_consistent; [lia|assumption..].
  - destruct no_modify; cbn [negb fst].
    + apply scanned_consistent; [lia|assumption..].
    + destruct (insert_tag_in_range (scanned tag ways s) tag ways) as (v & Hv & ->); [lia|].
      apply place_consistent; [lia|apply scanned_wf; assumption|exact Hv| |].
      * rewrite (holds_same_tags tag ways (scanned tag ways s) s) by reflexivity. exact Eh.
      * apply scanned_consistent; [lia|assumption..].
Qed.

Lemma empty_set_consistent ways :
  (ways <= 16)%nat -> tags_consistent ways empty_set.
Proof.
  intros Hways. unfold tags_consistent, empty_set. cbn [tags lru valid].
  split; [|split].
  - intros w Hw _. apply lookup_total_replicate_2, Hw.
  - intros w1 w2 Hw1 Hw2 _ _. split; apply lookup_total_replicate_2; lia.
  - intros w Hw. repeat split; apply lookup_total_replicate_2; lia.
Qed.

End SetAssocSet.

(** ** The set-associative engine, the whole cache *)

Section SetAssocCache.
Import SetAssoc SetAssocSpec SetAssocInv PolicySpec.

Lemma do_at_consistent cache set_ix tag ways no_modify c' hit :
  wf_cache cache -> (1 <= ways <= 16)%nat ->
  Forall (tags_consistent ways) cache ->
  do_at cache set_ix tag ways no_modify = Some (c', hit) ->
  wf_cache c' /\ Forall (tags_consistent ways) c'.
Proof.
  intros (Hlen & Hwf) Hw Hc. unfold do_at.
  destruct (cache !! Z.to_nat set_ix) as [s|] eqn:Es; [|discriminate].
  cbn [mbind option_bind].
  pose proof (do_wf s tag ways no_modify) as Hwf'.
  pose proof (do_consistent s tag ways no_modify Hw) as Hc'.
  destruct (sim_set_associative_do s tag ways no_modify) as [s' hit'].
  intros E. injection E as <- <-. cbn [fst] in *.
  assert (Hs : wf_set s) by (rewrite Forall_lookup in Hwf; eapply Hwf, Es).
  assert (Hcs : tags_consistent ways s) by (rewrite Forall_lookup in Hc; eapply Hc, Es).
  split; [split; [rewrite length_insert; exact Hlen|]|].
  - apply Forall_insert; [exact Hwf|auto].
  - apply Forall_insert; [exact Hc|auto].
Qed.

Lemma body_consistent i cache h t c' h' :
  2 <= ways i <= 16 -> wf_cache cache ->
  Forall (tags_consistent (Z.to_nat (ways i))) cache ->
  body i (cache, h) t = Some (c', h') ->
  wf_cache c' /\ Forall (tags_consistent (Z.to_nat (ways i))) c'.
Proof.
  intros Hw Hwf Hc. rewrite body_multiway by lia. unfold access.
  destruct (decompose i (addr t)) as [ix tag].
  destruct (do_at cache ix tag _ _) as [[c1 hit]|] eqn:E1; [|discriminate].
  cbn [mbind option_bind].
  destruct (do_at_consistent cache ix tag (Z.to_nat (ways i)) _ c1 hit
              Hwf ltac:(lia) Hc E1) as (Hwf1 & Hc1).
  destruct (prefetch_issued (options i) hit).
  - destruct (decompose i (wrap64 (addr t + 32))) as [ix2 tag2].
    destruct (do_at c1 ix2 tag2 _ _) as [[c2 hit2]|] eqn:E2; [|discriminate].
    cbn [fmap option_fmap option_map mbind option_bind fst].
    intros E. injection E as <- _.
    exact (do_at_consistent c1 ix2 tag2 (Z.to_nat (ways i)) _ c2 hit2
             Hwf1 ltac:(lia) Hc1 E2).
  - cbn [mbind option_bind]. intros E. injection E as <- _. split; assumption.
Qed.

Lemma run_consistent i : 2 <= ways i <= 16 -> forall g_traces cache h c' h',
  wf_cache cache ->
  Forall (tags_consistent (Z.to_nat (ways i))) cache ->
  for_traces (body i) g_traces (cache, h) = Some (c', h') ->
  wf_cache c' /\ Forall (tags_consistent (Z.to_nat (ways i))) c'.
Proof.
  intros Hw. induction g_traces as [|t rest IH]; intros cache h c' h' Hwf Hc.
  - cbn [for_traces]. intros E. injection E as <- _. split; assumption.
  - cbn [for_traces].
    destruct (body i (cache, h) t) as [[c1 h1]|] eqn:E1; [|discriminate].
    cbn [mbind option_bind].
    destruct (body_consistent _ _ _ _ _ _ Hw Hwf Hc E1) as (Hwf1 & Hc1).
    apply IH; assumption.
Qed.

Lemma empty_cache_consistent ways :
  (ways <= 16)%nat -> Forall (tags_consistent ways) empty_cache.
Proof. intros Hw. apply Forall_replicate, empty_set_consistent, Hw. Qed.

(** The direct-mapped branch. *)
Lemma body_only_tag0 i cache h t c' h' :
  ways i = 1 -> Forall only_tag0_used cache ->
  body i (cache, h) t = Some (c', h') ->
  Forall only_tag0_used c'.
Proof.
  intros Hw Hc. unfold body.
  destruct (decompose i (addr t)) as [ix tag]. rewrite Hw. cbn [Z.eqb Pos.eqb].
  destruct (cache !! Z.to_nat ix) as [s|] eqn:Es; [|discriminate].
  cbn [mbind option_bind].
  destruct (tags s !!! 0%nat =? tag).
  - intros E. injection E as <- _. exact Hc.
  - intros E. injection E as <- _.
    apply Forall_insert; [exact Hc|].
    rewrite Forall_lookup in Hc. destruct (Hc _ _ Es) as (Hl & Hv & Ht).
    unfold only_tag0_used, set_tags. cbn [tags lru valid].
    split; [exact Hl|]. split; [exact Hv|].
    assert (Hlen : length (tags s) = 16%nat)
      by (rewrite Ht, length_insert; reflexivity).
    rewrite list_lookup_total_insert_eq by lia.
    rewrite Ht at 1. apply list_insert_insert_eq.
Qed.

Lemma run_only_tag0 i : ways i = 1 -> forall g_traces cache h c' h',
  Forall only_tag0_used cache ->
  for_traces (body i) g_traces (cache, h) = Some (c', h') ->
  Forall only_tag0_used c'.
Proof.
  intros Hw. induction g_traces as [|t rest IH]; intros cache h c' h' Hc.
  - cbn [for_traces]. intros E. injection E as <- _. exact Hc.
  - cbn [for_traces].
    destruct (body i (cache, h) t) as [[c1 h1]|] eqn:E1; [|discriminate].
    cbn [mbind option_bind]. apply IH.
    exact (body_only_tag0 _ _ _ _ _ _ Hw Hc E1).
Qed.

Lemma empty_cache_only_tag0 : Forall only_tag0_used empty_cache.
Proof. apply Forall_replicate. repeat split. Qed.

End SetAssocCache.

(** ** Geometry of the multi-way branch *)

Section MultiwayGeometry.
Import SetAssoc SetAssocSpec SetAssocInv PolicySpec DirectMappedSpec.

(** With 2 to 16 ways the cache has between 32 and 256 sets. *)
Lemma multiway_decompose i a :
  2 <= ways i <= 16 ->
  5 <= log i <= 8 /\ mask i = Z.ones (log i) /\
  decompose i a = (Z.shiftr a 5 mod 2 ^ log i, Z.shiftr a (5 + log i)).
Proof.
  intros Hw. unfold decompose.
  destruct (Z.eqb_spec (ways i) 1) as [|_]; [lia|].
  assert (Hk : 5 <= log i <= 8 /\ mask i = Z.ones (log i)).
  { unfold log, mask, sets.
    destruct (Z.eqb_spec (ways i) 1) as [|_]; [lia|].
    assert (Hn : exists n : nat, ways i = Z.of_nat n /\ (2 <= n <= 16)%nat)
      by (exists (Z.to_nat (ways i)); lia).
    destruct Hn as (n & -> & Hn).
    do 2 (destruct n as [|n]; [lia|]).
    do 15 (destruct n as [|n]; [vm_compute; repeat split; congruence|]).
    lia. }
  destruct Hk as (Hk & Em).
  split; [exact Hk|]. split; [exact Em|].
  rewrite Em, Z.land_ones by lia. reflexivity.
Qed.

(** The next line lies in the next set, which is another set as soon as
    there are two. *)
Lemma next_line_next_set k a :
  1 <= k ->
  Z.shiftr (a + 32) 5 mod 2 ^ k = (Z.shiftr a 5 mod 2 ^ k + 1) mod 2 ^ k /\
  Z.shiftr (a + 32) 5 mod 2 ^ k <> Z.shiftr a 5 mod 2 ^ k.
Proof.
  intros Hk.
  assert (Hm : 2 <= 2 ^ k).
  { change 2 with (2 ^ 1) at 1. apply Z.pow_le_mono_r; lia. }
  rewrite !Z.shiftr_div_pow2 by lia. change (2 ^ 5) with 32.
  replace (a + 32) with (a + 1 * 32) by lia. rewrite Z.div_add by lia.
  set (x := a / 32). split.
  - rewrite Zplus_mod_idemp_l. reflexivity.
  - intros E.
    assert (H1 : (x + 1 - x) mod 2 ^ k = 0).
    { rewrite Zminus_mod, E, Z.sub_diag. apply Z.mod_0_l. lia. }
    replace (x + 1 - x) with 1 in H1 by lia.
    rewrite Z.mod_1_l in H1 by lia. discriminate.
Qed.

(** After a record that is allowed to allocate, the set of its address
    holds its tag, whatever the prefetch did. *)
Lemma body_multiway_holds i cache h t c1 h1 :
  2 <= ways i <= 16 -> wf_cache cache -> 0 <= addr t < 2 ^ 32 ->
  store_no_allocate (options i) t = false ->
  body i (cache, h) t = Some (c1, h1) ->
  wf_cache c1 /\
  exists s1,
    c1 !! Z.to_nat (decompose i (addr t)).1 = Some s1 /\
    holds (decompose i (addr t)).2 (Z.to_nat (ways i)) s1 = true.
Proof.
  intros Hw Hwf Ha Hna.
  assert (Hcfg : valid_config i) by (split; lia).
  rewrite body_multiway by lia. rewrite Hna. unfold access.
  rewrite wrap64_small by lia.
  pose proof (decompose_index_range i (addr t) Hcfg) as Hix.
  pose proof (decompose_index_range i (addr t + 32) Hcfg) as Hix2.
  destruct (multiway_decompose i (addr t) Hw) as (Hk & Em & Ed).
  destruct (multiway_decompose i (addr t + 32) Hw) as (_ & _ & Ed').
  set (k := log i) in *.
  destruct (next_line_next_set k (addr t) ltac:(lia)) as (_ & Hne).
  rewrite Ed, Ed' in *. cbn [fst snd] in *.
  set (ix := Z.shiftr (addr t) 5 mod 2 ^ k) in *.
  set (ix2 := Z.shiftr (addr t + 32) 5 mod 2 ^ k) in *.
  set (tag := Z.shiftr (addr t) (5 + k)) in *.
  destruct (do_at_some cache ix tag (Z.to_nat (ways i)) false Hwf Hix)
    as (s & Hs & -> & Hwf1).
  cbn [mbind option_bind].
  assert (Hs_wf : wf_set s).
  { destruct Hwf as (_ & Hall). rewrite Forall_lookup in Hall. eapply Hall, Hs. }
  pose proof (do_then_holds s tag (Z.to_nat (ways i)) Hs_wf ltac:(lia)) as Hh.
  set (s' := (sim_set_associative_do s tag (Z.to_nat (ways i)) false).1) in *.
  assert (Hlook : <[Z.to_nat ix := s']> cache !! Z.to_nat ix = Some s').
  { apply list_lookup_insert_eq. destruct Hwf as (Hlen & _). lia. }
  destruct (prefetch_issued (options i) _).
  - destruct (do_at_some (<[Z.to_nat ix := s']> cache) ix2
                (Z.shiftr (addr t + 32) (5 + k)) (Z.to_nat (ways i)) false Hwf1 Hix2)
      as (s2 & _ & -> & Hwf2).
    cbn [fmap option_fmap option_map mbind option_bind fst].
    intros E. injection E as <- _. split; [exact Hwf2|].
    exists s'. split; [|exact Hh].
    rewrite list_lookup_insert_ne by lia. exact Hlook.
  - cbn [mbind option_bind]. intros E. injection E as <- _.
    split; [exact Hwf1|]. exists s'. split; [exact Hlook|exact Hh].
Qed.

(** The set and the tag depend on the 32-byte line of the address only. *)
Lemma decompose_same_line i a a' :
  1 <= ways i <= 16 ->
  Z.shiftr a' block_id_offset = Z.shiftr a block_id_offset ->
  decompose i a' = decompose i a.
Proof.
  intros Hw E. destruct (Z.eq_dec (ways i) 1) as [Hw1|Hw1].
  - unfold decompose. rewrite Hw1. cbn [Z.eqb Pos.eqb]. rewrite E.
    unfold block_id_offset in E.
    change 10 with (5 + 5). rewrite <- !Z.shiftr_shiftr by lia.
    rewrite E. reflexivity.
  - unfold block_id_offset in E.
    destruct (multiway_decompose i a ltac:(lia)) as (Hk & _ & ->).
    destruct (multiway_decompose i a' ltac:(lia)) as (_ & _ & ->).
    rewrite <- !Z.shiftr_shiftr by lia. rewrite E. reflexivity.
Qed.

End MultiwayGeometry.

(** ** Allocation, hits and invariants of the sets *)

Section SetAssocExtras.
Import SetAssoc SetAssocSpec SetAssocInv PolicySpec DirectMappedSpec.

(** X3.  Whatever the counters are, [sim_set_associative_insert_tag]
    writes exactly one way, and that way is one of the first [ways]: it
    gets the tag, counter 0 and the valid flag, and every other way keeps
    what it had. *)
Theorem insert_tag_writes_one_way (s : set) (tag : Z) (ways : nat) :
  wf_set s -> (1 <= ways <= 16)%nat ->
  exists v, (v < ways)%nat /\
    tags (sim_set_associative_insert_tag s tag ways) !!! v = tag /\
    lru (sim_set_associative_insert_tag s tag ways) !!! v = 0 /\
    valid (sim_set_associative_insert_tag s tag ways) !!! v = true /\
    forall w, w <> v ->
      tags (sim_set_associative_insert_tag s tag ways) !!! w = tags s !!! w /\
      lru (sim_set_associative_insert_tag s tag ways) !!! w = lru s !!! w /\
      valid (sim_set_associative_insert_tag s tag ways) !!! w = valid s !!! w.
Proof.
  intros (Ht & Hl & Hv) Hw.
  destruct (insert_tag_in_range s tag ways) as (v & Hvlt & ->); [lia|].
  exists v. split; [exact Hvlt|]. unfold place. cbn [tags lru valid].
  rewrite !list_lookup_total_insert_eq by lia.
  repeat split; rewrite list_lookup_total_insert_ne by auto; reflexivity.
Qed.

Lemma insert_tag_writes_one_way_witness :
  exists v, (v < 2)%nat /\
    tags (sim_set_associative_insert_tag set_after_one_load 7 2) !!! v = 7 /\
    lru (sim_set_associative_insert_tag set_after_one_load 7 2) !!! v = 0 /\
    valid (sim_set_associative_insert_tag set_after_one_load 7 2) !!! v = true /\
    forall w, w <> v ->
      tags (sim_set_associative_insert_tag set_after_one_load 7 2) !!! w
        = tags set_after_one_load !!! w /\
      lru (sim_set_associative_insert_tag set_after_one_load 7 2) !!! w
        = lru set_after_one_load !!! w /\
      valid (sim_set_associative_insert_tag set_after_one_load 7 2) !!! w
        = valid set_after_one_load !!! w.
Proof.
  apply (insert_tag_writes_one_way set_after_one_load 7 2).
  - repeat split.
  - lia.
Defined.

(** X4.  A hit in [sim_set_associative_do] changes counters only: each of
    the first [ways] ways that holds the tag gets counter 0, each other of
    the first [ways] ways is aged by one (modulo 2^64); the remaining
    counters, the tags and the valid flags are unchanged, also when the
    caller allowed allocation. *)
Theorem hit_resets_and_ages (s : set) (tag : Z) (ways : nat) (no_modify : bool) :
  wf_set s -> holds tag ways s = true ->
  (sim_set_associative_do s tag ways no_modify).2 = true /\
  tags (sim_set_associative_do s tag ways no_modify).1 = tags s /\
  valid (sim_set_associative_do s tag ways no_modify).1 = valid s /\
  forall w, (w < 16)%nat ->
    lru (sim_set_associative_do s tag ways no_modify).1 !!! w =
      if (w <? ways)%nat
      then if tags s !!! w =? tag then 0 else wrap64 (lru s !!! w + 1)
      else lru s !!! w.
Proof.
  intros (Ht & Hl & Hv) Hh.
  rewrite do_scan_only by (right; exact Hh). cbn [fst snd].
  split; [exact Hh|]. split; [reflexivity|]. split; [reflexivity|].
  intros w Hw. unfold scanned, set_lru, aged_lru. cbn [lru].
  destruct (lookup_lt_is_Some_2 (lru s) w ltac:(lia)) as [l El].
  rewrite (list_lookup_total_correct _ _ _ El).
  apply list_lookup_total_correct. rewrite list_lookup_imap, El. reflexivity.
Qed.

Lemma hit_resets_and_ages_witness :
  (sim_set_associative_do set_after_one_load 1 2 false).2 = true /\
  tags (sim_set_associative_do set_after_one_load 1 2 false).1 = tags set_after_one_load /\
  valid (sim_set_associative_do set_after_one_load 1 2 false).1 = valid set_after_one_load /\
  forall w, (w < 16)%nat ->
    lru (sim_set_associative_do set_after_one_load 1 2 false).1 !!! w =
      if (w <? 2)%nat
      then if tags set_after_one_load !!! w =? 1 then 0
           else wrap64 (lru set_after_one_load !!! w + 1)
      else lru set_after_one_load !!! w.
Proof.
  apply (hit_resets_and_ages set_after_one_load 1 2 false).
  - repeat split.
  - reflexivity.
Defined.

(** X5.  An access by [sim_set_associative_do] that may allocate leaves
    the tag in the set: the same tag looked up again is a hit, with or
    without permission to allocate. *)
Theorem access_then_lookup_hits (s : set) (tag : Z) (ways : nat) (no_modify : bool) :
  wf_set s -> (1 <= ways <= 16)%nat ->
  (sim_set_associative_do
     (sim_set_associative_do s tag ways false).1 tag ways no_modify).2 = true.
Proof.
  intros Hwf Hw. rewrite do_hit. apply do_then_holds; assumption.
Qed.

Lemma access_then_lookup_hits_witness :
  (sim_set_associative_do
     (sim_set_associative_do set_after_one_load 9 2 false).1 9 2 true).2 = true.
Proof.
  apply (access_then_lookup_hits set_after_one_load 9 2 true).
  - repeat split.
  - lia.
Defined.

(** X6.  In every set of a cache that a multi-way run has reached, no tag
    is held by two valid ways among the first [ways]; a way that is not
    valid still holds tag 0; and the ways from [ways] on have never been
    written. *)
Theorem valid_ways_hold_distinct_tags
    (i : ThreadInfo) (g_traces : list Trace) (h0 h : Z) (cache : list set)
    (set_ix : nat) (s : set) :
  2 <= ways i <= 16 ->
  for_traces (body i) g_traces (empty_cache, h0) = Some (cache, h) ->
  cache !! set_ix = Some s ->
  (forall w1 w2, (w1 < Z.to_nat (ways i))%nat -> (w2 < Z.to_nat (ways i))%nat ->
     valid s !!! w1 = true -> tags s !!! w1 = tags s !!! w2 -> w1 = w2) /\
  (forall w, (w < 16)%nat -> valid s !!! w = false -> tags s !!! w = 0) /\
  (forall w, (Z.to_nat (ways i) <= w < 16)%nat ->
     tags s !!! w = 0 /\ lru s !!! w = 0 /\ valid s !!! w = false).
Proof.
  intros Hw Hrun Hs.
  assert (Hle : (Z.to_nat (ways i) <= 16)%nat) by lia.
  destruct (run_consistent i Hw g_traces empty_cache h0 cache h
              empty_cache_wf (empty_cache_consistent _ Hle) Hrun)
    as (_ & Hall).
  rewrite Forall_lookup in Hall. destruct (Hall _ _ Hs) as (H1 & H2 & H3).
  split; [|split; assumption].
  intros w1 w2 Hw1 Hw2 Hv E.
  destruct (decide (w1 = w2)) as [|Hne]; [assumption|].
  destruct (H2 w1 w2 Hw1 Hw2 Hne E) as [Hf _]. congruence.
Qed.

Lemma valid_ways_hold_distinct_tags_witness :
  (forall w1 w2, (w1 < 2)%nat -> (w2 < 2)%nat ->
     valid set_after_one_load !!! w1 = true ->
     tags set_after_one_load !!! w1 = tags set_after_one_load !!! w2 -> w1 = w2) /\
  (forall w, (w < 16)%nat -> valid set_after_one_load !!! w = false ->
     tags set_after_one_load !!! w = 0) /\
  (forall w, (2 <= w < 16)%nat ->
     tags set_after_one_load !!! w = 0 /\ lru set_after_one_load !!! w = 0 /\
     valid set_after_one_load !!! w = false).
Proof.
  apply (valid_ways_hold_distinct_tags two_way_config [tr LOAD 8192] 0 0
           cache_after_one_load 0 set_after_one_load).
  - simpl. lia.
  - vm_compute. reflexivity.
  - reflexivity.
Defined.

(** X7.  The direct-mapped branch uses nothing of a set but the tag of
    way 0: in every set of a cache that a direct-mapped run has reached,
    all counters are 0, no way is valid and the tags of ways 1 to 15 are
    0. *)
Theorem direct_mapped_uses_tag_0_only
    (i : ThreadInfo) (g_traces : list Trace) (h0 h : Z) (cache : list set)
    (set_ix : nat) (s : set) :
  ways i = 1 ->
  for_traces (body i) g_traces (empty_cache, h0) = Some (cache, h) ->
  cache !! set_ix = Some s ->
  lru s = replicate 16 0 /\ valid s = replicate 16 false /\
  forall w, (1 <= w < 16)%nat -> tags s !!! w = 0.
Proof.
  intros Hw Hrun Hs.
  pose proof (run_only_tag0 i Hw g_traces empty_cache h0 cache h
                empty_cache_only_tag0 Hrun) as Hall.
  rewrite Forall_lookup in Hall. destruct (Hall _ _ Hs) as (Hl & Hv & Ht).
  split; [exact Hl|]. split; [exact Hv|].
  intros w Hwr. rewrite Ht.
  rewrite list_lookup_total_insert_ne by lia.
  apply lookup_total_replicate_2. lia.
Qed.

Lemma direct_mapped_uses_tag_0_only_witness :
  lru (set_tags empty_set (<[0%nat := 1]> (tags empty_set))) = replicate 16 0 /\
  valid (set_tags empty_set (<[0%nat := 1]> (tags empty_set))) = replicate 16 false /\
  forall w, (1 <= w < 16)%nat ->
    tags (set_tags empty_set (<[0%nat := 1]> (tags empty_set))) !!! w = 0.
Proof.
  apply (direct_mapped_uses_tag_0_only worked_config [tr LOAD 1024] 0 0
           (<[32%nat := set_tags empty_set (<[0%nat := 1]> (tags empty_set))]> empty_cache)
           32).
  - reflexivity.
  - vm_compute. reflexivity.
  - reflexivity.
Defined.

End SetAssocExtras.

(** ** Locality, write policy and prefetch in a run *)

Section SetAssocRunExtras.
Import SetAssoc SetAssocSpec SetAssocInv PolicySpec DirectMappedSpec.

Lemma for_traces_ext_on {St : Type} (P : Trace -> Prop)
    (f g : St -> Trace -> option St) :
  (forall st t, P t -> f st t = g st t) ->
  forall l st, Forall P l -> for_traces f l st = for_traces g l st.
Proof.
  intros Hfg. induction l as [|t rest IH]; intros st Hl; [reflexivity|].
  inversion Hl as [|? ? Ht Hrest]; subst. cbn [for_traces].
  rewrite (Hfg st t Ht). destruct (g st t) as [st'|]; [|reflexivity].
  cbn [mbind option_bind]. apply IH, Hrest.
Qed.

Lemma body_same_on_loads i j st t :
  ways j = ways i -> kb j = kb i ->
  ways i = 1 \/
    (op t = LOAD /\
     (options i = OPTION_NONE \/ options i = OPTION_WRITE_ON_MISS) /\
     (options j = OPTION_NONE \/ options j = OPTION_WRITE_ON_MISS)) ->
  body i st t = body j st t.
Proof.
  intros Hw Hk H. destruct st as [cache h].
  unfold body, decompose, mask, log, sets. rewrite Hw, Hk.
  destruct (Z.land _ _, Z.shiftr _ _) as [set_ix tag] eqn:E.
  destruct (ways i =? 1) eqn:E1; [reflexivity|].
  destruct H as [H1|(Hop & Hi & Hj)]; [apply Z.eqb_neq in E1; lia|].
  rewrite Hop.
  destruct Hi as [-> | ->], Hj as [-> | ->]; reflexivity.
Qed.

(** X8.  Temporal locality in [sim_set_associative]: when a record has
    been processed that was allowed to allocate (any record in the
    direct-mapped branch; in the multi-way branch every record but a
    store under OPTION_WRITE_ON_MISS), a record in the same 32-byte line
    processed next is counted as a hit, whatever the prefetch after the
    first record did. *)
Theorem repeated_access_hits
    (i : ThreadInfo) (cache : list set) (h : Z) (t t' : Trace)
    (c1 : list set) (h1 : Z) :
  valid_config i -> wf_cache cache -> 0 <= addr t < 2 ^ 32 ->
  Z.shiftr (addr t') block_id_offset = Z.shiftr (addr t) block_id_offset ->
  ways i = 1 \/ store_no_allocate (options i) t = false ->
  body i (cache, h) t = Some (c1, h1) ->
  exists c2, body i (c1, h1) t' = Some (c2, wrap32 (h1 + 1)).
Proof.
  intros Hcfg Hwf Ha El Hal E.
  pose proof (decompose_same_line i (addr t) (addr t') (proj1 Hcfg) El) as Et.
  destruct (Z.eq_dec (ways i) 1) as [Hw1|Hw1].
  - destruct (body_direct i cache h t Hcfg Hw1 Hwf)
      as (c1' & hit & E' & Hwf1 & _ & Htag & _).
    rewrite E in E'. injection E' as <- _.
    destruct (body_direct i c1 h1 t' Hcfg Hw1 Hwf1)
      as (c2 & hit2 & E2 & _ & Hhit & _).
    assert (hit2 = true) as ->.
    { apply Hhit. unfold present. rewrite Et. exact Htag. }
    exists c2. exact E2.
  - destruct Hal as [?|Hal]; [contradiction|].
    assert (Hw : 2 <= ways i <= 16) by (destruct Hcfg; lia).
    destruct (body_multiway_holds i cache h t c1 h1 Hw Hwf Ha Hal E)
      as (Hwf1 & s1 & Hs1 & Hh).
    destruct (body_multiway_hits i c1 h1 t' Hcfg Hw1 Hwf1)
      as (s & c2 & Hs & E2).
    rewrite Et, Hs1 in Hs. injection Hs as <-.
    rewrite Et, do_hit, Hh in E2. exists c2. exact E2.
Qed.

Lemma repeated_access_hits_witness :
  exists c2, body two_way_config (cache_after_one_load, 0) (tr STORE 8200)
             = Some (c2, wrap32 (0 + 1)).
Proof.
  apply (repeated_access_hits two_way_config empty_cache 0
           (tr LOAD 8192) (tr STORE 8200) cache_after_one_load 0).
  - unfold valid_config. simpl. lia.
  - exact empty_cache_wf.
  - simpl. lia.
  - reflexivity.
  - right. reflexivity.
  - vm_compute. reflexivity.
Defined.

(** X9.  The write policy only matters for stores, and only in the
    multi-way branch: two runs of [sim_set_associative] with the same
    [ways], [kb] and initial [hits] end with the same [hits] when the
    cache is direct-mapped (whatever the two options are), and also when
    the trace has loads only and each run is under OPTION_NONE or
    OPTION_WRITE_ON_MISS. *)
Theorem write_policy_only_affects_stores
    (i j : ThreadInfo) (g_traces : list Trace) :
  ways j = ways i -> kb j = kb i -> hits j = hits i ->
  ways i = 1 \/
    (Forall (fun t => op t = LOAD) g_traces /\
     (options i = OPTION_NONE \/ options i = OPTION_WRITE_ON_MISS) /\
     (options j = OPTION_NONE \/ options j = OPTION_WRITE_ON_MISS)) ->
  hits <$> sim_set_associative i g_traces
    = hits <$> sim_set_associative j g_traces.
Proof.
  intros Hw Hk Hh H. unfold sim_set_associative. rewrite Hw.
  destruct (bool_decide (1 <= ways i <= 16)); [|reflexivity].
  set (i' := set_accesses i _). set (j' := set_accesses j _).
  change (hits i') with (hits i). change (hits j') with (hits j). rewrite Hh.
  assert (Hrun : for_traces (body i') g_traces (empty_cache, hits i)
                 = for_traces (body j') g_traces (empty_cache, hits i)).
  { destruct H as [H1|(Hl & Hi & Hj)].
    - apply for_traces_ext. intros st t.
      apply body_same_on_loads; [exact Hw|exact Hk|left; exact H1].
    - apply (for_traces_ext_on (fun t => op t = LOAD)); [|exact Hl].
      intros st t Hop.
      apply body_same_on_loads; [exact Hw|exact Hk|].
      right. split; [exact Hop|]. split; assumption. }
  rewrite Hrun.
  destruct (for_traces (body j') g_traces (empty_cache, hits i)) as [[c h]|];
    reflexivity.
Qed.

Lemma write_policy_only_affects_stores_witness :
  hits <$> sim_set_associative two_way_config [tr LOAD 8192; tr LOAD 8192]
    = hits <$> sim_set_associative (mkThreadInfo 0 0 16 2 OPTION_WRITE_ON_MISS)
                 [tr LOAD 8192; tr LOAD 8192].
Proof.
  apply (write_policy_only_affects_stores two_way_config
           (mkThreadInfo 0 0 16 2 OPTION_WRITE_ON_MISS)
           [tr LOAD 8192; tr LOAD 8192]).
  - reflexivity.
  - reflexivity.
  - reflexivity.
  - right. split; [repeat constructor|]. split; [left|right]; reflexivity.
Defined.

(** X10.  In the multi-way branch the cache has between 32 and 256 sets,
    and the line prefetched at [addr + 32] belongs to the set that follows
    the set of [addr] (cyclically), never to the set of [addr] itself. *)
Theorem prefetch_goes_to_next_set (i : ThreadInfo) (a : Z) :
  2 <= ways i <= 16 ->
  32 <= mask i + 1 <= 256 /\
  (decompose i (a + 32)).1 = ((decompose i a).1 + 1) mod (mask i + 1) /\
  (decompose i (a + 32)).1 <> (decompose i a).1.
Proof.
  intros Hw.
  destruct (multiway_decompose i a Hw) as (Hk & Hm & Ed).
  destruct (multiway_decompose i (a + 32) Hw) as (_ & _ & Ed').
  rewrite Ed, Ed', Hm. cbn [fst].
  rewrite Z.ones_equiv.
  replace (Z.pred (2 ^ log i) + 1) with (2 ^ log i) by lia.
  destruct (next_line_next_set (log i) a ltac:(lia)) as (H1 & H2).
  split; [|split; assumption].
  split.
  - change 32 with (2 ^ 5). apply Z.pow_le_mono_r; lia.
  - change 256 with (2 ^ 8). apply Z.pow_le_mono_r; lia.
Qed.

Lemma prefetch_goes_to_next_set_witness :
  32 <= mask two_way_config + 1 <= 256 /\
  (decompose two_way_config (8160 + 32)).1
    = ((decompose two_way_config 8160).1 + 1) mod (mask two_way_config + 1) /\
  (decompose two_way_config (8160 + 32)).1 <> (decompose two_way_config 8160).1.
Proof.
  apply (prefetch_goes_to_next_set two_way_config 8160). simpl. lia.
Defined.

End SetAssocRunExtras.

(** ** The pseudo-LRU tree: subtrees and victims *)

Section PseudoLRUSubtrees.
Import PseudoLRU PseudoLRUSpec PseudoLRUInv.

Lemma under_range r n :
  under r n -> exists k, ((r + 1) * 2 ^ k <= n + 1 < (r + 2) * 2 ^ k)%nat.
Proof.
  induction 1 as [|n _ (k & IH)|n _ (k & IH)].
  - exists 0%nat. simpl. lia.
  - exists (S k). rewrite Nat.pow_succ_r'. unfold left. lia.
  - exists (S k). rewrite Nat.pow_succ_r'. unfold right. lia.
Qed.

Lemma under_disjoint n : under 1 n -> under 2 n -> False.
Proof.
  intros H1 H2.
  destruct (under_range _ _ H1) as (k & Hk).
  destruct (under_range _ _ H2) as (j & Hj).
  destruct (Nat.lt_trichotomy k j) as [Hlt|[->|Hlt]].
  - assert (2 ^ S k <= 2 ^ j)%nat by (apply Nat.pow_le_mono_r; lia).
    rewrite Nat.pow_succ_r' in *. lia.
  - lia.
  - assert (2 ^ S j <= 2 ^ k)%nat by (apply Nat.pow_le_mono_r; lia).
    rewrite Nat.pow_succ_r' in *. lia.
Qed.

Lemma child_of_parent b :
  (1 <= b)%nat -> b = left (parent b) \/ b = right (parent b).
Proof.
  intros Hb. unfold left, right, parent.
  pose proof (Nat.div_mod_eq (b - 1) 2) as E.
  pose proof (Nat.mod_upper_bound (b - 1) 2 ltac:(lia)). lia.
Qed.

Lemma under_parent x b : (1 <= b)%nat -> under x (parent b) -> under x b.
Proof.
  intros Hb H. destruct (child_of_parent b Hb) as [E|E]; rewrite E.
  - apply under_left, H.
  - apply under_right, H.
Qed.

Lemma path_up_under : forall fuel b x, In x (path_up fuel b) -> under x b.
Proof.
  induction fuel as [|fuel IH]; intros b x; cbn [path_up]; [intros []|].
  destruct (b =? 0)%nat eqn:E; [intros []|].
  apply Nat.eqb_neq in E. intros [<-|H].
  - apply under_self.
  - apply under_parent; [lia|]. apply IH, H.
Qed.

Lemma stale_leaf_under : forall fuel n c, under n (stale_leaf fuel n c).
Proof.
  induction fuel as [|fuel IH]; intros n c; cbn [stale_leaf]; [apply under_self|].
  destruct (n <? 511)%nat; [|apply under_self].
  pose proof (IH (stale_child n (c !!! n)) c) as H.
  revert H. generalize (stale_leaf fuel (stale_child n (c !!! n)) c). intros m.
  unfold stale_child. destruct (c !!! n =? 0); induction 1.
  - apply under_right, under_self.
  - apply under_left; assumption.
  - apply under_right; assumption.
  - apply under_left, under_self.
  - apply under_left; assumption.
  - apply under_right; assumption.
Qed.

Lemma root_child a : (1 <= a)%nat -> parent a = 0%nat -> a = 1%nat \/ a = 2%nat.
Proof.
  unfold parent. intros Ha E.
  pose proof (Nat.div_mod_eq (a - 1) 2) as E'.
  pose proof (Nat.mod_upper_bound (a - 1) 2 ltac:(lia)). lia.
Qed.

Lemma stale_leaf_S fuel n c :
  stale_leaf (S fuel) n c =
  if (n <? 511)%nat then stale_leaf fuel (stale_child n (c !!! n)) c else n.
Proof. reflexivity. Qed.

Lemma stale_leaf_root c :
  stale_leaf 511 0 c = stale_leaf 510 (stale_child 0 (c !!! 0%nat)) c.
Proof. rewrite (stale_leaf_S 510 0 c). reflexivity. Qed.

(** The victim search leaves the root on the side its bit marks as stale,
    so it cannot end in a leaf of the other side. *)
Lemma victim_avoids c a b :
  (1 <= a)%nat -> parent a = 0%nat -> under a b ->
  stale_child 0 (c !!! 0%nat) <> a ->
  stale_leaf 511 0 c <> b.
Proof.
  intros Ha Hp Hb Hne Ev.
  rewrite stale_leaf_root in Ev.
  pose proof (stale_leaf_under 510 (stale_child 0 (c !!! 0%nat)) c) as Hu.
  rewrite Ev in Hu.
  destruct (root_child a Ha Hp) as [-> | ->];
    unfold stale_child, left, right in Hne, Hu;
    destruct (c !!! 0%nat =? 0);
    cbn [Nat.mul Nat.add] in Hne, Hu;
    try congruence; eauto using under_disjoint.
Qed.

(** Leaves are not touched by the walk to the root. *)
Lemma walk_up_leaves b c k :
  (1 <= b <= 1022)%nat -> (b < length c)%nat -> (511 <= k)%nat ->
  walk_up b b c !!! k = c !!! k.
Proof.
  intros Hb Hl Hk.
  destruct (walk_up_spec b b c ltac:(lia) Hl) as (_ & _ & H3).
  apply H3. intros x Hx. apply path_up_pos in Hx.
  pose proof (parent_lt x ltac:(lia)). unfold parent in *.
  assert ((x - 1) / 2 < 511)%nat; [|lia].
  apply Nat.Div0.div_lt_upper_bound. lia.
Qed.

Lemma walk_up_avoids b c :
  (511 <= b <= 1022)%nat -> length c = 1024%nat ->
  stale_leaf 511 0 (walk_up b b c) <> b.
Proof.
  intros Hb Hl.
  destruct (walk_up_spec b b c ltac:(lia) ltac:(lia)) as (_ & H2 & _).
  pose proof (path_up_reaches_root b b ltac:(lia)) as Hr.
  apply in_map_iff in Hr. destruct Hr as (a & Hp & Ha).
  pose proof (path_up_pos _ _ _ Ha) as Hpos.
  apply (victim_avoids _ a); [lia|exact Hp|apply (path_up_under _ _ _ Ha)|].
  specialize (H2 a Ha). rewrite Hp in H2. rewrite H2.
  pose proof (away_from_stale a ltac:(lia)) as Hs. rewrite Hp in Hs. exact Hs.
Qed.

Lemma stale_path_S fuel n c :
  stale_path (S fuel) n c =
  if (n <? 511)%nat then n :: stale_path fuel (stale_child n (c !!! n)) c else [].
Proof. reflexivity. Qed.

Lemma stale_path_head c : In 0%nat (stale_path 511 0 c).
Proof. rewrite (stale_path_S 510 0 c). apply in_eq. Qed.

Lemma descend_avoids c tg :
  length c = 1024%nat ->
  stale_leaf 511 0 (<[(descend 511 0 c).2 := tg]> (descend 511 0 c).1)
    <> (descend 511 0 c).2.
Proof.
  intros Hl.
  destruct (descend_spec 511 0 c ltac:(lia)) as (Hv & Hflip & _).
  pose proof (stale_leaf_is_leaf 511 0 c ltac:(lia) ltac:(lia)) as Hleaf.
  rewrite Hv.
  apply (victim_avoids _ (stale_child 0 (c !!! 0%nat))).
  - pose proof (stale_child_gt 0 (c !!! 0%nat)). lia.
  - apply stale_child_parent.
  - rewrite stale_leaf_root. apply stale_leaf_under.
  - rewrite list_lookup_total_insert_ne by lia.
    rewrite (Hflip 0%nat (stale_path_head c)). apply flip_stale.
Qed.

(** What one record leaves behind: some leaf holds its tag, and that leaf
    is not where the next victim search ends. *)
Lemma plru_body_recent c h t :
  length c = 1024%nat ->
  exists b, is_leaf b /\
    (body (c, h) t).1 !!! b = Z.shiftr (addr t) block_id_offset /\
    stale_leaf 511 0 (body (c, h) t).1 <> b.
Proof.
  intros Hl. set (tg := Z.shiftr (addr t) block_id_offset).
  destruct (find_block c tg) as [b|] eqn:F.
  - rewrite (plru_body_hit c h t b F). cbn [fst].
    destruct (find_block_leaf _ _ _ F) as (Hb & E). unfold is_leaf in Hb.
    exists b. split; [exact Hb|]. split.
    + rewrite walk_up_leaves by lia. exact E.
    + apply walk_up_avoids; [lia|exact Hl].
  - rewrite (plru_body_miss c h t F). cbn [fst]. fold tg.
    destruct (descend_spec 511 0 c ltac:(lia)) as (Hv & _).
    pose proof (stale_leaf_is_leaf 511 0 c ltac:(lia) ltac:(lia)) as Hleaf.
    exists (descend 511 0 c).2. split; [rewrite Hv; exact Hleaf|]. split.
    + apply list_lookup_total_insert_eq. rewrite descend_length, Hv. lia.
    + apply descend_avoids, Hl.
Qed.

(** A leaf other than the victim keeps its tag. *)
Lemma plru_body_keeps c h t b :
  length c = 1024%nat -> is_leaf b -> stale_leaf 511 0 c <> b ->
  (body (c, h) t).1 !!! b = c !!! b.
Proof.
  intros Hl Hb Hne. unfold is_leaf in Hb.
  destruct (find_block c (Z.shiftr (addr t) block_id_offset)) as [b0|] eqn:F.
  - rewrite (plru_body_hit c h t b0 F). cbn [fst].
    destruct (find_block_leaf _ _ _ F) as (Hb0 & _). unfold is_leaf in Hb0.
    apply walk_up_leaves; lia.
  - rewrite (plru_body_miss c h t F). cbn [fst].
    destruct (descend_spec 511 0 c ltac:(lia)) as (Hv & _ & Hrest).
    rewrite list_lookup_total_insert_ne by (rewrite Hv; exact Hne).
    apply Hrest. intros Hin. apply stale_path_ge in Hin. lia.
Qed.

Lemma plru_body_held c h t b :
  is_leaf b -> c !!! b = Z.shiftr (addr t) block_id_offset ->
  (body (c, h) t).2 = wrap32 (h + 1).
Proof.
  intros Hb E. destruct (find_block_some c _ b Hb E) as (b' & F).
  rewrite (plru_body_hit c h t b' F). reflexivity.
Qed.

End PseudoLRUSubtrees.

(** ** The pseudo-LRU engine: locality and invariants *)

Section PseudoLRUExtras.
Import PseudoLRU PseudoLRUSpec PseudoLRUInv.

Lemma away_from_bit x : away_from x = 0 \/ away_from x = 1.
Proof. unfold away_from. destruct (x mod 2 =? 0)%nat; auto. Qed.

Lemma flip_bit v : flip v = 0 \/ flip v = 1.
Proof. unfold flip. destruct (v =? 0); auto. Qed.

Lemma plru_body_shaped c h t : tree_shaped c -> tree_shaped (body (c, h) t).1.
Proof.
  intros (Hl & Hbits & Hlast).
  destruct (find_block c (Z.shiftr (addr t) block_id_offset)) as [b|] eqn:F.
  - rewrite (plru_body_hit c h t b F). cbn [fst].
    destruct (find_block_leaf _ _ _ F) as (Hb & _). unfold is_leaf in Hb.
    destruct (walk_up_spec b b c ltac:(lia) ltac:(lia)) as (_ & H2 & H3).
    split; [rewrite walk_up_length; exact Hl|]. split.
    + intros k Hk.
      destruct (in_dec Nat.eq_dec k (map parent (path_up b b))) as [Hin|Hout].
      * apply in_map_iff in Hin. destruct Hin as (x & <- & Hx).
        rewrite (H2 x Hx). apply away_from_bit.
      * rewrite H3; [apply Hbits, Hk|].
        intros x Hx E. apply Hout, in_map_iff. eauto.
    + rewrite walk_up_leaves by lia. exact Hlast.
  - rewrite (plru_body_miss c h t F). cbn [fst].
    destruct (descend_spec 511 0 c ltac:(lia)) as (Hv & Hflip & Hrest).
    pose proof (stale_leaf_is_leaf 511 0 c ltac:(lia) ltac:(lia)) as Hleaf.
    rewrite Hv.
    split; [rewrite length_insert, descend_length; exact Hl|]. split.
    + intros k Hk. rewrite list_lookup_total_insert_ne by lia.
      destruct (in_dec Nat.eq_dec k (stale_path 511 0 c)) as [Hin|Hout].
      * rewrite (Hflip k Hin). apply flip_bit.
      * rewrite (Hrest k Hout). apply Hbits, Hk.
    + rewrite list_lookup_total_insert_ne by lia.
      rewrite Hrest; [exact Hlast|].
      intros Hin. apply stale_path_ge in Hin. lia.
Qed.

Lemma plru_body_distinct c h t :
  length c = 1024%nat -> leaves_distinct c -> leaves_distinct (body (c, h) t).1.
Proof.
  intros Hl Hd.
  destruct (find_block c (Z.shiftr (addr t) block_id_offset)) as [b|] eqn:F.
  - rewrite (plru_body_hit c h t b F). cbn [fst].
    destruct (find_block_leaf _ _ _ F) as (Hb & _). unfold is_leaf in Hb.
    intros b1 b2 H1 H2. unfold is_leaf in H1, H2.
    rewrite !walk_up_leaves by lia. apply Hd; assumption.
  - rewrite (plru_body_miss c h t F). cbn [fst].
    destruct (descend_spec 511 0 c ltac:(lia)) as (Hv & _ & Hrest).
    pose proof (stale_leaf_is_leaf 511 0 c ltac:(lia) ltac:(lia)) as Hleaf.
    rewrite Hv.
    assert (Hnone : forall b, is_leaf b ->
              c !!! b <> Z.shiftr (addr t) block_id_offset).
    { intros b Hb E. destruct (find_block_some c _ b Hb E) as (b' & F').
      congruence. }
    assert (Hkeep : forall b, is_leaf b -> (descend 511 0 c).1 !!! b = c !!! b).
    { intros b Hb. apply Hrest. intros Hin. apply stale_path_ge in Hin.
      unfold is_leaf in Hb. lia. }
    assert (Hlen : (stale_leaf 511 0 c < length (descend 511 0 c).1)%nat)
      by (rewrite descend_length; lia).
    intros b1 b2 H1 H2.
    destruct (decide (b1 = stale_leaf 511 0 c)) as [->|N1];
      destruct (decide (b2 = stale_leaf 511 0 c)) as [->|N2].
    + reflexivity.
    + rewrite list_lookup_total_insert_eq by exact Hlen.
      rewrite list_lookup_total_insert_ne by auto. rewrite (Hkeep b2 H2).
      intros E _. symmetry in E. destruct (Hnone b2 H2 E).
    + rewrite list_lookup_total_insert_eq by exact Hlen.
      rewrite list_lookup_total_insert_ne by auto. rewrite (Hkeep b1 H1).
      intros E _. destruct (Hnone b1 H1 E).
    + rewrite !list_lookup_total_insert_ne by auto.
      rewrite (Hkeep b1 H1), (Hkeep b2 H2). apply Hd; assumption.
Qed.

Lemma plru_run_shaped : forall g_traces c h,
  tree_shaped c -> leaves_distinct c ->
  tree_shaped (fold_left body g_traces (c, h)).1 /\
  leaves_distinct (fold_left body g_traces (c, h)).1.
Proof.
  induction g_traces as [|t rest IH]; intros c h Hs Hd; [split; assumption|].
  cbn [fold_left].
  destruct (body (c, h) t) as [c1 h1] eqn:E.
  apply IH.
  - change c1 with (c1, h1).1. rewrite <- E. apply plru_body_shaped, Hs.
  - change c1 with (c1, h1).1. rewrite <- E.
    apply plru_body_distinct; [apply Hs|exact Hd].
Qed.

Lemma plru_empty_shaped : tree_shaped empty_cache.
Proof.
  split; [reflexivity|]. split.
  - intros k Hk. left. apply lookup_total_replicate_2. lia.
  - apply lookup_total_replicate_2. lia.
Qed.

Lemma plru_empty_distinct : leaves_distinct empty_cache.
Proof.
  intros b1 b2 H1 _ _ Hne. unfold is_leaf in H1. exfalso. apply Hne.
  apply lookup_total_replicate_2. lia.
Qed.

(** X11.  Temporal locality in [sim_fully_associative_pseudo]: whatever the
    state of the tree, a record whose address lies in the same 32-byte
    line as the record processed just before it is counted as a hit. *)
Theorem pseudo_lru_repeated_line_hits (c : list Z) (h : Z) (t t' : Trace) :
  length c = 1024%nat ->
  Z.shiftr (addr t') block_id_offset = Z.shiftr (addr t) block_id_offset ->
  (body (body (c, h) t) t').2 = wrap32 ((body (c, h) t).2 + 1).
Proof.
  intros Hl Et.
  destruct (plru_body_recent c h t Hl) as (b & Hb & Htag & _).
  destruct (body (c, h) t) as [c1 h1]. cbn [fst snd] in *.
  apply (plru_body_held c1 h1 t' b Hb). rewrite Et. exact Htag.
Qed.

Lemma pseudo_lru_repeated_line_hits_witness :
  (body (body (empty_cache, 0) (tr LOAD 4096)) (tr STORE 4100)).2
    = wrap32 ((body (empty_cache, 0) (tr LOAD 4096)).2 + 1).
Proof.
  apply (pseudo_lru_repeated_line_hits empty_cache 0 (tr LOAD 4096) (tr STORE 4100)).
  - reflexivity.
  - reflexivity.
Defined.

(** X12.  The tree never picks the line used last as the victim: whatever
    the state of the tree and whatever one record comes in between, a
    record in the same 32-byte line as the record before that one is
    counted as a hit. *)
Theorem pseudo_lru_keeps_most_recent_line
    (c : list Z) (h : Z) (t t' t'' : Trace) :
  length c = 1024%nat ->
  Z.shiftr (addr t'') block_id_offset = Z.shiftr (addr t) block_id_offset ->
  (body (body (body (c, h) t) t') t'').2
    = wrap32 ((body (body (c, h) t) t').2 + 1).
Proof.
  intros Hl Et.
  destruct (plru_body_recent c h t Hl) as (b & Hb & Htag & Hvictim).
  pose proof (plru_body_length c h t) as Hl1.
  destruct (body (c, h) t) as [c1 h1]. cbn [fst snd] in *.
  pose proof (plru_body_keeps c1 h1 t' b ltac:(lia) Hb Hvictim) as Hkeep.
  destruct (body (c1, h1) t') as [c2 h2]. cbn [fst snd] in *.
  apply (plru_body_held c2 h2 t'' b Hb). rewrite Et, Hkeep. exact Htag.
Qed.

Lemma pseudo_lru_keeps_most_recent_line_witness :
  (body (body (body (empty_cache, 0) (tr LOAD 4096)) (tr LOAD 8192))
     (tr LOAD 4100)).2
    = wrap32 ((body (body (empty_cache, 0) (tr LOAD 4096)) (tr LOAD 8192)).2 + 1).
Proof.
  apply (pseudo_lru_keeps_most_recent_line empty_cache 0
           (tr LOAD 4096) (tr LOAD 8192) (tr LOAD 4100)).
  - reflexivity.
  - reflexivity.
Defined.

(** X13.  In every state that a run of [sim_fully_associative_pseudo]
    reaches, the array has its 1024 entries, the entries 0 to 510 of the
    inner nodes are 0 or 1, the entry 1023 after the last leaf is still 0,
    and no two leaves hold the same tag other than 0. *)
Theorem pseudo_lru_tree_invariants (g_traces : list Trace) (h0 : Z) :
  let c := (fold_left body g_traces (empty_cache, h0)).1 in
  length c = 1024%nat /\
  (forall k, (k < 511)%nat -> c !!! k = 0 \/ c !!! k = 1) /\
  c !!! 1023%nat = 0 /\
  (forall b1 b2, (511 <= b1 <= 1022)%nat -> (511 <= b2 <= 1022)%nat ->
     c !!! b1 = c !!! b2 -> c !!! b1 <> 0 -> b1 = b2).
Proof.
  destruct (plru_run_shaped g_traces empty_cache h0
              plru_empty_shaped plru_empty_distinct) as ((Hl & Hb & Hlast) & Hd).
  cbv zeta. split; [exact Hl|]. split; [exact Hb|]. split; [exact Hlast|].
  exact Hd.
Qed.

End PseudoLRUExtras.

(** ** The exact-LRU engine: locality and invariants *)

Section FullyAssocExtras.
Import FullyAssoc FullyAssocSpec FullyAssocInv.

(** X14.  Temporal locality in [sim_fully_associative]: whatever the 512
    blocks hold, a record whose address lies in the same 32-byte line as
    the record processed just before it is counted as a hit. *)
Theorem exact_lru_repeated_line_hits
    (cache : list block) (h : Z) (t t' : Trace) :
  length cache = 512%nat ->
  Z.shiftr (addr t') block_id_offset = Z.shiftr (addr t) block_id_offset ->
  (body (body (cache, h) t) t').2 = wrap32 ((body (cache, h) t).2 + 1).
Proof.
  intros Hlen Et.
  pose proof (fa_body_holds cache h t Hlen) as Hh.
  pose proof (fa_body_length cache h t Hlen) as Hlen1.
  destruct (body (cache, h) t) as [c1 h1]. cbn [fst snd] in *.
  apply fa_body_held; [exact Hlen1|]. rewrite Et. exact Hh.
Qed.

Lemma exact_lru_repeated_line_hits_witness :
  (body (body (empty_cache, 0) (tr LOAD 4096)) (tr STORE 4100)).2
    = wrap32 ((body (empty_cache, 0) (tr LOAD 4096)).2 + 1).
Proof.
  apply (exact_lru_repeated_line_hits empty_cache 0 (tr LOAD 4096) (tr STORE 4100)).
  - reflexivity.
  - reflexivity.
Defined.

(** X15.  Exact LRU does not evict the line used last: when the counters
    fit 32 bits with room for two more steps and the line of a record is
    not line 0 (whose tag 0 reads as an empty block), then, whatever one
    record comes next, a record in that same line after it is counted as a
    hit. *)
Theorem exact_lru_keeps_most_recent_line
    (cache : list block) (h : Z) (t t' t'' : Trace) :
  length cache = 512%nat -> lru_bounded (2 ^ 32 - 3) cache ->
  Z.shiftr (addr t) block_id_offset <> 0 ->
  Z.shiftr (addr t'') block_id_offset = Z.shiftr (addr t) block_id_offset ->
  (body (body (body (cache, h) t) t') t'').2
    = wrap32 ((body (body (cache, h) t) t').2 + 1).
Proof.
  intros Hlen Hb Hnz Et.
  destruct (fa_body_recent cache h t _ Hlen Hb ltac:(lia))
    as (b & Hlt & Htag & Hzero & Hothers).
  destruct (fa_body_step cache h t (2 ^ 32 - 3) Hlen ltac:(lia) Hb)
    as (c1 & h1 & E1 & Hlen1 & Hb1 & _).
  rewrite E1 in *. cbn [fst snd] in *.
  pose proof (fa_body_keeps c1 h1 t' b _ Hlen1 Hb1 ltac:(lia) Hlt
                ltac:(rewrite Htag; exact Hnz) Hzero Hothers) as Hkeep.
  pose proof (fa_body_length c1 h1 t' Hlen1) as Hlen2.
  destruct (body (c1, h1) t') as [c2 h2]. cbn [fst snd] in *.
  apply fa_body_held; [exact Hlen2|]. rewrite Et.
  apply fa_holds_true. exists b. split; [exact Hlt|].
  rewrite Hkeep. exact Htag.
Qed.

Lemma exact_lru_keeps_most_recent_line_witness :
  (body (body (body (empty_cache, 0) (tr LOAD 4096)) (tr LOAD 8192))
     (tr LOAD 4100)).2
    = wrap32 ((body (body (empty_cache, 0) (tr LOAD 4096)) (tr LOAD 8192)).2 + 1).
Proof.
  apply (exact_lru_keeps_most_recent_line empty_cache 0
           (tr LOAD 4096) (tr LOAD 8192) (tr LOAD 4100)).
  - reflexivity.
  - apply Forall_replicate. simpl. lia.
  - vm_compute. discriminate.
  - reflexivity.
Defined.

(** X16.  In every state that a run of [sim_fully_associative] reaches
    there are 512 blocks, every counter lies between 0 and the number of
    records processed, and no two blocks hold the same tag other than
    0. *)
Theorem exact_lru_invariants (g_traces : list Trace) (h0 : Z) :
  let cache := (fold_left body g_traces (empty_cache, h0)).1 in
  length cache = 512%nat /\
  (forall k, (k < 512)%nat ->
     0 <= lru (cache !!! k) <= Z.of_nat (length g_traces)) /\
  (forall k1 k2, (k1 < 512)%nat -> (k2 < 512)%nat ->
     tag (cache !!! k1) = tag (cache !!! k2) -> tag (cache !!! k1) <> 0 ->
     k1 = k2).
Proof.
  cbv zeta.
  destruct (fa_run_invariant g_traces empty_cache h0 0 eq_refl ltac:(lia)
              fa_empty_bounded) as (c' & h' & E & Hlen & Hb & _).
  pose proof (fa_run_distinct g_traces empty_cache h0 eq_refl fa_empty_distinct)
    as Hd.
  rewrite E in *. cbn [fst] in *.
  split; [exact Hlen|]. split; [|exact Hd].
  intros k Hk.
  pose proof (fa_lru_bounded_lookup _ c' k Hb ltac:(lia)). lia.
Qed.

End FullyAssocExtras.

(** ** The most recent way of a set *)

Section SetAssocRecency.
Import SetAssoc SetAssocSpec SetAssocInv PolicySpec.

Lemma scanned_lru_lookup tag ways s w :
  (w < length (lru s))%nat ->
  lru (scanned tag ways s) !!! w =
    if (w <? ways)%nat
    then if tags s !!! w =? tag then 0 else wrap64 (lru s !!! w + 1)
    else lru s !!! w.
Proof.
  intros Hw. unfold scanned, set_lru, aged_lru. cbn [lru].
  destruct (lookup_lt_is_Some_2 (lru s) w Hw) as [l El].
  rewrite (list_lookup_total_correct _ _ _ El).
  apply list_lookup_total_correct. rewrite list_lookup_imap, El. reflexivity.
Qed.

(** A way that does not hold the tag comes out of the scan with a counter
    of at least 1, and of at least 2 if it had at least 1. *)
Lemma scanned_aged tag ways s w B :
  wf_set s -> (w < ways <= 16)%nat -> lru_bounded B s -> B < 2 ^ 64 - 1 ->
  tags s !!! w <> tag ->
  lru (scanned tag ways s) !!! w = lru s !!! w + 1 /\ 0 <= lru s !!! w.
Proof.
  intros (Ht & Hl & Hv) Hw Hb HB Hne.
  rewrite scanned_lru_lookup by lia.
  rewrite (proj2 (Nat.ltb_lt w ways)) by lia.
  apply Z.eqb_neq in Hne. rewrite Hne.
  pose proof (lru_bounded_lookup B s w Hb ltac:(lia)) as Hr.
  rewrite wrap64_small by lia. lia.
Qed.

Lemma consistent_valid ways s w tag :
  tags_consistent ways s -> (w < 16)%nat -> tags s !!! w = tag -> tag <> 0 ->
  valid s !!! w = true.
Proof.
  intros (H1 & _) Hw Et Hnz.
  destruct (valid s !!! w) eqn:Ev; [reflexivity|].
  specialize (H1 w Hw Ev). congruence.
Qed.

(** An access that may allocate makes its tag the most recent of the
    set. *)
Lemma do_recent s tag ways B :
  wf_set s -> (1 <= ways <= 16)%nat -> lru_bounded B s -> B < 2 ^ 64 - 1 ->
  tags_consistent ways s -> tag <> 0 ->
  exists w, most_recent ways (sim_set_associative_do s tag ways false).1 w tag.
Proof.
  intros Hwf Hw Hb HB Hc Hnz. pose proof Hwf as (Ht & Hl & Hv).
  unfold sim_set_associative_do. rewrite do_scan.
  destruct (holds tag ways s) eqn:Eh; cbn [negb andb fst].
  - apply holds_true in Eh. destruct Eh as (w & Hlt & Et).
    pose proof (consistent_valid ways s w tag Hc ltac:(lia) Et Hnz) as Hval.
    exists w. split; [exact Hlt|]. split; [exact Et|]. split; [exact Hval|].
    split.
    + rewrite scanned_lru_lookup by lia.
      rewrite (proj2 (Nat.ltb_lt w ways)) by lia.
      rewrite Et, Z.eqb_refl. reflexivity.
    + intros k Hk Hne.
      assert (Hkt : tags s !!! k <> tag).
      { intros Ek. destruct Hc as (_ & H2 & _).
        destruct (H2 w k Hlt Hk ltac:(auto) ltac:(congruence)) as [Hf _].
        congruence. }
      destruct (scanned_aged tag ways s k B Hwf ltac:(lia) Hb HB Hkt). lia.
  - destruct (insert_tag_in_range (scanned tag ways s) tag ways)
      as (v & Hvlt & ->); [lia|].
    exists v. unfold most_recent, place. cbn [tags lru valid].
    change (tags (scanned tag ways s)) with (tags s).
    change (valid (scanned tag ways s)) with (valid s).
    assert (Hls : length (lru (scanned tag ways s)) = 16%nat)
      by (apply (scanned_wf tag ways s Hwf)).
    rewrite !list_lookup_total_insert_eq by lia.
    repeat split; [exact Hvlt|].
    intros k Hk Hne. rewrite list_lookup_total_insert_ne by auto.
    pose proof (holds_false tag ways s k Eh Hk) as Hkt.
    destruct (scanned_aged tag ways s k B Hwf ltac:(lia) Hb HB Hkt). lia.
Qed.

(** With two ways or more, one further access to the set, whatever its
    tag, leaves the most recent way its tag. *)
Lemma do_keeps_recent s ways w tag B tag' no_modify :
  wf_set s -> (2 <= ways <= 16)%nat -> lru_bounded B s -> B <= 2 ^ 32 - 2 ->
  most_recent ways s w tag ->
  tags (sim_set_associative_do s tag' ways no_modify).1 !!! w = tag.
Proof.
  intros Hwf Hw Hb HB (Hlt & Et & Hval & Hzero & Hothers).
  pose proof Hwf as (Ht & Hl & Hv).
  destruct no_modify.
  { rewrite do_scan_only by (left; reflexivity). exact Et. }
  destruct (holds tag' ways s) eqn:Eh.
  { rewrite do_scan_only by (right; exact Eh). exact Et. }
  assert (Hb' : lru_bounded (2 ^ 32 - 2) s)
    by (apply (lru_bounded_mono B); assumption).
  destruct (do_miss_allocates s tag' ways Hwf ltac:(lia) Hb' Eh) as (v & -> & Hv').
  cbn [fst]. unfold place. cbn [tags].
  change (tags (scanned tag' ways s)) with (tags s).
  assert (Hne : v <> w).
  { intros ->. destruct Hv' as [(_ & Hf & _)|(_ & _ & Hmax & _)]; [congruence|].
    set (k := if (w =? 0)%nat then 1%nat else 0%nat).
    assert (Hk : (k < ways)%nat /\ k <> w)
      by (unfold k; destruct (Nat.eqb_spec w 0); lia).
    specialize (Hmax k (proj1 Hk)). cbn beta in Hmax.
    pose proof (holds_false tag' ways s k Eh (proj1 Hk)) as Hk1.
    pose proof (holds_false tag' ways s w Eh Hlt) as Hw1.
    destruct (scanned_aged tag' ways s k B Hwf ltac:(lia) Hb ltac:(lia) Hk1)
      as (Ek & _).
    destruct (scanned_aged tag' ways s w B Hwf ltac:(lia) Hb ltac:(lia) Hw1)
      as (Ew & _).
    pose proof (Hothers k (proj1 Hk) (proj2 Hk)). lia. }
  rewrite list_lookup_total_insert_ne by exact Hne. exact Et.
Qed.

(** The effect of one access on the cache: the set of the address is
    replaced by the outcome of [sim_set_associative_do], the other sets
    are as they were. *)
Lemma access_effect i cache a no_modify :
  valid_config i -> wf_cache cache ->
  exists s,
    cache !! Z.to_nat (decompose i a).1 = Some s /\
    access i cache a no_modify
      = Some (<[Z.to_nat (decompose i a).1 :=
                 (sim_set_associative_do s (decompose i a).2
                    (Z.to_nat (ways i)) no_modify).1]> cache,
              (sim_set_associative_do s (decompose i a).2
                 (Z.to_nat (ways i)) no_modify).2) /\
    wf_cache (<[Z.to_nat (decompose i a).1 :=
                 (sim_set_associative_do s (decompose i a).2
                    (Z.to_nat (ways i)) no_modify).1]> cache).
Proof.
  intros Hcfg Hwf.
  pose proof (decompose_index_range i a Hcfg) as Hix.
  unfold access. destruct (decompose i a) as [ix tag]. cbn [fst snd] in *.
  destruct (do_at_some cache ix tag (Z.to_nat (ways i)) no_modify Hwf Hix)
    as (s & Hs & E & Hwf').
  exists s. split; [exact Hs|]. split; [exact E|exact Hwf'].
Qed.

(** One record, seen from a set whose most recent way holds [tag]: the
    record reaches the set at most once, by its own access or by its
    prefetch, so the way still holds [tag] afterwards. *)
Lemma body_keeps_recent i cache h t c2 h2 B n s w tag :
  2 <= ways i <= 16 -> wf_cache cache ->
  Forall (lru_bounded B) cache -> B <= 2 ^ 32 - 2 ->
  0 <= addr t < 2 ^ 32 ->
  cache !! n = Some s -> most_recent (Z.to_nat (ways i)) s w tag ->
  body i (cache, h) t = Some (c2, h2) ->
  exists s2, c2 !! n = Some s2 /\ tags s2 !!! w = tag.
Proof.
  intros Hw Hwf Hb HB Ha Hs Hrec.
  assert (Hcfg : valid_config i) by (split; lia).
  assert (Hset : forall m s', cache !! m = Some s' ->
            wf_set s' /\ lru_bounded B s').
  { intros m s' Hm. destruct Hwf as (_ & Hall).
    rewrite Forall_lookup in Hall, Hb. split; [eapply Hall|eapply Hb]; exact Hm. }
  assert (Hkeep : forall tag' nm,
            tags (sim_set_associative_do s tag' (Z.to_nat (ways i)) nm).1 !!! w = tag).
  { intros tag' nm. destruct (Hset n s Hs) as (Hwfs & Hbs).
    apply (do_keeps_recent s _ w tag B); try assumption. lia. }
  assert (Hlen : length cache = 1024%nat) by apply Hwf.
  rewrite body_multiway by lia.
  rewrite wrap64_small by lia.
  destruct (access_effect i cache (addr t) (store_no_allocate (options i) t)
              Hcfg Hwf) as (s0 & Hs0 & -> & Hwf1).
  cbn [mbind option_bind].
  pose proof (decompose_index_range i (addr t) Hcfg) as Hix.
  pose proof (decompose_index_range i (addr t + 32) Hcfg) as Hix2.
  destruct (multiway_decompose i (addr t) Hw) as (Hk & _ & Ed).
  destruct (multiway_decompose i (addr t + 32) Hw) as (_ & _ & Ed').
  destruct (next_line_next_set (log i) (addr t) ltac:(lia)) as (_ & Hne).
  assert (Hsets : Z.to_nat (decompose i (addr t + 32)).1
                  <> Z.to_nat (decompose i (addr t)).1).
  { rewrite Ed, Ed' in *. cbn [fst] in *. lia. }
  set (ix := Z.to_nat (decompose i (addr t)).1) in *.
  set (ix2 := Z.to_nat (decompose i (addr t + 32)).1) in *.
  set (c1 := <[ix := _]> cache) in *.
  destruct (prefetch_issued (options i) _).
  - destruct (access_effect i c1 (addr t + 32) false Hcfg Hwf1)
      as (s1 & Hs1 & -> & _).
    cbn [fmap option_fmap option_map mbind option_bind fst].
    intros E. injection E as <- _. fold ix2 in Hs1 |- *.
    destruct (decide (n = ix2)) as [->|N2].
    + assert (Hs1' : cache !! ix2 = Some s1).
      { unfold c1 in Hs1. rewrite list_lookup_insert_ne in Hs1 by auto.
        exact Hs1. }
      rewrite Hs in Hs1'. injection Hs1' as <-.
      eexists. split; [|apply Hkeep].
      apply list_lookup_insert_eq. unfold c1. rewrite length_insert. lia.
    + rewrite list_lookup_insert_ne by auto.
      destruct (decide (n = ix)) as [->|N1].
      * rewrite Hs in Hs0. injection Hs0 as <-.
        eexists. split; [|apply Hkeep].
        unfold c1. apply list_lookup_insert_eq. lia.
      * exists s. split; [|apply Hrec].
        unfold c1. rewrite list_lookup_insert_ne by auto. exact Hs.
  - cbn [mbind option_bind]. intros E. injection E as <- _.
    destruct (decide (n = ix)) as [->|N1].
    + rewrite Hs in Hs0. injection Hs0 as <-.
      eexists. split; [|apply Hkeep].
      unfold c1. apply list_lookup_insert_eq. lia.
    + exists s. split; [|apply Hrec].
      unfold c1. rewrite list_lookup_insert_ne by auto. exact Hs.
Qed.

(** One record that may allocate makes the tag of its address the most
    recent of its set, whatever its prefetch does. *)
Lemma body_recent i cache h t c1 h1 B :
  2 <= ways i <= 16 -> wf_cache cache ->
  Forall (lru_bounded B) cache -> B < 2 ^ 64 - 1 ->
  Forall (tags_consistent (Z.to_nat (ways i))) cache ->
  0 <= addr t < 2 ^ 32 ->
  (decompose i (addr t)).2 <> 0 ->
  store_no_allocate (options i) t = false ->
  body i (cache, h) t = Some (c1, h1) ->
  exists s1 w,
    c1 !! Z.to_nat (decompose i (addr t)).1 = Some s1 /\
    most_recent (Z.to_nat (ways i)) s1 w (decompose i (addr t)).2.
Proof.
  intros Hw Hwf Hb HB Hc Ha Hnz Hna.
  assert (Hcfg : valid_config i) by (split; lia).
  assert (Hlen : length cache = 1024%nat) by apply Hwf.
  rewrite body_multiway by lia. rewrite Hna.
  rewrite wrap64_small by lia.
  destruct (access_effect i cache (addr t) false Hcfg Hwf)
    as (s0 & Hs0 & -> & Hwf1).
  cbn [mbind option_bind].
  assert (Hs0' : wf_set s0 /\ lru_bounded B s0 /\
                 tags_consistent (Z.to_nat (ways i)) s0).
  { destruct Hwf as (_ & Hall). rewrite Forall_lookup in Hall, Hb, Hc.
    split; [eapply Hall|split; [eapply Hb|eapply Hc]]; exact Hs0. }
  destruct Hs0' as (Hwf0 & Hb0 & Hc0).
  destruct (do_recent s0 (decompose i (addr t)).2 (Z.to_nat (ways i)) B
              Hwf0 ltac:(lia) Hb0 HB Hc0 Hnz) as (w & Hrec).
  pose proof (decompose_index_range i (addr t) Hcfg) as Hix.
  destruct (multiway_decompose i (addr t) Hw) as (Hk & _ & Ed).
  destruct (multiway_decompose i (addr t + 32) Hw) as (_ & _ & Ed').
  destruct (next_line_next_set (log i) (addr t) ltac:(lia)) as (_ & Hne).
  assert (Hsets : Z.to_nat (decompose i (addr t + 32)).1
                  <> Z.to_nat (decompose i (addr t)).1).
  { pose proof (decompose_index_range i (addr t + 32) Hcfg).
    rewrite Ed, Ed' in *. cbn [fst] in *. lia. }
  set (ix := Z.to_nat (decompose i (addr t)).1) in *.
  set (c0 := <[ix := _]> cache) in *.
  assert (Hlook : c0 !! ix = Some (sim_set_associative_do s0 (decompose i (addr t)).2
                                     (Z.to_nat (ways i)) false).1).
  { unfold c0. apply list_lookup_insert_eq. lia. }
  destruct (prefetch_issued (options i) _).
  - destruct (access_effect i c0 (addr t + 32) false Hcfg Hwf1)
      as (s1 & Hs1 & -> & _).
    cbn [fmap option_fmap option_map mbind option_bind fst].
    intros E. injection E as <- _.
    do 2 eexists. split; [|exact Hrec].
    rewrite list_lookup_insert_ne by auto. exact Hlook.
  - cbn [mbind option_bind]. intros E. injection E as <- _.
    do 2 eexists. split; [exact Hlook|exact Hrec].
Qed.

Lemma for_traces_app {St : Type} (f : St -> Trace -> option St) :
  forall l1 l2 st,
    for_traces f (l1 ++ l2) st = st' ← for_traces f l1 st; for_traces f l2 st'.
Proof.
  induction l1 as [|t rest IH]; intros l2 st; [reflexivity|].
  cbn [app for_traces]. destruct (f st t) as [st1|]; [|reflexivity].
  cbn [mbind option_bind]. apply IH.
Qed.

End SetAssocRecency.

(** ** LRU keeps the line used last *)

Section SetAssocRecencyExtras.
Import SetAssoc SetAssocSpec SetAssocInv PolicySpec.

(** X17.  LRU with two ways or more does not evict the line used last.
    In a run of [sim_set_associative] from the empty cache, on a trace
    that fits [g_traces]: when a record that may allocate (not a store
    under OPTION_WRITE_ON_MISS) and whose tag is not 0 is followed by one
    record of any kind, a record in the same 32-byte line as the first
    one, coming next, is counted as a hit, under every prefetch
    option. *)
Theorem lru_keeps_most_recent_line
    (i : ThreadInfo) (g_traces : list Trace) (t t' t'' : Trace)
    (h0 h2 : Z) (c2 : list set) :
  2 <= ways i <= 16 ->
  Z.of_nat (length g_traces) + 3 <= g_traces_capacity ->
  0 <= addr t < 2 ^ 32 -> 0 <= addr t' < 2 ^ 32 ->
  (decompose i (addr t)).2 <> 0 ->
  store_no_allocate (options i) t = false ->
  Z.shiftr (addr t'') block_id_offset = Z.shiftr (addr t) block_id_offset ->
  for_traces (body i) (g_traces ++ [t; t']) (empty_cache, h0) = Some (c2, h2) ->
  exists c3, body i (c2, h2) t'' = Some (c3, wrap32 (h2 + 1)).
Proof.
  intros Hw Hcap Ha Ha' Hnz Hna Et.
  assert (Hcfg : valid_config i) by (split; lia).
  unfold g_traces_capacity in Hcap.
  rewrite for_traces_app.
  destruct (run_invariant i Hcfg g_traces empty_cache h0 0 empty_cache_wf
              ltac:(lia) empty_cache_bounded)
    as (c0 & h0' & E0 & Hwf0 & Hb0 & _).
  assert (Hle : (Z.to_nat (ways i) <= 16)%nat) by lia.
  destruct (run_consistent i Hw g_traces empty_cache h0 c0 h0'
              empty_cache_wf (empty_cache_consistent _ Hle) E0) as (_ & Hc0).
  rewrite E0. cbn [mbind option_bind for_traces].
  set (B := 0 + 2 * Z.of_nat (length g_traces)) in *.
  destruct (body_step i c0 h0' t B Hcfg Hwf0 ltac:(lia) Hb0)
    as (c1 & h1 & E1 & Hwf1 & Hb1 & _).
  rewrite E1. cbn [mbind option_bind].
  destruct (body_recent i c0 h0' t c1 h1 B Hw Hwf0 Hb0 ltac:(lia) Hc0 Ha Hnz Hna E1)
    as (s1 & w & Hs1 & Hrec).
  destruct (body i (c1, h1) t') as [[c2' h2']|] eqn:E2; [|discriminate].
  cbn [mbind option_bind]. intros E. injection E as <- <-.
  destruct (body_keeps_recent i c1 h1 t' c2' h2' (B + 2) _ s1 w _
              Hw Hwf1 Hb1 ltac:(lia) Ha' Hs1 Hrec E2) as (s2 & Hs2 & Htag).
  destruct (body_step i c1 h1 t' (B + 2) Hcfg Hwf1 ltac:(lia) Hb1)
    as (c2'' & h2'' & E2' & Hwf2 & _).
  rewrite E2 in E2'. injection E2' as <- <-.
  destruct (body_multiway_hits i c2' h2' t'' Hcfg ltac:(lia) Hwf2)
    as (s & c3 & Hs & E3).
  rewrite (decompose_same_line i (addr t) (addr t'') ltac:(lia) Et) in Hs, E3.
  rewrite Hs2 in Hs. injection Hs as <-.
  rewrite do_hit in E3.
  assert (Hh : holds (decompose i (addr t)).2 (Z.to_nat (ways i)) s2 = true).
  { apply holds_true. exists w. split; [apply Hrec|exact Htag]. }
  rewrite Hh in E3. exists c3. exact E3.
Qed.

Lemma lru_keeps_most_recent_line_witness :
  exists c3,
    body two_way_config
      (<[0%nat := mkSet (<[1%nat := 2]> (<[0%nat := 1]> (replicate 16 0)))
                        (<[0%nat := 1]> (replicate 16 0))
                        (<[1%nat := true]> (<[0%nat := true]> (replicate 16 false)))]>
         empty_cache, 0)
      (tr LOAD 8200)
    = Some (c3, wrap32 (0 + 1)).
Proof.
  apply (lru_keeps_most_recent_line two_way_config []
           (tr LOAD 8192) (tr STORE 16384) (tr LOAD 8200) 0).
  - simpl. lia.
  - unfold g_traces_capacity. simpl. lia.
  - simpl. lia.
  - simpl. lia.
  - vm_compute. discriminate.
  - reflexivity.
  - reflexivity.
  - vm_compute. reflexivity.
Defined.

End SetAssocRecencyExtras.

(** ** The runs of [main] *)

Section MainProgram.
Import SetAssoc SetAssocSpec PolicySpec.

Lemma direct_mapped_sizes_eq : direct_mapped_sizes = [1; 4; 16; 32].
Proof. reflexivity. Qed.

Lemma associativities_eq : associativities = [2; 4; 8; 16].
Proof. reflexivity. Qed.

Lemma read_traces_length input g_traces :
  read_traces input = Some g_traces -> length g_traces = length input.
Proof.
  unfold read_traces. destruct (bool_decide _); [|discriminate].
  intros E. injection E as <-. apply length_map.
Qed.

Lemma read_traces_loads input g_traces :
  Forall (fun r => r.1 = "L"%char) input ->
  read_traces input = Some g_traces ->
  Forall (fun t => op t = LOAD) g_traces.
Proof.
  unfold read_traces. destruct (bool_decide _); [|discriminate].
  intros Hall E. injection E as <-.
  apply Forall_map. eapply Forall_impl; [|exact Hall].
  intros [behavior a]. cbn [fst op]. intros ->. reflexivity.
Qed.

(** A run of the set-associative engine on a configuration it has room
    for, started with a zeroed hit counter. *)
Lemma sim_set_associative_entry i g_traces :
  valid_config i -> hits i = 0 ->
  exists h,
    entry <$> sim_set_associative i g_traces
      = Some (h, Z.of_nat (length g_traces)) /\
    0 <= h <= Z.of_nat (length g_traces).
Proof.
  intros Hc H0. unfold sim_set_associative.
  rewrite bool_decide_eq_true_2 by apply Hc.
  destruct (run_invariant (set_accesses i (Z.of_nat (length g_traces)))
              Hc g_traces empty_cache (hits i) 0
              empty_cache_wf ltac:(lia) empty_cache_bounded)
    as (c & h & E & _ & _ & Hh).
  cbn [hits set_accesses]. rewrite E. exists h. split; [reflexivity|]. lia.
Qed.

Lemma run_each_entries g_traces : forall infos,
  Forall (fun i => valid_config i /\ hits i = 0) infos ->
  exists row,
    run_each g_traces infos = Some row /\
    length row = length infos /\
    Forall (fun e => e.2 = Z.of_nat (length g_traces) /\ 0 <= e.1 <= e.2) row.
Proof.
  unfold run_each.
  induction infos as [|i rest IH]; intros Hall.
  - exists []. repeat split. constructor.
  - inversion Hall as [|? ? (Hc & H0) Hrest]; subst.
    destruct (sim_set_associative_entry i g_traces Hc H0) as (h & E & Hh).
    destruct (IH Hrest) as (row & Er & Hl & Hrow).
    exists ((h, Z.of_nat (length g_traces)) :: row).
    cbn [mapM]. rewrite E. cbn [mbind option_bind]. rewrite Er.
    split; [reflexivity|]. split; [cbn [length]; lia|].
    constructor; [cbn [fst snd]; lia|exact Hrow].
Qed.

Lemma fully_associative_entry g_traces :
  exists h,
    entry (FullyAssoc.sim_fully_associative (mkThreadInfo 0 0 0 0 OPTION_NONE) g_traces)
      = (h, Z.of_nat (length g_traces)) /\
    0 <= h <= Z.of_nat (length g_traces).
Proof.
  unfold FullyAssoc.sim_fully_associative.
  destruct (fa_run_invariant g_traces FullyAssoc.empty_cache 0 0
              eq_refl ltac:(lia) fa_empty_bounded)
    as (c & h & E & _ & _ & Hh).
  cbn [hits set_accesses]. rewrite E. exists h. split; [reflexivity|]. lia.
Qed.

Lemma pseudo_lru_entry g_traces :
  exists h,
    entry (PseudoLRU.sim_fully_associative_pseudo
             (mkThreadInfo 0 0 0 0 OPTION_NONE) g_traces)
      = (h, Z.of_nat (length g_traces)) /\
    0 <= h <= Z.of_nat (length g_traces).
Proof.
  unfold PseudoLRU.sim_fully_associative_pseudo.
  pose proof (plru_run_hits g_traces PseudoLRU.empty_cache 0 ltac:(lia)) as Hh.
  cbn [hits set_accesses].
  destruct (fold_left PseudoLRU.body g_traces (PseudoLRU.empty_cache, 0)) as [c h].
  cbn [snd] in Hh. exists h. split; [reflexivity|]. lia.
Qed.

(** With loads only and two ways or more, the size field and the choice
    between OPTION_NONE and OPTION_WRITE_ON_MISS do not show in the
    outcome. *)
Lemma entry_same_on_loads i j g_traces :
  2 <= ways i <= 16 -> ways j = ways i -> hits j = hits i ->
  options i = OPTION_NONE \/ options i = OPTION_WRITE_ON_MISS ->
  options j = OPTION_NONE \/ options j = OPTION_WRITE_ON_MISS ->
  Forall (fun t => op t = LOAD) g_traces ->
  entry <$> sim_set_associative i g_traces
    = entry <$> sim_set_associative j g_traces.
Proof.
  intros Hw Ew Eh Hi Hj Hl. unfold sim_set_associative. rewrite Ew.
  destruct (bool_decide (1 <= ways i <= 16)); [|reflexivity].
  set (i' := set_accesses i _). set (j' := set_accesses j _).
  change (hits i') with (hits i). change (hits j') with (hits j). rewrite Eh.
  assert (Hrun : for_traces (body i') g_traces (empty_cache, hits i)
                 = for_traces (body j') g_traces (empty_cache, hits i)).
  { apply (for_traces_ext_on (fun t => op t = LOAD)); [|exact Hl].
    intros st t Hop.
    set (k := mkThreadInfo (hits j') (accesses j') (kb i') (ways j') (options j')).
    transitivity (body k st t).
    - apply body_same_on_loads; [exact Ew|reflexivity|].
      right. split; [exact Hop|]. split; assumption.
    - apply (body_ignores_kb j' k st t); [|reflexivity|reflexivity].
      change (ways j') with (ways j). lia. }
  rewrite Hrun.
  destruct (for_traces (body j') g_traces (empty_cache, hits i)) as [[c h]|];
    reflexivity.
Qed.

End MainProgram.

(** ** The lines written by [main] *)

Section MainExtras.
Import SetAssoc SetAssocSpec PolicySpec.

(** X18.  [main] on an input of at most 15000000 records: every
    configuration it builds is one the engine can run, so all seven
    lines are written, with 4, 4, 1, 1, 4, 4 and 4 entries; in every
    entry [accesses] is the number of records and [hits] lies between 0
    and [accesses]. *)
Theorem main_writes_seven_lines (input : list (ascii * Z)) :
  Z.of_nat (length input) <= g_traces_capacity ->
  exists rows,
    main input = Some rows /\
    map length rows = [4; 4; 1; 1; 4; 4; 4]%nat /\
    Forall (Forall (fun e => e.2 = Z.of_nat (length input) /\ 0 <= e.1 <= e.2))
           rows.
Proof.
  intros Hcap. unfold main.
  destruct (read_traces input) as [g_traces|] eqn:Er.
  2:{ unfold read_traces in Er. rewrite bool_decide_eq_true_2 in Er by exact Hcap.
      discriminate. }
  rewrite <- (read_traces_length input g_traces Er).
  cbn [mbind option_bind].
  rewrite direct_mapped_sizes_eq, associativities_eq. cbn [map].
  assert (Hcfg : forall k w o, (w = 1 /\ 0 <= k <= 32) \/ 2 <= w <= 16 ->
            valid_config (mkThreadInfo 0 0 k w o) /\
            hits (mkThreadInfo 0 0 k w o) = 0).
  { intros k w o Hw. split; [|reflexivity]. unfold valid_config. cbn [ways kb]. lia. }
  destruct (run_each_entries g_traces
              [mkThreadInfo 0 0 1 1 OPTION_NONE; mkThreadInfo 0 0 4 1 OPTION_NONE;
               mkThreadInfo 0 0 16 1 OPTION_NONE; mkThreadInfo 0 0 32 1 OPTION_NONE])
    as (r1 & -> & L1 & H1); [repeat constructor; apply Hcfg; lia|].
  destruct (run_each_entries g_traces
              [mkThreadInfo 0 0 0 2 OPTION_NONE; mkThreadInfo 0 0 0 4 OPTION_NONE;
               mkThreadInfo 0 0 0 8 OPTION_NONE; mkThreadInfo 0 0 0 16 OPTION_NONE])
    as (r2 & -> & L2 & H2); [repeat constructor; apply Hcfg; lia|].
  destruct (run_each_entries g_traces
              [mkThreadInfo 0 0 16 2 OPTION_WRITE_ON_MISS;
               mkThreadInfo 0 0 16 4 OPTION_WRITE_ON_MISS;
               mkThreadInfo 0 0 16 8 OPTION_WRITE_ON_MISS;
               mkThreadInfo 0 0 16 16 OPTION_WRITE_ON_MISS])
    as (r5 & -> & L5 & H5); [repeat constructor; apply Hcfg; lia|].
  destruct (run_each_entries g_traces
              [mkThreadInfo 0 0 0 2 OPTION_PREFETCH_ALWAYS;
               mkThreadInfo 0 0 0 4 OPTION_PREFETCH_ALWAYS;
               mkThreadInfo 0 0 0 8 OPTION_PREFETCH_ALWAYS;
               mkThreadInfo 0 0 0 16 OPTION_PREFETCH_ALWAYS])
    as (r6 & -> & L6 & H6); [repeat constructor; apply Hcfg; lia|].
  destruct (run_each_entries g_traces
              [mkThreadInfo 0 0 0 2 OPTION_PREFETCH_ON_MISS;
               mkThreadInfo 0 0 0 4 OPTION_PREFETCH_ON_MISS;
               mkThreadInfo 0 0 0 8 OPTION_PREFETCH_ON_MISS;
               mkThreadInfo 0 0 0 16 OPTION_PREFETCH_ON_MISS])
    as (r7 & -> & L7 & H7); [repeat constructor; apply Hcfg; lia|].
  cbn [mbind option_bind].
  destruct (fully_associative_entry g_traces) as (h3 & -> & H3).
  destruct (pseudo_lru_entry g_traces) as (h4 & -> & H4).
  eexists. split; [reflexivity|]. split.
  - cbn [map length]. rewrite L1, L2, L5, L6, L7. reflexivity.
  - repeat constructor; try assumption; cbn [fst snd]; lia.
Qed.

Lemma main_writes_seven_lines_witness :
  exists rows,
    main [("L"%char, 0); ("S"%char, 32)] = Some rows /\
    map length rows = [4; 4; 1; 1; 4; 4; 4]%nat /\
    Forall (Forall (fun e => e.2 = Z.of_nat (length [("L"%char, 0); ("S"%char, 32)])
                             /\ 0 <= e.1 <= e.2))
           rows.
Proof.
  apply (main_writes_seven_lines [("L"%char, 0); ("S"%char, 32)]).
  unfold g_traces_capacity. simpl. lia.
Defined.

(** X19.  [main] on an input of at most 15000000 records in which every
    record is a load: the line of the runs under OPTION_WRITE_ON_MISS
    (the fifth) is equal to the line of the plain set-associative runs
    (the second), though the two are configured with different sizes. *)
Theorem main_write_on_miss_line_on_loads (input : list (ascii * Z)) :
  Z.of_nat (length input) <= g_traces_capacity ->
  Forall (fun r => r.1 = "L"%char) input ->
  exists rows row,
    main input = Some rows /\
    rows !! 1%nat = Some row /\ rows !! 4%nat = Some row.
Proof.
  intros Hcap Hloads. unfold main.
  destruct (read_traces input) as [g_traces|] eqn:Er.
  2:{ unfold read_traces in Er. rewrite bool_decide_eq_true_2 in Er by exact Hcap.
      discriminate. }
  pose proof (read_traces_loads input g_traces Hloads Er) as Hl.
  cbn [mbind option_bind].
  rewrite direct_mapped_sizes_eq, associativities_eq. cbn [map].
  assert (Hcfg : forall k w o, (w = 1 /\ 0 <= k <= 32) \/ 2 <= w <= 16 ->
            valid_config (mkThreadInfo 0 0 k w o) /\
            hits (mkThreadInfo 0 0 k w o) = 0).
  { intros k w o Hw. split; [|reflexivity]. unfold valid_config. cbn [ways kb]. lia. }
  destruct (run_each_entries g_traces
              [mkThreadInfo 0 0 1 1 OPTION_NONE; mkThreadInfo 0 0 4 1 OPTION_NONE;
               mkThreadInfo 0 0 16 1 OPTION_NONE; mkThreadInfo 0 0 32 1 OPTION_NONE])
    as (r1 & -> & _); [repeat constructor; apply Hcfg; lia|].
  destruct (run_each_entries g_traces
              [mkThreadInfo 0 0 0 2 OPTION_PREFETCH_ALWAYS;
               mkThreadInfo 0 0 0 4 OPTION_PREFETCH_ALWAYS;
               mkThreadInfo 0 0 0 8 OPTION_PREFETCH_ALWAYS;
               mkThreadInfo 0 0 0 16 OPTION_PREFETCH_ALWAYS])
    as (r6 & -> & _); [repeat constructor; apply Hcfg; lia|].
  destruct (run_each_entries g_traces
              [mkThreadInfo 0 0 0 2 OPTION_PREFETCH_ON_MISS;
               mkThreadInfo 0 0 0 4 OPTION_PREFETCH_ON_MISS;
               mkThreadInfo 0 0 0 8 OPTION_PREFETCH_ON_MISS;
               mkThreadInfo 0 0 0 16 OPTION_PREFETCH_ON_MISS])
    as (r7 & -> & _); [repeat constructor; apply Hcfg; lia|].
  assert (Esame : run_each g_traces
              [mkThreadInfo 0 0 16 2 OPTION_WRITE_ON_MISS;
               mkThreadInfo 0 0 16 4 OPTION_WRITE_ON_MISS;
               mkThreadInfo 0 0 16 8 OPTION_WRITE_ON_MISS;
               mkThreadInfo 0 0 16 16 OPTION_WRITE_ON_MISS]
            = run_each g_traces
              [mkThreadInfo 0 0 0 2 OPTION_NONE; mkThreadInfo 0 0 0 4 OPTION_NONE;
               mkThreadInfo 0 0 0 8 OPTION_NONE; mkThreadInfo 0 0 0 16 OPTION_NONE]).
  { unfold run_each. cbn [mapM].
    rewrite (entry_same_on_loads (mkThreadInfo 0 0 16 2 OPTION_WRITE_ON_MISS)
               (mkThreadInfo 0 0 0 2 OPTION_NONE) g_traces);
      [|cbn; lia|reflexivity|reflexivity|right; reflexivity|left; reflexivity|exact Hl].
    rewrite (entry_same_on_loads (mkThreadInfo 0 0 16 4 OPTION_WRITE_ON_MISS)
               (mkThreadInfo 0 0 0 4 OPTION_NONE) g_traces);
      [|cbn; lia|reflexivity|reflexivity|right; reflexivity|left; reflexivity|exact Hl].
    rewrite (entry_same_on_loads (mkThreadInfo 0 0 16 8 OPTION_WRITE_ON_MISS)
               (mkThreadInfo 0 0 0 8 OPTION_NONE) g_traces);
      [|cbn; lia|reflexivity|reflexivity|right; reflexivity|left; reflexivity|exact Hl].
    rewrite (entry_same_on_loads (mkThreadInfo 0 0 16 16 OPTION_WRITE_ON_MISS)
               (mkThreadInfo 0 0 0 16 OPTION_NONE) g_traces);
      [|cbn; lia|reflexivity|reflexivity|right; reflexivity|left; reflexivity|exact Hl].
    reflexivity. }
  rewrite Esame.
  destruct (run_each_entries g_traces
              [mkThreadInfo 0 0 0 2 OPTION_NONE; mkThreadInfo 0 0 0 4 OPTION_NONE;
               mkThreadInfo 0 0 0 8 OPTION_NONE; mkThreadInfo 0 0 0 16 OPTION_NONE])
    as (r2 & -> & _); [repeat constructor; apply Hcfg; lia|].
  cbn [mbind option_bind].
  eexists. exists r2. split; [reflexivity|]. split; reflexivity.
Qed.

Lemma main_write_on_miss_line_on_loads_witness :
  exists rows row,
    main [("L"%char, 0); ("L"%char, 32)] = Some rows /\
    rows !! 1%nat = Some row /\ rows !! 4%nat = Some row.
Proof.
  apply (main_write_on_miss_line_on_loads [("L"%char, 0); ("L"%char, 32)]).
  - unfold g_traces_capacity. simpl. lia.
  - repeat constructor.
Defined.

End MainExtras.

(** * Part VI: the branch predictors *)

(** ** Two-bit counters and the history register *)

Section PredictorCounters.
Import Predictors.

Lemma train_range c a : 0 <= c <= 3 -> 0 <= train c a <= 3.
Proof.
  intros Hc. unfold train, WEAK_YES, WEAK_NO.
  destruct a; cbn [andb negb].
  - destruct (Z.leb_spec c 2); [rewrite wrap_small|]; lia.
  - destruct (Z.leb_spec 1 c); [rewrite wrap_small|]; lia.
Qed.

Lemma train_value c a :
  0 <= c <= 3 ->
  train c a = if a then Z.min 3 (c + 1) else Z.max 0 (c - 1).
Proof.
  intros Hc. unfold train, WEAK_YES, WEAK_NO.
  destruct a; cbn [andb negb].
  - destruct (Z.leb_spec c 2); [rewrite wrap_small|]; lia.
  - destruct (Z.leb_spec 1 c); [rewrite wrap_small|]; lia.
Qed.

Lemma predicted_after_two c a :
  0 <= c <= 3 -> predicted (train (train c a) a) a = true.
Proof.
  intros Hc. pose proof (train_range c a Hc) as Hr.
  rewrite (train_value (train c a) a Hr), (train_value c a Hc).
  unfold predicted, WEAK_YES. destruct a.
  - destruct (Z.leb_spec 2 (Z.min 3 (Z.min 3 (c + 1) + 1))); [reflexivity|lia].
  - destruct (Z.leb_spec 2 (Z.max 0 (Z.max 0 (c - 1) - 1))); [lia|reflexivity].
Qed.

Lemma count_step (c : Z) (b : bool) :
  0 <= c -> 0 <= (if b then wrap32 (c + 1) else c) <= c + 1.
Proof.
  intros Hc. destruct b; [apply wrap32_succ_le, Hc|lia].
Qed.

Lemma index_in_table a table_size :
  0 < table_size < 2 ^ 31 ->
  wrap32 (a mod table_size) = a mod table_size /\
  (Z.to_nat (a mod table_size) < Z.to_nat table_size)%nat.
Proof.
  intros Ht. pose proof (Z.mod_pos_bound a table_size ltac:(lia)) as Hm.
  split; [apply wrap32_small; lia|lia].
Qed.

Lemma lxor_bound a b n :
  0 <= n -> 0 <= a < 2 ^ n -> 0 <= b < 2 ^ n -> 0 <= Z.lxor a b < 2 ^ n.
Proof.
  intros Hn Ha Hb.
  assert (H0 : 0 <= Z.lxor a b) by (apply Z.lxor_nonneg; lia).
  split; [exact H0|].
  destruct (Z.eq_dec (Z.lxor a b) 0) as [->|Hnz]; [apply Z.pow_pos_nonneg; lia|].
  assert (Hpos : 0 < n).
  { destruct (Z.eq_dec n 0) as [->|]; [|lia].
    assert (a = 0) as -> by (cbn in Ha; lia).
    assert (b = 0) as -> by (cbn in Hb; lia).
    exfalso. apply Hnz. reflexivity. }
  apply Z.log2_lt_pow2; [lia|].
  pose proof (Z.log2_lxor a b ltac:(lia) ltac:(lia)) as Hl.
  assert (Z.log2 a < n).
  { destruct (Z.eq_dec a 0) as [->|]; [cbn; lia|]. apply Z.log2_lt_pow2; lia. }
  assert (Z.log2 b < n).
  { destruct (Z.eq_dec b 0) as [->|]; [cbn; lia|]. apply Z.log2_lt_pow2; lia. }
  lia.
Qed.

(** The mask clears the 16 bits from [history_size] on and keeps the bits
    below. *)
Lemma ghr_mask x history_size :
  0 <= history_size <= 15 -> 0 <= x < 2 ^ (history_size + 16) ->
  Z.land x (wrap32 (Z.lnot (Z.shiftl 65535 history_size)))
    = x mod 2 ^ history_size.
Proof.
  intros Hh Hx. apply Z.bits_inj'. intros k Hk.
  rewrite Z.land_spec.
  destruct (Z.lt_ge_cases k history_size) as [Hlt|Hge].
  - rewrite Z.mod_pow2_bits_low by lia.
    unfold wrap32, wrap. rewrite Z.mod_pow2_bits_low by lia.
    rewrite Z.lnot_spec by lia. rewrite Z.shiftl_spec_low by lia.
    apply andb_true_r.
  - rewrite Z.mod_pow2_bits_high by lia.
    destruct (Z.lt_ge_cases k (history_size + 16)) as [Hlt|Hge'].
    + unfold wrap32, wrap. rewrite Z.mod_pow2_bits_low by lia.
      rewrite Z.lnot_spec by lia. rewrite Z.shiftl_spec by lia.
      change 65535 with (Z.ones 16). rewrite Z.ones_spec_low by lia.
      apply andb_false_r.
    + rewrite <- (Z.mod_small x (2 ^ (history_size + 16))) by lia.
      rewrite Z.mod_pow2_bits_high by lia. reflexivity.
Qed.

Lemma next_ghr_spec history_size ghr a :
  0 <= history_size <= 15 -> 0 <= ghr < 2 ^ history_size ->
  next_ghr history_size ghr a = (2 * ghr + Z.b2z a) mod 2 ^ history_size.
Proof.
  intros Hh Hg. unfold next_ghr. rewrite Z.shiftl_mul_pow2 by lia.
  assert (Hp : 2 ^ history_size <= 2 ^ 15) by (apply Z.pow_le_mono_r; lia).
  assert (Hb : 0 <= Z.b2z a <= 1) by (destruct a; cbn; lia).
  change (2 ^ 1) with 2. rewrite wrap32_small by lia.
  rewrite ghr_mask; [f_equal; lia|exact Hh|].
  rewrite Z.pow_add_r by lia. lia.
Qed.

Lemma next_ghr_range history_size ghr a :
  0 <= history_size <= 15 -> 0 <= ghr < 2 ^ history_size ->
  0 <= next_ghr history_size ghr a < 2 ^ history_size.
Proof.
  intros Hh Hg. rewrite next_ghr_spec by assumption.
  apply Z.mod_pos_bound. apply Z.pow_pos_nonneg; lia.
Qed.

Lemma gshare_index a ghr history_size :
  0 <= history_size <= 11 -> 0 <= ghr < 2 ^ history_size ->
  wrap32 (Z.lxor (a mod 2048) ghr) = Z.lxor (a mod 2048) ghr /\
  (Z.to_nat (Z.lxor (a mod 2048) ghr) < 2048)%nat.
Proof.
  intros Hh Hg.
  assert (Hp : 2 ^ history_size <= 2 ^ 11) by (apply Z.pow_le_mono_r; lia).
  pose proof (Z.mod_pos_bound a 2048 ltac:(lia)) as Hm.
  pose proof (lxor_bound (a mod 2048) ghr 11 ltac:(lia) ltac:(lia) ltac:(lia)) as Hx.
  split; [apply wrap32_small; lia|lia].
Qed.

End PredictorCounters.

(** ** Invariants of the predictor runs *)

Section PredictorRuns.
Import Predictors.

Lemma always_run : forall g_traces ct cf,
  0 <= ct -> 0 <= cf -> ct + cf + Z.of_nat (length g_traces) < 2 ^ 32 ->
  fold_left (always_body true) g_traces ct
    + fold_left (always_body false) g_traces cf
  = ct + cf + Z.of_nat (length g_traces).
Proof.
  induction g_traces as [|branch rest IH]; intros ct cf Ht Hf Hlen.
  - cbn. lia.
  - cbn [fold_left length] in *. unfold always_body at 2 4.
    destruct (actual branch); cbn [Bool.eqb].
    + rewrite wrap32_small by lia. rewrite IH by lia. lia.
    + rewrite wrap32_small by lia. rewrite IH by lia. lia.
Qed.

Lemma bimodal_one_step table_size hist c branch :
  0 < table_size < 2 ^ 31 -> length hist = Z.to_nat table_size ->
  exists h,
    hist !! Z.to_nat (addr branch mod table_size) = Some h /\
    bimodal_one_body table_size (hist, c) branch
      = Some (<[Z.to_nat (addr branch mod table_size) := actual branch]> hist,
              if Bool.eqb h (actual branch) then wrap32 (c + 1) else c).
Proof.
  intros Ht Hl. unfold bimodal_one_body.
  destruct (index_in_table (addr branch) table_size Ht) as (-> & Hi).
  destruct (lookup_lt_is_Some_2 hist (Z.to_nat (addr branch mod table_size))
              ltac:(lia)) as [h Eh].
  exists h. rewrite Eh. split; reflexivity.
Qed.

Lemma bimodal_one_run table_size : 0 < table_size < 2 ^ 31 ->
  forall g_traces hist c,
    length hist = Z.to_nat table_size -> 0 <= c ->
    exists hist' c',
      for_branches (bimodal_one_body table_size) g_traces (hist, c)
        = Some (hist', c') /\
      0 <= c' <= c + Z.of_nat (length g_traces).
Proof.
  intros Ht. induction g_traces as [|branch rest IH]; intros hist c Hl Hc.
  - exists hist, c. split; [reflexivity|]. cbn. lia.
  - cbn [for_branches length].
    destruct (bimodal_one_step table_size hist c branch Ht Hl) as (h & _ & ->).
    cbn [mbind option_bind].
    pose proof (count_step c (Bool.eqb h (actual branch)) Hc) as Hs.
    destruct (IH (<[Z.to_nat (addr branch mod table_size) := actual branch]> hist)
                 (if Bool.eqb h (actual branch) then wrap32 (c + 1) else c)
                 ltac:(rewrite length_insert; exact Hl) ltac:(lia))
      as (hist' & c' & -> & Hc').
    exists hist', c'. split; [reflexivity|]. lia.
Qed.

Lemma bimodal_two_step table_size hist c branch :
  0 < table_size < 2 ^ 31 -> length hist = Z.to_nat table_size ->
  exists v,
    hist !! Z.to_nat (addr branch mod table_size) = Some v /\
    bimodal_two_body table_size (hist, c) branch
      = Some (<[Z.to_nat (addr branch mod table_size) := train v (actual branch)]> hist,
              if predicted v (actual branch) then wrap32 (c + 1) else c).
Proof.
  intros Ht Hl. unfold bimodal_two_body.
  destruct (index_in_table (addr branch) table_size Ht) as (-> & Hi).
  destruct (lookup_lt_is_Some_2 hist (Z.to_nat (addr branch mod table_size))
              ltac:(lia)) as [v Ev].
  exists v. rewrite Ev. split; reflexivity.
Qed.

Lemma counters_insert (hist : list Z) n v a :
  Forall (fun x => 0 <= x <= 3) hist -> hist !! n = Some v ->
  Forall (fun x => 0 <= x <= 3) (<[n := train v a]> hist).
Proof.
  intros Hall Ev. apply Forall_insert; [exact Hall|].
  apply train_range. rewrite Forall_lookup in Hall. exact (Hall n v Ev).
Qed.

Lemma bimodal_two_run table_size : 0 < table_size < 2 ^ 31 ->
  forall g_traces hist c,
    length hist = Z.to_nat table_size ->
    Forall (fun x => 0 <= x <= 3) hist -> 0 <= c ->
    exists hist' c',
      for_branches (bimodal_two_body table_size) g_traces (hist, c)
        = Some (hist', c') /\
      length hist' = Z.to_nat table_size /\
      Forall (fun x => 0 <= x <= 3) hist' /\
      0 <= c' <= c + Z.of_nat (length g_traces).
Proof.
  intros Ht. induction g_traces as [|branch rest IH]; intros hist c Hl Hall Hc.
  - exists hist, c. split; [reflexivity|]. cbn. repeat split; (assumption || lia).
  - cbn [for_branches length].
    destruct (bimodal_two_step table_size hist c branch Ht Hl) as (v & Ev & ->).
    cbn [mbind option_bind].
    pose proof (count_step c (predicted v (actual branch)) Hc) as Hs.
    destruct (IH (<[Z.to_nat (addr branch mod table_size) := train v (actual branch)]> hist)
                 (if predicted v (actual branch) then wrap32 (c + 1) else c)
                 ltac:(rewrite length_insert; exact Hl)
                 (counters_insert _ _ _ _ Hall Ev) ltac:(lia))
      as (hist' & c' & -> & Hl' & Hall' & Hc').
    exists hist', c'. split; [reflexivity|].
    split; [exact Hl'|]. split; [exact Hall'|]. lia.
Qed.

Lemma gshare_step history_size hist c ghr branch :
  0 <= history_size <= 11 -> length hist = 2048%nat ->
  0 <= ghr < 2 ^ history_size ->
  exists v,
    hist !! Z.to_nat (Z.lxor (addr branch mod 2048) ghr) = Some v /\
    gshare_body history_size (hist, c, ghr) branch
      = Some (<[Z.to_nat (Z.lxor (addr branch mod 2048) ghr)
                := train v (actual branch)]> hist,
              if predicted v (actual branch) then wrap32 (c + 1) else c,
              next_ghr history_size ghr (actual branch)).
Proof.
  intros Hh Hl Hg. unfold gshare_body.
  destruct (gshare_index (addr branch) ghr history_size Hh Hg) as (-> & Hi).
  destruct (lookup_lt_is_Some_2 hist (Z.to_nat (Z.lxor (addr branch mod 2048) ghr))
              ltac:(lia)) as [v Ev].
  exists v. rewrite Ev. split; reflexivity.
Qed.

Lemma gshare_run history_size : 0 <= history_size <= 11 ->
  forall g_traces hist c ghr,
    length hist = 2048%nat -> Forall (fun x => 0 <= x <= 3) hist ->
    0 <= c -> 0 <= ghr < 2 ^ history_size ->
    exists hist' c' ghr',
      for_branches (gshare_body history_size) g_traces (hist, c, ghr)
        = Some (hist', c', ghr') /\
      length hist' = 2048%nat /\
      Forall (fun x => 0 <= x <= 3) hist' /\
      0 <= c' <= c + Z.of_nat (length g_traces) /\
      0 <= ghr' < 2 ^ history_size.
Proof.
  intros Hh. induction g_traces as [|branch rest IH]; intros hist c ghr Hl Hall Hc Hg.
  - exists hist, c, ghr. split; [reflexivity|]. cbn.
    repeat split; (assumption || lia).
  - cbn [for_branches length].
    destruct (gshare_step history_size hist c ghr branch Hh Hl Hg) as (v & Ev & ->).
    cbn [mbind option_bind].
    pose proof (count_step c (predicted v (actual branch)) Hc) as Hs.
    destruct (IH (<[Z.to_nat (Z.lxor (addr branch mod 2048) ghr)
                    := train v (actual branch)]> hist)
                 (if predicted v (actual branch) then wrap32 (c + 1) else c)
                 (next_ghr history_size ghr (actual branch))
                 ltac:(rewrite length_insert; exact Hl)
                 (counters_insert _ _ _ _ Hall Ev) ltac:(lia)
                 (next_ghr_range history_size ghr (actual branch) ltac:(lia) Hg))
      as (hist' & c' & ghr' & -> & Hl' & Hall' & Hc' & Hg').
    exists hist', c', ghr'. split; [reflexivity|].
    split; [exact Hl'|]. split; [exact Hall'|]. split; [lia|exact Hg'].
Qed.

(** With no history bit the register stays 0 and the table is indexed by
    the address alone. *)
Lemma gshare_0_run : forall g_traces hist c,
  for_branches (gshare_body 0) g_traces (hist, c, 0)
  = (fun st => (st, 0)) <$> for_branches (bimodal_two_body 2048) g_traces (hist, c).
Proof.
  induction g_traces as [|branch rest IH]; intros hist c; [reflexivity|].
  cbn [for_branches]. unfold gshare_body, bimodal_two_body.
  rewrite Z.lxor_0_r.
  destruct (hist !! Z.to_nat (wrap32 (addr branch mod 2048))) as [v|];
    [|reflexivity].
  cbn [mbind option_bind].
  rewrite (next_ghr_spec 0 0 (actual branch)) by (cbn; lia).
  change (2 ^ 0) with 1. rewrite Z.mod_1_r. apply IH.
Qed.

Lemma selector_insert (selector : list Z) n sel (up : bool) :
  Forall (fun x => 0 <= x <= 3) selector -> selector !! n = Some sel ->
  (if up then sel <= 2 else 1 <= sel) ->
  Forall (fun x => 0 <= x <= 3)
    (<[n := wrap 8 (if up then sel + 1 else sel - 1)]> selector).
Proof.
  intros Hall Es Hs. apply Forall_insert; [exact Hall|].
  rewrite Forall_lookup in Hall. pose proof (Hall n sel Es) as Hr. cbn beta in Hr.
  destruct up; rewrite wrap_small; lia.
Qed.

Lemma tournament_step gshare bimodal selector c ghr branch :
  length gshare = 2048%nat -> length bimodal = 2048%nat ->
  length selector = 2048%nat ->
  Forall (fun x => 0 <= x <= 3) gshare -> Forall (fun x => 0 <= x <= 3) bimodal ->
  Forall (fun x => 0 <= x <= 3) selector ->
  0 <= c -> 0 <= ghr < 2 ^ 11 ->
  exists gshare' bimodal' selector' c' ghr',
    tournament_body (gshare, bimodal, selector, c, ghr) branch
      = Some (gshare', bimodal', selector', c', ghr') /\
    length gshare' = 2048%nat /\ length bimodal' = 2048%nat /\
    length selector' = 2048%nat /\
    Forall (fun x => 0 <= x <= 3) gshare' /\
    Forall (fun x => 0 <= x <= 3) bimodal' /\
    Forall (fun x => 0 <= x <= 3) selector' /\
    0 <= c' <= c + 1 /\ 0 <= ghr' < 2 ^ 11.
Proof.
  intros Lg Lb Ls Hg Hb Hs Hc Hghr. unfold tournament_body.
  destruct (gshare_index (addr branch) ghr 11 ltac:(lia) Hghr) as (-> & Hi).
  destruct (index_in_table (addr branch) 2048 ltac:(lia)) as (-> & Hi2).
  set (g := Z.to_nat (Z.lxor (addr branch mod 2048) ghr)) in *.
  set (b := Z.to_nat (addr branch mod 2048)) in *.
  destruct (lookup_lt_is_Some_2 gshare g ltac:(lia)) as [cg Eg].
  destruct (lookup_lt_is_Some_2 bimodal b ltac:(lia)) as [cb Eb].
  destruct (lookup_lt_is_Some_2 selector b ltac:(lia)) as [sel Es].
  rewrite Eg, Eb, Es. cbn [mbind option_bind].
  set (gc := predicted cg (actual branch)).
  set (bc := predicted cb (actual branch)).
  set (c1 := if (sel <=? WEAK_PREFER_GSHARE) && gc then wrap32 (c + 1)
             else if (WEAK_PREFER_BIMODAL <=? sel) && bc then wrap32 (c + 1)
                  else c).
  assert (Hc1 : 0 <= c1 <= c + 1).
  { unfold c1. pose proof (wrap32_succ_le c Hc).
    destruct ((sel <=? WEAK_PREFER_GSHARE) && gc); [lia|].
    destruct ((WEAK_PREFER_BIMODAL <=? sel) && bc); lia. }
  set (selector1 := if negb (Bool.eqb bc gc) then _ else selector).
  assert (Hsel1 : length selector1 = 2048%nat /\
                  Forall (fun x => 0 <= x <= 3) selector1).
  { unfold selector1, WEAK_PREFER_BIMODAL, WEAK_PREFER_GSHARE.
    destruct (negb (Bool.eqb bc gc)); [|split; assumption].
    destruct bc; cbn [andb].
    - destruct (Z.leb_spec sel 2).
      + split; [rewrite length_insert; exact Ls|].
        apply (selector_insert selector b sel true Hs Es). lia.
      + destruct gc; cbn [andb]; [|split; assumption].
        destruct (Z.leb_spec 1 sel); [|split; assumption].
        split; [rewrite length_insert; exact Ls|].
        apply (selector_insert selector b sel false Hs Es). lia.
    - destruct gc; cbn [andb]; [|split; assumption].
      destruct (Z.leb_spec 1 sel); [|split; assumption].
      split; [rewrite length_insert; exact Ls|].
      apply (selector_insert selector b sel false Hs Es). lia. }
  destruct Hsel1 as (Ls1 & Hs1).
  do 5 eexists. split; [reflexivity|].
  split; [rewrite length_insert; exact Lg|].
  split; [rewrite length_insert; exact Lb|].
  split; [exact Ls1|].
  split; [exact (counters_insert _ _ _ _ Hg Eg)|].
  split; [exact (counters_insert _ _ _ _ Hb Eb)|].
  split; [exact Hs1|]. split; [exact Hc1|].
  apply next_ghr_range; [lia|exact Hghr].
Qed.

Lemma tournament_run : forall g_traces gshare bimodal selector c ghr,
  length gshare = 2048%nat -> length bimodal = 2048%nat ->
  length selector = 2048%nat ->
  Forall (fun x => 0 <= x <= 3) gshare -> Forall (fun x => 0 <= x <= 3) bimodal ->
  Forall (fun x => 0 <= x <= 3) selector ->
  0 <= c -> 0 <= ghr < 2 ^ 11 ->
  exists gshare' bimodal' selector' c' ghr',
    for_branches tournament_body g_traces (gshare, bimodal, selector, c, ghr)
      = Some (gshare', bimodal', selector', c', ghr') /\
    Forall (fun x => 0 <= x <= 3) gshare' /\
    Forall (fun x => 0 <= x <= 3) bimodal' /\
    Forall (fun x => 0 <= x <= 3) selector' /\
    0 <= c' <= c + Z.of_nat (length g_traces).
Proof.
  induction g_traces as [|branch rest IH];
    intros gshare bimodal selector c ghr Lg Lb Ls Hg Hb Hs Hc Hghr.
  - do 5 eexists. split; [reflexivity|]. cbn. repeat split; (assumption || lia).
  - cbn [for_branches length].
    destruct (tournament_step gshare bimodal selector c ghr branch
                Lg Lb Ls Hg Hb Hs Hc Hghr)
      as (g1 & b1 & s1 & c1 & ghr1 & -> & Lg1 & Lb1 & Ls1 & Hg1 & Hb1 & Hs1 & Hc1 & Hghr1).
    cbn [mbind option_bind].
    destruct (IH g1 b1 s1 c1 ghr1 Lg1 Lb1 Ls1 Hg1 Hb1 Hs1 ltac:(lia) Hghr1)
      as (g' & b' & s' & c' & ghr' & -> & Hg' & Hb' & Hs' & Hc').
    do 5 eexists. split; [reflexivity|].
    split; [exact Hg'|]. split; [exact Hb'|]. split; [exact Hs'|]. lia.
Qed.

Lemma btb_step hist btb c a branch :
  length hist = 512%nat -> length btb = 512%nat ->
  0 <= c <= a -> a + 1 < 2 ^ 32 ->
  exists hist' btb' c' a',
    btb_body (hist, btb, c, a) branch = Some (hist', btb', c', a') /\
    length hist' = 512%nat /\ length btb' = 512%nat /\
    0 <= c' <= a' /\ a' <= a + 1.
Proof.
  intros Lh Lb Hc Ha. unfold btb_body.
  destruct (index_in_table (addr branch) 512 ltac:(lia)) as (-> & Hi).
  set (index := Z.to_nat (addr branch mod 512)) in *.
  destruct (lookup_lt_is_Some_2 hist index ltac:(lia)) as [h Eh].
  destruct (lookup_lt_is_Some_2 btb index ltac:(lia)) as [t Et].
  rewrite Eh, Et. cbn [mbind option_bind].
  set (btb1 := if actual branch then _ else btb).
  assert (Lb1 : length btb1 = 512%nat).
  { unfold btb1. destruct (actual branch); [rewrite length_insert|]; exact Lb. }
  destruct h.
  - rewrite (wrap32_small (a + 1)) by lia.
    pose proof (count_step c (target branch =? t) ltac:(lia)) as Hs.
    do 4 eexists. split; [reflexivity|].
    split; [rewrite length_insert; exact Lh|]. split; [exact Lb1|]. lia.
  - do 4 eexists. split; [reflexivity|].
    split; [rewrite length_insert; exact Lh|]. split; [exact Lb1|]. lia.
Qed.

Lemma btb_run : forall g_traces hist btb c a,
  length hist = 512%nat -> length btb = 512%nat ->
  0 <= c <= a -> a + Z.of_nat (length g_traces) < 2 ^ 32 ->
  exists hist' btb' c' a',
    for_branches btb_body g_traces (hist, btb, c, a)
      = Some (hist', btb', c', a') /\
    0 <= c' <= a' /\ a' <= a + Z.of_nat (length g_traces).
Proof.
  induction g_traces as [|branch rest IH]; intros hist btb c a Lh Lb Hc Ha.
  - do 4 eexists. split; [reflexivity|]. cbn. lia.
  - cbn [for_branches length] in *.
    destruct (btb_step hist btb c a branch Lh Lb Hc ltac:(lia))
      as (h1 & b1 & c1 & a1 & -> & Lh1 & Lb1 & Hc1 & Ha1).
    cbn [mbind option_bind].
    destruct (IH h1 b1 c1 a1 Lh1 Lb1 Hc1 ltac:(lia))
      as (h' & b' & c' & a' & -> & Hc' & Ha').
    do 4 eexists. split; [reflexivity|]. lia.
Qed.

Lemma all_strong_yes n : Forall (fun x => 0 <= x <= 3) (replicate n STRONG_YES).
Proof. apply Forall_replicate. unfold STRONG_YES. lia. Qed.

End PredictorRuns.

(** ** What the predictors count *)

Section PredictorExtras.
Import Predictors.

(** X20.  On a trace of fewer than 2^32 branches, the two runs of
    [sim_always] (always taken, never taken) split the branches between
    them: their [correct] counts add up to the number of branches. *)
Theorem sim_always_complement (g_traces : list Pair) :
  Z.of_nat (length g_traces) < 2 ^ 32 ->
  sim_always true g_traces + sim_always false g_traces
    = Z.of_nat (length g_traces).
Proof.
  intros Hlen. unfold sim_always.
  rewrite (always_run g_traces 0 0) by lia. lia.
Qed.

Lemma sim_always_complement_witness :
  sim_always true [mkPair 4096 4200 true; mkPair 4100 4000 false; mkPair 4096 4200 true]
  + sim_always false [mkPair 4096 4200 true; mkPair 4100 4000 false; mkPair 4096 4200 true]
  = Z.of_nat (length [mkPair 4096 4200 true; mkPair 4100 4000 false; mkPair 4096 4200 true]).
Proof.
  apply (sim_always_complement
           [mkPair 4096 4200 true; mkPair 4100 4000 false; mkPair 4096 4200 true]).
  simpl. lia.
Defined.

(** X21.  [sim_bimodal_one] predicts the last outcome seen at the table
    entry: of two branches processed in a row that fall on the same entry,
    the second is counted as correct exactly when its outcome is the
    outcome of the first. *)
Theorem bimodal_one_predicts_last_outcome
    (table_size : Z) (hist : list bool) (c : Z) (b1 b2 : Pair)
    (hist1 : list bool) (c1 : Z) :
  0 < table_size < 2 ^ 31 -> length hist = Z.to_nat table_size ->
  addr b2 mod table_size = addr b1 mod table_size ->
  bimodal_one_body table_size (hist, c) b1 = Some (hist1, c1) ->
  exists hist2,
    bimodal_one_body table_size (hist1, c1) b2
      = Some (hist2, if Bool.eqb (actual b1) (actual b2)
                     then wrap32 (c1 + 1) else c1).
Proof.
  intros Ht Hl Ei E1.
  destruct (bimodal_one_step table_size hist c b1 Ht Hl) as (h & Eh & E1').
  rewrite E1 in E1'. injection E1' as -> ->.
  pose proof (index_in_table (addr b1) table_size Ht) as (_ & Hi).
  destruct (bimodal_one_step table_size
              (<[Z.to_nat (addr b1 mod table_size) := actual b1]> hist)
              (if Bool.eqb h (actual b1) then wrap32 (c + 1) else c) b2 Ht
              ltac:(rewrite length_insert; exact Hl)) as (h2 & Eh2 & ->).
  rewrite Ei, list_lookup_insert_eq in Eh2 by lia. injection Eh2 as <-.
  eexists. reflexivity.
Qed.

Lemma bimodal_one_predicts_last_outcome_witness :
  exists hist2,
    bimodal_one_body 16 (<[3%nat := false]> (replicate 16 true), 0)
                     (mkPair 35 80 false)
      = Some (hist2, if Bool.eqb (actual (mkPair 19 64 false))
                                 (actual (mkPair 35 80 false))
                     then wrap32 (0 + 1) else 0).
Proof.
  apply (bimodal_one_predicts_last_outcome 16 (replicate 16 true) 0
           (mkPair 19 64 false) (mkPair 35 80 false)).
  - lia.
  - reflexivity.
  - reflexivity.
  - reflexivity.
Defined.

(** X22.  For a table size from 1 to 2^31 - 1, every access of
    [sim_bimodal_one] is inside the table: the run is defined, and
    [correct] lies between 0 and the number of branches. *)
Theorem bimodal_one_run_defined (table_size : Z) (g_traces : list Pair) :
  0 < table_size < 2 ^ 31 ->
  exists c, sim_bimodal_one table_size g_traces = Some c /\
            0 <= c <= Z.of_nat (length g_traces).
Proof.
  intros Ht. unfold sim_bimodal_one.
  rewrite bool_decide_eq_true_2 by exact Ht.
  destruct (bimodal_one_run table_size Ht g_traces
              (replicate (Z.to_nat table_size) true) 0
              ltac:(apply length_replicate) ltac:(lia))
    as (hist' & c' & -> & Hc).
  exists c'. split; [reflexivity|]. lia.
Qed.

Lemma bimodal_one_run_defined_witness :
  exists c, sim_bimodal_one 16 [mkPair 19 64 false; mkPair 35 80 false] = Some c /\
            0 <= c <= Z.of_nat (length [mkPair 19 64 false; mkPair 35 80 false]).
Proof.
  apply (bimodal_one_run_defined 16 [mkPair 19 64 false; mkPair 35 80 false]).
  lia.
Defined.

(** X23.  For a table size from 1 to 2^31 - 1, the run of
    [sim_bimodal_two] is defined, every counter of the table it ends with
    is between STRONG_NO and STRONG_YES, and [correct] lies between 0 and
    the number of branches. *)
Theorem bimodal_two_counters_saturate (table_size : Z) (g_traces : list Pair) :
  0 < table_size < 2 ^ 31 ->
  exists hist c,
    for_branches (bimodal_two_body table_size) g_traces
      (replicate (Z.to_nat table_size) STRONG_YES, 0) = Some (hist, c) /\
    sim_bimodal_two table_size g_traces = Some c /\
    Forall (fun x => STRONG_NO <= x <= STRONG_YES) hist /\
    0 <= c <= Z.of_nat (length g_traces).
Proof.
  intros Ht. unfold sim_bimodal_two.
  rewrite bool_decide_eq_true_2 by exact Ht.
  destruct (bimodal_two_run table_size Ht g_traces
              (replicate (Z.to_nat table_size) STRONG_YES) 0
              ltac:(apply length_replicate) (all_strong_yes _) ltac:(lia))
    as (hist' & c' & -> & _ & Hall & Hc).
  exists hist', c'. split; [reflexivity|]. split; [reflexivity|].
  split; [exact Hall|]. lia.
Qed.

Lemma bimodal_two_counters_saturate_witness :
  exists hist c,
    for_branches (bimodal_two_body 16) [mkPair 19 64 false; mkPair 35 80 false]
      (replicate (Z.to_nat 16) STRONG_YES, 0) = Some (hist, c) /\
    sim_bimodal_two 16 [mkPair 19 64 false; mkPair 35 80 false] = Some c /\
    Forall (fun x => STRONG_NO <= x <= STRONG_YES) hist /\
    0 <= c <= Z.of_nat (length [mkPair 19 64 false; mkPair 35 80 false]).
Proof.
  apply (bimodal_two_counters_saturate 16 [mkPair 19 64 false; mkPair 35 80 false]).
  lia.
Defined.

(** X24.  A two-bit counter follows two equal outcomes: when two branches
    that fall on the same entry of [sim_bimodal_two] have been processed
    in a row with the same outcome, a third branch on that entry with that
    outcome, coming next, is counted as correct, whatever the counter was
    before. *)
Theorem two_bit_counter_follows_two_outcomes
    (table_size : Z) (hist : list Z) (c : Z) (b1 b2 b3 : Pair)
    (hist2 : list Z) (c2 : Z) :
  0 < table_size < 2 ^ 31 -> length hist = Z.to_nat table_size ->
  Forall (fun x => STRONG_NO <= x <= STRONG_YES) hist ->
  addr b2 mod table_size = addr b1 mod table_size ->
  addr b3 mod table_size = addr b1 mod table_size ->
  actual b2 = actual b1 -> actual b3 = actual b1 ->
  for_branches (bimodal_two_body table_size) [b1; b2] (hist, c)
    = Some (hist2, c2) ->
  exists hist3,
    bimodal_two_body table_size (hist2, c2) b3 = Some (hist3, wrap32 (c2 + 1)).
Proof.
  intros Ht Hl Hall E2 E3 A2 A3. cbn [for_branches].
  pose proof (index_in_table (addr b1) table_size Ht) as (_ & Hi).
  destruct (bimodal_two_step table_size hist c b1 Ht Hl) as (v & Ev & ->).
  cbn [mbind option_bind].
  set (i := Z.to_nat (addr b1 mod table_size)) in *.
  set (hist1 := <[i := train v (actual b1)]> hist).
  set (c1 := if predicted v (actual b1) then wrap32 (c + 1) else c).
  assert (Hl1 : length hist1 = Z.to_nat table_size)
    by (unfold hist1; rewrite length_insert; exact Hl).
  destruct (bimodal_two_step table_size hist1 c1 b2 Ht Hl1) as (v1 & Ev1 & ->).
  cbn [mbind option_bind]. rewrite E2 in Ev1 |- *. fold i in Ev1 |- *.
  unfold hist1 in Ev1. rewrite list_lookup_insert_eq in Ev1 by lia.
  injection Ev1 as <-.
  intros E. injection E as <- <-.
  set (hist2' := <[i := train (train v (actual b1)) (actual b2)]> hist1).
  set (c2' := if predicted (train v (actual b1)) (actual b2)
              then wrap32 (c1 + 1) else c1).
  assert (Hl2 : length hist2' = Z.to_nat table_size)
    by (unfold hist2'; rewrite length_insert; exact Hl1).
  destruct (bimodal_two_step table_size hist2' c2' b3 Ht Hl2) as (v3 & Ev3 & ->).
  rewrite E3 in Ev3. fold i in Ev3. unfold hist2' in Ev3.
  rewrite list_lookup_insert_eq in Ev3 by lia. injection Ev3 as <-.
  rewrite A2, A3.
  assert (Hv : 0 <= v <= 3).
  { rewrite Forall_lookup in Hall. exact (Hall _ _ Ev). }
  rewrite (predicted_after_two v (actual b1) Hv).
  eexists. reflexivity.
Qed.

Lemma two_bit_counter_follows_two_outcomes_witness :
  exists hist3,
    bimodal_two_body 16 (<[3%nat := 1]> (replicate 16 3), 0) (mkPair 51 96 false)
      = Some (hist3, wrap32 (0 + 1)).
Proof.
  apply (two_bit_counter_follows_two_outcomes 16 (replicate 16 3) 0
           (mkPair 19 64 false) (mkPair 35 80 false) (mkPair 51 96 false)).
  - lia.
  - reflexivity.
  - apply Forall_replicate. unfold STRONG_NO, STRONG_YES. lia.
  - reflexivity.
  - reflexivity.
  - reflexivity.
  - reflexivity.
  - reflexivity.
Defined.

(** X25.  The history register of [sim_gshare] is a shift register of
    [history_size] bits: for a [history_size] from 0 to 15 and a register
    below 2^[history_size], the update yields twice the register plus the
    outcome, modulo 2^[history_size], although the mask of the source
    clears 16 bits only. *)
Theorem ghr_is_a_shift_register (history_size ghr : Z) (a : bool) :
  0 <= history_size <= 15 -> 0 <= ghr < 2 ^ history_size ->
  next_ghr history_size ghr a = (2 * ghr + Z.b2z a) mod 2 ^ history_size /\
  0 <= next_ghr history_size ghr a < 2 ^ history_size.
Proof.
  intros Hh Hg. split.
  - apply next_ghr_spec; assumption.
  - apply next_ghr_range; assumption.
Qed.

Lemma ghr_is_a_shift_register_witness :
  next_ghr 3 5 true = (2 * 5 + Z.b2z true) mod 2 ^ 3 /\
  0 <= next_ghr 3 5 true < 2 ^ 3.
Proof.
  apply (ghr_is_a_shift_register 3 5 true); simpl; lia.
Defined.

(** X26.  For a [history_size] from 0 to 11, every access of [sim_gshare]
    is inside its table of 2048 counters: the run is defined, and
    [correct] lies between 0 and the number of branches. *)
Theorem gshare_run_defined (history_size : Z) (g_traces : list Pair) :
  0 <= history_size <= 11 ->
  exists c, sim_gshare history_size g_traces = Some c /\
            0 <= c <= Z.of_nat (length g_traces).
Proof.
  intros Hh. unfold sim_gshare.
  rewrite bool_decide_eq_true_2 by lia.
  destruct (gshare_run history_size Hh g_traces (replicate 2048 STRONG_YES) 0 0
              ltac:(apply length_replicate) (all_strong_yes _) ltac:(lia)
              ltac:(split; [lia|apply Z.pow_pos_nonneg; lia]))
    as (hist' & c' & ghr' & -> & _ & _ & Hc & _).
  exists c'. split; [reflexivity|]. lia.
Qed.

Lemma gshare_run_defined_witness :
  exists c, sim_gshare 3 [mkPair 19 64 true; mkPair 35 80 false] = Some c /\
            0 <= c <= Z.of_nat (length [mkPair 19 64 true; mkPair 35 80 false]).
Proof.
  apply (gshare_run_defined 3 [mkPair 19 64 true; mkPair 35 80 false]). lia.
Defined.

(** X27.  With a [history_size] of 0, [sim_gshare] is [sim_bimodal_two]
    on a table of 2048 counters: the two give the same result on every
    trace. *)
Theorem gshare_without_history_is_bimodal (g_traces : list Pair) :
  sim_gshare 0 g_traces = sim_bimodal_two 2048 g_traces.
Proof.
  unfold sim_gshare, sim_bimodal_two.
  rewrite !bool_decide_eq_true_2 by lia.
  rewrite gshare_0_run.
  change (Z.to_nat 2048) with 2048%nat.
  destruct (for_branches (bimodal_two_body 2048) g_traces
              (replicate 2048 STRONG_YES, 0)) as [[hist c]|]; reflexivity.
Qed.

(** X28.  Every access of [sim_tournament] is inside its three tables of
    2048 entries: the run is defined on every trace, and [correct] lies
    between 0 and the number of branches. *)
Theorem tournament_run_defined (g_traces : list Pair) :
  exists c, sim_tournament g_traces = Some c /\
            0 <= c <= Z.of_nat (length g_traces).
Proof.
  unfold sim_tournament.
  destruct (tournament_run g_traces
              (replicate 2048 STRONG_YES) (replicate 2048 STRONG_YES)
              (replicate 2048 PREFER_GSHARE) 0 0
              ltac:(apply length_replicate) ltac:(apply length_replicate)
              ltac:(apply length_replicate)
              (all_strong_yes _) (all_strong_yes _)
              ltac:(apply Forall_replicate; unfold PREFER_GSHARE; lia)
              ltac:(lia) ltac:(lia))
    as (g' & b' & s' & c' & ghr' & -> & _ & _ & _ & Hc).
  exists c'. split; [reflexivity|]. lia.
Qed.

(** X29.  On a trace of fewer than 2^32 branches the run of [sim_btb] is
    defined, and its counts are ordered: [correct] is at most [attempted],
    which is at most the number of branches. *)
Theorem btb_counts_are_ordered (g_traces : list Pair) :
  Z.of_nat (length g_traces) < 2 ^ 32 ->
  exists correct attempted,
    sim_btb g_traces = Some (correct, attempted) /\
    0 <= correct <= attempted /\ attempted <= Z.of_nat (length g_traces).
Proof.
  intros Hlen. unfold sim_btb.
  destruct (btb_run g_traces (replicate 512 true) (replicate 512 0) 0 0
              ltac:(apply length_replicate) ltac:(apply length_replicate)
              ltac:(lia) ltac:(lia))
    as (h' & b' & c' & a' & -> & Hc & Ha).
  exists c', a'. split; [reflexivity|]. lia.
Qed.

Lemma btb_counts_are_ordered_witness :
  exists correct attempted,
    sim_btb [mkPair 19 64 true; mkPair 19 64 true] = Some (correct, attempted) /\
    0 <= correct <= attempted /\
    attempted <= Z.of_nat (length [mkPair 19 64 true; mkPair 19 64 true]).
Proof.
  apply (btb_counts_are_ordered [mkPair 19 64 true; mkPair 19 64 true]).
  simpl. lia.
Defined.

End PredictorExtras.
